(** * Quiz reconciliation engine: fingerprint, precedence, deduplication, sync

    A shallow embedding of the storage backends of the quiz server
    ([MemStorage] and [FileStorage], the latter being the exported
    [storage]) and of the client's sync preparation, followed by the
    properties of the reconciliation engine that hold of them.

    Conventions of the embedding:
    - a JS string is a [string] of bytes; [toLowerCase] and [trim] act on
      the ASCII letters and on the ASCII white space;
    - a [Map<number, Quiz>] is the list of its values in insertion order
      (the order [Array.from(map.values())] yields), keyed by [id];
    - the bookkeeping maps and sets of the duplicate passes, which are only
      looked up, are [gmap] and [gset]; [titleMap], which is iterated, is a
      list of groups in insertion order;
    - a timestamp is the [Z] that [getTime()] returns;
    - [uuidv4()], [crypto.randomUUID()] and [new Date()] are an indexed
      supply of identifiers and a clock reading, passed explicitly. *)

From stdpp Require Import gmap strings list pretty.
From Stdlib Require Import Ascii ZArith Permutation Sorted.
From Stdlib Require OrderedTypeEx.

Local Open Scope string_scope.
Local Open Scope Z_scope.

(** ** Strings *)

Definition is_upper (c : ascii) : bool :=
  let n := nat_of_ascii c in (65 <=? n)%nat && (n <=? 90)%nat.

Definition lower_ascii (c : ascii) : ascii :=
  if is_upper c then ascii_of_nat (nat_of_ascii c + 32) else c.

(** [String.prototype.toLowerCase]. *)
Fixpoint toLowerCase (s : string) : string :=
  match s with
  | EmptyString => EmptyString
  | String c s' => String (lower_ascii c) (toLowerCase s')
  end.

(** White space removed by [trim]: TAB, LF, VT, FF, CR and space. *)
Definition is_space (c : ascii) : bool :=
  let n := nat_of_ascii c in
  ((9 <=? n)%nat && (n <=? 13)%nat) || (n =? 32)%nat.

Fixpoint trimStart (s : string) : string :=
  match s with
  | EmptyString => EmptyString
  | String c s' => if is_space c then trimStart s' else s
  end.

Fixpoint trimEnd (s : string) : string :=
  match s with
  | EmptyString => EmptyString
  | String c s' =>
      match trimEnd s' with
      | EmptyString => if is_space c then EmptyString else String c EmptyString
      | t => String c t
      end
  end.

(** [String.prototype.trim]. *)
Definition trim (s : string) : string := trimEnd (trimStart s).

(** The normalisation every comparison uses: [s.toLowerCase().trim()]. *)
Definition normalize (s : string) : string := trim (toLowerCase s).

(** [Array.prototype.join]. *)
Fixpoint join (sep : string) (l : list string) : string :=
  match l with
  | [] => EmptyString
  | [x] => x
  | x :: l' => x ++ sep ++ join sep l'
  end.

(** *** Sorting

    [Array.prototype.sort] is stable; on a comparator that is a total
    preorder its result is the stable insertion sort's. *)
Section Sort.
Context {A : Type} (le : A -> A -> bool).

Fixpoint insert_sorted (x : A) (l : list A) : list A :=
  match l with
  | [] => [x]
  | y :: l' => if le x y then x :: y :: l' else y :: insert_sorted x l'
  end.

Fixpoint sort (l : list A) : list A :=
  match l with
  | [] => []
  | x :: l' => insert_sorted x (sort l')
  end.
End Sort.

(** The default comparator of [sort()] on strings: code unit order. *)
Definition code_unit_le (a b : string) : bool := String.leb a b.

(** *** JSON.stringify on the fingerprint's data *)

Definition dquote : ascii := ascii_of_nat 34.
Definition backslash : ascii := ascii_of_nat 92.

Definition hex_digit (n : nat) : ascii :=
  if (n <? 10)%nat then ascii_of_nat (48 + n) else ascii_of_nat (87 + n).

Definition json_escape_char (c : ascii) : string :=
  let n := nat_of_ascii c in
  if (n =? 34)%nat then String backslash (String dquote EmptyString)
  else if (n =? 92)%nat then String backslash (String backslash EmptyString)
  else if (n =? 8)%nat then String backslash "b"
  else if (n =? 12)%nat then String backslash "f"
  else if (n =? 10)%nat then String backslash "n"
  else if (n =? 13)%nat then String backslash "r"
  else if (n =? 9)%nat then String backslash "t"
  else if (n <? 32)%nat then
    String backslash
      ("u00" ++ String (hex_digit (n / 16)) (String (hex_digit (n mod 16)) EmptyString))
  else String c EmptyString.

Fixpoint json_escape (s : string) : string :=
  match s with
  | EmptyString => EmptyString
  | String c s' => json_escape_char c ++ json_escape s'
  end.

Definition json_string (s : string) : string :=
  String dquote (json_escape s ++ String dquote EmptyString).

(** ** Data model *)

Record Question := mkQuestion {
  question : string;
  options : list string;
  correctAnswer : string
}.

(** A stored quiz ([Quiz] of the shared schema): the fields the engine
    reads. [uniqueId], [version] and [createdAt] may be missing. *)
Record Quiz := mkQuiz {
  id : Z;
  uniqueId : option string;
  title : string;
  questions : list Question;
  isPublic : bool;
  version : option Z;
  createdAt : option Z
}.

(** A quiz as a client submits it ([InsertQuiz]): no storage [id]. *)
Record InsertQuiz := mkInsertQuiz {
  i_uniqueId : option string;
  i_title : string;
  i_questions : list Question;
  i_isPublic : bool;
  i_version : option Z;
  i_createdAt : option Z
}.

(** JS truthiness of an optional string: defined and not empty. *)
Definition truthyS (o : option string) : bool :=
  match o with
  | Some s => negb (String.eqb s EmptyString)
  | None => false
  end.

(** JS truthiness of an optional number: defined and not zero. *)
Definition truthyZ (o : option Z) : bool :=
  match o with
  | Some v => negb (v =? 0)
  | None => false
  end.

Definition numOr (o : option Z) (d : Z) : Z := default d o.

(** ** Fingerprint *)

(** One entry of [questionsData]. *)
Record QuestionData := mkQuestionData {
  qd_question : string;
  qd_options : string;
  qd_correctAnswer : string
}.

Definition questionData (q : Question) : QuestionData :=
  {| qd_question := normalize (question q);
     qd_options := join "|" (sort code_unit_le (map normalize (options q)));
     qd_correctAnswer := normalize (correctAnswer q) |}.

Definition json_questionData (d : QuestionData) : string :=
  "{" ++ json_string "question" ++ ":" ++ json_string (qd_question d) ++ ","
      ++ json_string "options" ++ ":" ++ json_string (qd_options d) ++ ","
      ++ json_string "correctAnswer" ++ ":" ++ json_string (qd_correctAnswer d)
      ++ "}".

Definition json_array (l : list string) : string := "[" ++ join "," l ++ "]".

(** The fingerprint for a comparator [cmp] standing for [localeCompare]:
    [questionsData.sort((a, b) => a.question.localeCompare(b.question))]
    puts [a] before [b] when the comparator does not say [Gt]. *)
Definition createContentHashWith (cmp : string -> string -> comparison)
    (titleOf : string) (qs : list Question) : string :=
  let titleNormalized := normalize titleOf in
  let questionsData := map questionData qs in
  let sorted :=
    sort (fun a b => match cmp (qd_question a) (qd_question b) with
                     | Gt => false
                     | _ => true
                     end) questionsData in
  titleNormalized ++ ":" ++ pretty (length sorted) ++ ":"
    ++ json_array (map json_questionData sorted).

(** [localeCompare] taken as the code unit order. *)
Definition localeCompare (a b : string) : comparison := String.compare a b.

(** [createContentHash] of the three storage classes. *)
Definition createContentHash (quiz : Quiz) : string :=
  createContentHashWith localeCompare (title quiz) (questions quiz).

(** [createQuizContentHash] of the client: the same computation. *)
Definition createQuizContentHash (quiz : InsertQuiz) : string :=
  createContentHashWith localeCompare (i_title quiz) (i_questions quiz).

(** ** Precedence *)

(** [keepNew] of the content and identifier passes:
    [(quiz.version && existingQuiz.version && quiz.version > existingQuiz.version)
     || (quiz.createdAt && existingQuiz.createdAt && time(quiz) > time(existingQuiz))]. *)
Definition keepNew (quiz existingQuiz : Quiz) : bool :=
  (truthyZ (version quiz) && truthyZ (version existingQuiz)
     && (numOr (version quiz) 0 >? numOr (version existingQuiz) 0))
  || (bool_decide (is_Some (createdAt quiz))
      && bool_decide (is_Some (createdAt existingQuiz))
      && (numOr (createdAt quiz) 0 >? numOr (createdAt existingQuiz) 0)).

(** The winner of a pair: [existingQuiz] was met first, [quiz] second. *)
Definition precedence (existingQuiz quiz : Quiz) : Quiz :=
  if keepNew quiz existingQuiz then quiz else existingQuiz.

(** Folding the rule over the members of a class in iteration order. *)
Definition precedence_fold (first : Quiz) (rest : list Quiz) : Quiz :=
  foldl precedence first rest.

(** [keepQuiz1] of FileStorage's title pass: a missing version counts 0. *)
Definition keepQuiz1 (quiz1 quiz2 : Quiz) : bool :=
  (numOr (version quiz1) 0 >? numOr (version quiz2) 0)
  || (bool_decide (is_Some (createdAt quiz1))
      && bool_decide (is_Some (createdAt quiz2))
      && (numOr (createdAt quiz1) 0 >? numOr (createdAt quiz2) 0)).

(** ** Similarity of two same-titled quizzes *)

(** The test of the inner loops: question texts equal or correct answers
    equal, after lowercasing and trimming. *)
Definition questionsMatch (q1 q2 : Question) : bool :=
  String.eqb (normalize (question q1)) (normalize (question q2))
  || String.eqb (normalize (correctAnswer q1)) (normalize (correctAnswer q2)).

(** [matchCount]: the questions of [quiz1] with a match in [quiz2]; the
    [break] counts each of them once. *)
Definition matchCount (quiz1 quiz2 : Quiz) : nat :=
  List.length
    (List.filter (fun q1 => existsb (questionsMatch q1) (questions quiz2))
       (questions quiz1)).

(** [Math.abs(quiz1.questions.length - quiz2.questions.length) > 1]. *)
Definition lengthsFarApart (quiz1 quiz2 : Quiz) : bool :=
  let n1 := List.length (questions quiz1) in
  let n2 := List.length (questions quiz2) in
  (1 <? (n1 - n2) + (n2 - n1))%nat.

(** [matchCount >= Math.min(n1, n2) * 0.8]. The product is the double
    nearest to [0.8 * min]; it is the integer [4 * min / 5] when 5 divides
    [min] and lies strictly between two integers otherwise, so for an
    integer [matchCount] the comparison is [4 * min <= 5 * matchCount]. *)
Definition reachesThreshold (quiz1 quiz2 : Quiz) : bool :=
  let n1 := List.length (questions quiz1) in
  let n2 := List.length (questions quiz2) in
  (4 * Nat.min n1 n2 <=? 5 * matchCount quiz1 quiz2)%nat.

(** ** FileStorage.removeDuplicateQuizzes *)

Record DedupState := mkDedup {
  quizzesToKeep : gset Z;
  duplicatesToRemove : list Quiz
}.

(** [quizzesToKeep.delete(quiz.id); duplicatesToRemove.push(quiz)]. *)
Definition dropQuiz (quiz : Quiz) (d : DedupState) : DedupState :=
  mkDedup (quizzesToKeep d ∖ {[id quiz]}) (duplicatesToRemove d ++ [quiz])%list.

(** One iteration of the first pass (by content hash, over all quizzes). *)
Definition contentPass_step (st : gmap string Quiz * DedupState) (quiz : Quiz)
    : gmap string Quiz * DedupState :=
  let '(contentHashMap, d) := st in
  let contentHash := createContentHash quiz in
  match contentHashMap !! contentHash with
  | None =>
      (<[contentHash := quiz]> contentHashMap,
       mkDedup ({[id quiz]} ∪ quizzesToKeep d) (duplicatesToRemove d))
  | Some existingQuiz =>
      if bool_decide (id quiz = id existingQuiz) then st
      else if keepNew quiz existingQuiz then
        (<[contentHash := quiz]> contentHashMap,
         mkDedup ({[id quiz]} ∪ (quizzesToKeep d ∖ {[id existingQuiz]}))
                 (duplicatesToRemove d ++ [existingQuiz])%list)
      else
        (contentHashMap,
         mkDedup (quizzesToKeep d) (duplicatesToRemove d ++ [quiz])%list)
  end.

(** One iteration of the second pass (by [uniqueId], over the kept ones). *)
Definition uniqueIdPass_step (st : gmap string Quiz * DedupState) (quiz : Quiz)
    : gmap string Quiz * DedupState :=
  let '(uniqueIdMap, d) := st in
  if negb (bool_decide (id quiz ∈ quizzesToKeep d)) || negb (truthyS (uniqueId quiz))
  then st
  else
    match uniqueId quiz with
    | None => st
    | Some u =>
        match uniqueIdMap !! u with
        | None => (<[u := quiz]> uniqueIdMap, d)
        | Some existingQuiz =>
            if bool_decide (id quiz = id existingQuiz) then st
            else if keepNew quiz existingQuiz then
              (<[u := quiz]> uniqueIdMap, dropQuiz existingQuiz d)
            else (uniqueIdMap, dropQuiz quiz d)
        end
    end.

(** [titleMap]: the groups in the order their titles were first met, each
    group in the order its members were pushed. *)
Fixpoint titleMap_push (normalizedTitle : string) (quiz : Quiz)
    (titleMap : list (string * list Quiz)) : list (string * list Quiz) :=
  match titleMap with
  | [] => [(normalizedTitle, [quiz])]
  | (t, g) :: titleMap' =>
      if String.eqb t normalizedTitle then (t, (g ++ [quiz])%list) :: titleMap'
      else (t, g) :: titleMap_push normalizedTitle quiz titleMap'
  end.

Definition titleMap_step (keep : gset Z) (titleMap : list (string * list Quiz))
    (quiz : Quiz) : list (string * list Quiz) :=
  if bool_decide (id quiz ∈ keep)
  then titleMap_push (normalize (title quiz)) quiz titleMap
  else titleMap.

(** The [j] loop for a fixed [quiz1] over the members after it. *)
Fixpoint compareWithLater (quiz1 : Quiz) (later : list Quiz) (d : DedupState)
    : DedupState :=
  match later with
  | [] => d
  | quiz2 :: later' =>
      if negb (bool_decide (id quiz2 ∈ quizzesToKeep d)) then
        compareWithLater quiz1 later' d
      else if lengthsFarApart quiz1 quiz2 then compareWithLater quiz1 later' d
      else if reachesThreshold quiz1 quiz2 then
        if keepQuiz1 quiz1 quiz2 then compareWithLater quiz1 later' (dropQuiz quiz2 d)
        else dropQuiz quiz1 d
      else compareWithLater quiz1 later' d
  end.

(** The [i] loop over one title group. *)
Fixpoint compareGroup (group : list Quiz) (d : DedupState) : DedupState :=
  match group with
  | [] => d
  | quiz1 :: later =>
      compareGroup later
        (if bool_decide (id quiz1 ∈ quizzesToKeep d)
         then compareWithLater quiz1 later d else d)
  end.

Definition titlePass_step (d : DedupState) (entry : string * list Quiz)
    : DedupState :=
  if (1 <? List.length entry.2)%nat then compareGroup entry.2 d else d.

(** [Map.prototype.delete] on the collection. *)
Definition mapDelete (k : Z) (collection : list Quiz) : list Quiz :=
  filter (fun q => id q ≠ k) collection.

Definition mapHas (k : Z) (collection : list Quiz) : bool :=
  bool_decide (k ∈ id <$> collection).

(** The deletion loop: the collection left and [deleteCount]. *)
Definition deleteAll (collection : list Quiz) (dups : list Quiz)
    : list Quiz * nat :=
  foldl (fun acc quiz =>
           if mapHas (id quiz) acc.1
           then (mapDelete (id quiz) acc.1, S acc.2) else acc)
        (collection, 0%nat) dups.

Record DedupResult := mkResult {
  survivors : list Quiz;
  removed : list Quiz;
  deleteCount : nat
}.

Definition contentPass (allQuizzes : list Quiz) : gmap string Quiz * DedupState :=
  foldl contentPass_step (∅, mkDedup ∅ []) allQuizzes.

Definition uniqueIdPass (d : DedupState) (allQuizzes : list Quiz)
    : gmap string Quiz * DedupState :=
  foldl uniqueIdPass_step (∅, d) allQuizzes.

Definition buildTitleMap (keep : gset Z) (allQuizzes : list Quiz)
    : list (string * list Quiz) :=
  foldl (titleMap_step keep) [] allQuizzes.

Definition titlePass (d : DedupState) (allQuizzes : list Quiz) : DedupState :=
  foldl titlePass_step d (buildTitleMap (quizzesToKeep d) allQuizzes).

(** The three passes on a collection of at least two quizzes. *)
Definition dedupPasses (allQuizzes : list Quiz) : DedupState :=
  titlePass (uniqueIdPass (contentPass allQuizzes).2 allQuizzes).2 allQuizzes.

Definition removeDuplicateQuizzes (allQuizzes : list Quiz) : DedupResult :=
  if (List.length allQuizzes <=? 1)%nat then mkResult allQuizzes [] 0
  else
    let d := dedupPasses allQuizzes in
    let r := deleteAll allQuizzes (duplicatesToRemove d) in
    mkResult r.1 (duplicatesToRemove d) r.2.

(** ** FileStorage: the collection and the sync call *)

(** The state of the storage object, with the number of identifiers
    already drawn from [uuidv4]. *)
Record FileStorage := mkStorage {
  quizCollection : list Quiz;
  quizCurrentId : Z;
  uuidCalls : nat
}.

(** [Map.prototype.set]: replaces the value under an existing key where it
    stands, appends a new key. *)
Fixpoint mapSet (quiz : Quiz) (collection : list Quiz) : list Quiz :=
  match collection with
  | [] => [quiz]
  | q :: collection' =>
      if bool_decide (id q = id quiz) then quiz :: collection'
      else q :: mapSet quiz collection'
  end.

Definition mapGet (k : Z) (collection : list Quiz) : option Quiz :=
  List.find (fun q => bool_decide (id q = k)) collection.

Definition getQuizByUniqueId (u : string) (collection : list Quiz) : option Quiz :=
  List.find (fun q => bool_decide (uniqueId q = Some u)) collection.

Definition getPublicQuizzes (collection : list Quiz) : list Quiz :=
  List.filter (fun q => isPublic q) collection.

(** A key of [{...existingQuiz, ...quizUpdate}] that [quizUpdate] carries
    overrides the stored one; a key it lacks leaves it. *)
Definition spread {A : Type} (existing update : option A) : option A :=
  match update with
  | Some v => Some v
  | None => existing
  end.

Definition deleteQuiz (st : FileStorage) (k : Z) : FileStorage * bool :=
  (mkStorage (mapDelete k (quizCollection st)) (quizCurrentId st) (uuidCalls st),
   mapHas k (quizCollection st)).

(** [{ ...existingQuiz, ...quizUpdate, version: existingQuiz.version ?
    existingQuiz.version + 1 : 1 }], the record [updateQuiz] writes. *)
Definition overwritten (existingQuiz : Quiz) (quizToSync : InsertQuiz) : Quiz :=
  {| id := id existingQuiz;
     uniqueId := spread (uniqueId existingQuiz) (i_uniqueId quizToSync);
     title := i_title quizToSync;
     questions := i_questions quizToSync;
     isPublic := i_isPublic quizToSync;
     version :=
       if truthyZ (version existingQuiz)
       then Some (numOr (version existingQuiz) 0 + 1) else Some 1;
     createdAt := spread (createdAt existingQuiz) (i_createdAt quizToSync) |}.

Definition updateQuiz (st : FileStorage) (k : Z) (quizUpdate : InsertQuiz)
    : FileStorage * option Quiz :=
  match mapGet k (quizCollection st) with
  | None => (st, None)
  | Some existingQuiz =>
      let updatedQuiz := overwritten existingQuiz quizUpdate in
      (mkStorage (mapSet updatedQuiz (quizCollection st))
                 (quizCurrentId st) (uuidCalls st),
       Some updatedQuiz)
  end.

(** [deletePrivateQuizzes]: the collection left and the count. *)
Definition deletePrivateQuizzes (st : FileStorage) : FileStorage * nat :=
  let privateQuizzes := List.filter (fun q => negb (isPublic q)) (quizCollection st) in
  let r := deleteAll (quizCollection st) privateQuizzes in
  (mkStorage r.1 (quizCurrentId st) (uuidCalls st), r.2).

Section Sync.
(** [uuidv4 n] is the identifier the [n]-th call of [uuidv4()] returns,
    [randomUUID n] that of the client's [crypto.randomUUID()], and [now]
    the reading of [new Date()]. *)
Variable uuidv4 : nat -> string.
Variable randomUUID : nat -> string.
Variable now : Z.

Definition createQuiz (st : FileStorage) (quiz : InsertQuiz) : FileStorage * Quiz :=
  let newId := quizCurrentId st in
  let assigned :=
    if truthyS (i_uniqueId quiz) then (i_uniqueId quiz, uuidCalls st)
    else (Some (uuidv4 (uuidCalls st)), S (uuidCalls st)) in
  let newQuiz :=
    {| id := newId;
       uniqueId := assigned.1;
       title := i_title quiz;
       questions := i_questions quiz;
       isPublic := i_isPublic quiz;
       version := if truthyZ (i_version quiz) then i_version quiz else Some 1;
       createdAt := Some (numOr (i_createdAt quiz) now) |} in
  (mkStorage (mapSet newQuiz (quizCollection st)) (newId + 1) assigned.2, newQuiz).

(** The body of the first loop of [syncQuizzes], for one public quiz. *)
Definition syncUpsert_step (st : FileStorage) (quizToSync : InsertQuiz) : FileStorage :=
  if negb (truthyS (i_uniqueId quizToSync)) then st
  else
    match i_uniqueId quizToSync with
    | None => st
    | Some u =>
        match getQuizByUniqueId u (quizCollection st) with
        | Some existingQuiz => (updateQuiz st (id existingQuiz) quizToSync).1
        | None => (createQuiz st quizToSync).1
        end
    end.

(** The body of the second loop, for one quiz of the whole batch. *)
Definition syncPurge_step (st : FileStorage) (quizToSync : InsertQuiz) : FileStorage :=
  if negb (i_isPublic quizToSync) && truthyS (i_uniqueId quizToSync) then
    match i_uniqueId quizToSync with
    | None => st
    | Some u =>
        match getQuizByUniqueId u (quizCollection st) with
        | Some existingQuiz => (deleteQuiz st (id existingQuiz)).1
        | None => st
        end
    end
  else st.

Definition publicQuizzesToSync (quizzesToSync : list InsertQuiz) : list InsertQuiz :=
  List.filter (fun quiz => i_isPublic quiz) quizzesToSync.

(** The store after the first loop. *)
Definition syncUpserted (st : FileStorage) (quizzesToSync : list InsertQuiz) : FileStorage :=
  foldl syncUpsert_step st (publicQuizzesToSync quizzesToSync).

(** The store after the second loop. *)
Definition syncPurged (st : FileStorage) (quizzesToSync : list InsertQuiz) : FileStorage :=
  foldl syncPurge_step (syncUpserted st quizzesToSync) quizzesToSync.

(** [FileStorage.syncQuizzes]: the store it leaves and what it returns. *)
Definition syncQuizzes (st : FileStorage) (quizzesToSync : list InsertQuiz)
    : FileStorage * list Quiz :=
  let st3 := (deletePrivateQuizzes (syncPurged st quizzesToSync)).1 in
  let st4 :=
    mkStorage (survivors (removeDuplicateQuizzes (quizCollection st3)))
              (quizCurrentId st3) (uuidCalls st3) in
  (st4, getPublicQuizzes (quizCollection st4)).



(** The handler of [POST /api/quizzes/sync]: every quiz of the body gets
    a [createdAt] before the storage is called; the response is the
    public set. *)
Definition syncRoute (st : FileStorage) (body : list InsertQuiz)
    : FileStorage * list Quiz :=
  let processed :=
    map (fun quiz =>
           {| i_uniqueId := i_uniqueId quiz;
              i_title := i_title quiz;
              i_questions := i_questions quiz;
              i_isPublic := i_isPublic quiz;
              i_version := i_version quiz;
              i_createdAt := Some (numOr (i_createdAt quiz) now) |}) body in
  let r := syncQuizzes st processed in
  (r.1, getPublicQuizzes (quizCollection r.1)).

End Sync.


(** ** MemStorage.removeDuplicateQuizzes

    The in-memory backend orders the passes differently: identifier first,
    then content hash among the quizzes without [uniqueId], then titles. *)
Module MemStorage.

(** One iteration of the first pass (by [uniqueId]). *)
Definition uniqueIdPass_step (st : gmap string Quiz * DedupState) (quiz : Quiz)
    : gmap string Quiz * DedupState :=
  let '(uniqueIdMap, d) := st in
  if negb (truthyS (uniqueId quiz)) then
    (uniqueIdMap, mkDedup ({[id quiz]} ∪ quizzesToKeep d) (duplicatesToRemove d))
  else
    match uniqueId quiz with
    | None => st
    | Some u =>
        match uniqueIdMap !! u with
        | None =>
            (<[u := quiz]> uniqueIdMap,
             mkDedup ({[id quiz]} ∪ quizzesToKeep d) (duplicatesToRemove d))
        | Some existingQuiz =>
            if keepNew quiz existingQuiz then
              (<[u := quiz]> uniqueIdMap,
               mkDedup ({[id quiz]} ∪ (quizzesToKeep d ∖ {[id existingQuiz]}))
                       (duplicatesToRemove d ++ [existingQuiz])%list)
            else
              (uniqueIdMap,
               mkDedup (quizzesToKeep d) (duplicatesToRemove d ++ [quiz])%list)
        end
    end.

(** One iteration of the second pass (by content hash). *)
Definition contentPass_step (st : gmap string Quiz * DedupState) (quiz : Quiz)
    : gmap string Quiz * DedupState :=
  let '(contentHashMap, d) := st in
  if negb (bool_decide (id quiz ∈ quizzesToKeep d)) then st
  else if negb (truthyS (uniqueId quiz)) then
    let contentHash := createContentHash quiz in
    match contentHashMap !! contentHash with
    | None => (<[contentHash := quiz]> contentHashMap, d)
    | Some existingQuiz =>
        if keepNew quiz existingQuiz then
          (<[contentHash := quiz]> contentHashMap,
           mkDedup ({[id quiz]} ∪ (quizzesToKeep d ∖ {[id existingQuiz]}))
                   (duplicatesToRemove d ++ [existingQuiz])%list)
        else (contentHashMap, dropQuiz quiz d)
    end
  else st.

(** [quiz1.uniqueId && quiz2.uniqueId && quiz1.uniqueId !== quiz2.uniqueId]. *)
Definition differentUniqueIds (quiz1 quiz2 : Quiz) : bool :=
  truthyS (uniqueId quiz1) && truthyS (uniqueId quiz2)
  && negb (bool_decide (uniqueId quiz1 = uniqueId quiz2)).

(** The [j] loop of the third pass, on [finalUniqueQuizIds]. *)
Fixpoint compareWithLater (quiz1 : Quiz) (later : list Quiz) (d : DedupState)
    : DedupState :=
  match later with
  | [] => d
  | quiz2 :: later' =>
      if negb (bool_decide (id quiz2 ∈ quizzesToKeep d)) then
        compareWithLater quiz1 later' d
      else if differentUniqueIds quiz1 quiz2 then compareWithLater quiz1 later' d
      else if negb (lengthsFarApart quiz1 quiz2) && reachesThreshold quiz1 quiz2 then
        if keepNew quiz1 quiz2 then compareWithLater quiz1 later' (dropQuiz quiz2 d)
        else dropQuiz quiz1 d
      else compareWithLater quiz1 later' d
  end.

Fixpoint compareGroup (group : list Quiz) (d : DedupState) : DedupState :=
  match group with
  | [] => d
  | quiz1 :: later =>
      compareGroup later
        (if bool_decide (id quiz1 ∈ quizzesToKeep d)
         then compareWithLater quiz1 later d else d)
  end.

Definition titlePass_step (d : DedupState) (entry : string * list Quiz)
    : DedupState :=
  if (1 <? List.length entry.2)%nat then compareGroup entry.2 d else d.

Definition uniqueIdPass (allQuizzes : list Quiz) : gmap string Quiz * DedupState :=
  foldl uniqueIdPass_step (∅, mkDedup ∅ []) allQuizzes.

Definition contentPass (d : DedupState) (allQuizzes : list Quiz)
    : gmap string Quiz * DedupState :=
  foldl contentPass_step (∅, d) allQuizzes.

(** [titleMap] is built from [uniqueQuizIds]; the loops then work on its
    copy [finalUniqueQuizIds]. *)
Definition titlePass (d : DedupState) (allQuizzes : list Quiz) : DedupState :=
  foldl titlePass_step d (buildTitleMap (quizzesToKeep d) allQuizzes).

Definition dedupPasses (allQuizzes : list Quiz) : DedupState :=
  titlePass (contentPass (uniqueIdPass allQuizzes).2 allQuizzes).2 allQuizzes.

Definition removeDuplicateQuizzes (allQuizzes : list Quiz) : DedupResult :=
  let d := dedupPasses allQuizzes in
  let r := deleteAll allQuizzes (duplicatesToRemove d) in
  mkResult r.1 (duplicatesToRemove d) r.2.

End MemStorage.

(** ** FileStorage: the other methods of the interface *)

(** [getQuiz]: the record under a key, if any. *)
Definition getQuiz (st : FileStorage) (k : Z) : option Quiz :=
  mapGet k (quizCollection st).

(** [removeDuplicateQuizzes] as a method: the store it leaves and the
    count it returns. *)
Definition removeDuplicates (st : FileStorage) : FileStorage * nat :=
  let r := removeDuplicateQuizzes (quizCollection st) in
  (mkStorage (survivors r) (quizCurrentId st) (uuidCalls st), deleteCount r).

(** The keys of the map are distinct and below the counter the next key
    is drawn from. *)
Definition keysBelowCounter (st : FileStorage) : Prop :=
  NoDup (id <$> quizCollection st)
  /\ Forall (fun q => id q < quizCurrentId st) (quizCollection st).

(** ** Request handlers *)

(** What a handler answers: a status with, on success, a body. *)
Inductive Response (A : Type) : Type :=
  | Ok200 (body : A)
  | BadRequest400
  | NotFound404
  | ServerError500.
Arguments Ok200 {A} body.
Arguments BadRequest400 {A}.
Arguments NotFound404 {A}.
Arguments ServerError500 {A}.

(** [GET /api/quizzes/unique/:uniqueId]. *)
Definition getByUniqueIdRoute (st : FileStorage) (uniqueIdParam : string)
    : Response Quiz :=
  match getQuizByUniqueId uniqueIdParam (quizCollection st) with
  | None => NotFound404
  | Some quiz => Ok200 quiz
  end.

(** [DELETE /api/quizzes/unique/:uniqueId]: the quiz is looked up by its
    identifier and deleted under its key. *)
Definition deleteByUniqueIdRoute (st : FileStorage) (uniqueIdParam : string)
    : FileStorage * Response bool :=
  match getQuizByUniqueId uniqueIdParam (quizCollection st) with
  | None => (st, NotFound404)
  | Some quiz =>
      let r := deleteQuiz st (id quiz) in
      if negb r.2 then (r.1, ServerError500) else (r.1, Ok200 true)
  end.

(** ** The client: duplicates in the local list, merge of the public list

    The client's quizzes are records of the same shape; the functions below
    read their [uniqueId], [title], [questions], [version] and [createdAt],
    and carry every other field along unchanged. *)
Module Client.

(** The test of the first pass: the newer version or, when neither quiz
    has a version, the later creation date. *)
Definition isNewer (quiz existingQuiz : InsertQuiz) : bool :=
  (truthyZ (i_version quiz) && truthyZ (i_version existingQuiz)
     && (numOr (i_version quiz) 0 >? numOr (i_version existingQuiz) 0))
  || (negb (truthyZ (i_version quiz)) && negb (truthyZ (i_version existingQuiz))
      && bool_decide (is_Some (i_createdAt quiz))
      && bool_decide (is_Some (i_createdAt existingQuiz))
      && (numOr (i_createdAt quiz) 0 >? numOr (i_createdAt existingQuiz) 0)).

(** [Array.prototype.findIndex]: the first index whose element passes. *)
Fixpoint findIndex {A : Type} (p : A -> bool) (l : list A) : option nat :=
  match l with
  | [] => None
  | x :: l' => if p x then Some 0%nat else S <$> findIndex p l'
  end.

(** The bookkeeping of the first two passes. *)
Record Passes := mkPasses {
  uniqueIdMap : gmap string InsertQuiz;
  contentHashMap : gmap string InsertQuiz;
  uniqueQuizzes : list InsertQuiz;
  duplicatesRemoved : list InsertQuiz
}.

(** One iteration of the first pass (quizzes that have a [uniqueId]). *)
Definition uniqueIdPass_step (st : Passes) (quiz : InsertQuiz) : Passes :=
  if truthyS (i_uniqueId quiz) then
    match i_uniqueId quiz with
    | None => st
    | Some u =>
        match uniqueIdMap st !! u with
        | None =>
            mkPasses (<[u := quiz]> (uniqueIdMap st)) (contentHashMap st)
              (uniqueQuizzes st ++ [quiz]) (duplicatesRemoved st)
        | Some existingQuiz =>
            if isNewer quiz existingQuiz then
              match findIndex (fun q => bool_decide (i_uniqueId q = i_uniqueId quiz))
                      (uniqueQuizzes st) with
              | Some existingIndex =>
                  mkPasses (<[u := quiz]> (uniqueIdMap st)) (contentHashMap st)
                    (<[existingIndex := quiz]> (uniqueQuizzes st))
                    (duplicatesRemoved st ++ [existingQuiz])
              | None => st
              end
            else
              mkPasses (uniqueIdMap st) (contentHashMap st) (uniqueQuizzes st)
                (duplicatesRemoved st ++ [quiz])
        end
    end
  else st.

(** One iteration of the second pass (quizzes without [uniqueId]). *)
Definition contentPass_step (st : Passes) (quiz : InsertQuiz) : Passes :=
  if negb (truthyS (i_uniqueId quiz)) then
    let contentKey := createQuizContentHash quiz in
    match contentHashMap st !! contentKey with
    | None =>
        mkPasses (uniqueIdMap st) (<[contentKey := quiz]> (contentHashMap st))
          (uniqueQuizzes st ++ [quiz]) (duplicatesRemoved st)
    | Some _ =>
        mkPasses (uniqueIdMap st) (contentHashMap st) (uniqueQuizzes st)
          (duplicatesRemoved st ++ [quiz])
    end
  else st.

(** The test of the third pass on two questions: the same text and the
    same correct answer, lowercased and trimmed. *)
Definition sameQuestion (q1 q2 : Question) : bool :=
  String.eqb (normalize (question q1)) (normalize (question q2))
  && String.eqb (normalize (correctAnswer q1)) (normalize (correctAnswer q2)).

(** [matchingQuestions]: the questions of [quiz] found in [existingQuiz]. *)
Definition matchingQuestions (quiz existingQuiz : InsertQuiz) : nat :=
  List.length
    (List.filter (fun q1 => existsb (sameQuestion q1) (i_questions existingQuiz))
       (i_questions quiz)).

(** The verdict on one earlier quiz of the same title: as many questions,
    and [matchingQuestions >= quiz.questions.length * 0.8], which for whole
    numbers is [4 * length <= 5 * matchingQuestions]. *)
Definition similarTo (quiz existingQuiz : InsertQuiz) : bool :=
  (List.length (i_questions quiz) =? List.length (i_questions existingQuiz))%nat
  && (4 * List.length (i_questions quiz) <=? 5 * matchingQuestions quiz existingQuiz)%nat.

(** The bookkeeping of the third pass. *)
Record Titles := mkTitles {
  processedTitles : gmap string (list InsertQuiz);
  finalUniqueQuizzes : list InsertQuiz;
  titleDuplicates : list InsertQuiz
}.

(** One iteration of the third pass. *)
Definition titlePass_step (st : Titles) (quiz : InsertQuiz) : Titles :=
  let normalizedTitle := normalize (i_title quiz) in
  match processedTitles st !! normalizedTitle with
  | None =>
      mkTitles (<[normalizedTitle := [quiz]]> (processedTitles st))
        (finalUniqueQuizzes st ++ [quiz]) (titleDuplicates st)
  | Some existingQuizzes =>
      if existsb (similarTo quiz) existingQuizzes then
        mkTitles (processedTitles st) (finalUniqueQuizzes st)
          (titleDuplicates st ++ [quiz])
      else
        mkTitles (<[normalizedTitle := (existingQuizzes ++ [quiz])%list]> (processedTitles st))
          (finalUniqueQuizzes st ++ [quiz]) (titleDuplicates st)
  end.

Definition firstPasses (prevQuizzes : list InsertQuiz) : Passes :=
  foldl contentPass_step
    (foldl uniqueIdPass_step (mkPasses ∅ ∅ [] []) prevQuizzes) prevQuizzes.

Definition titlePass (st : Passes) : Titles :=
  foldl titlePass_step (mkTitles ∅ [] (duplicatesRemoved st)) (uniqueQuizzes st).

(** [removeDuplicateQuizzes]: the new list of quizzes, with the list
    [duplicatesRemoved] whose length the notification shows. *)
Definition removeDuplicateQuizzes (prevQuizzes : list InsertQuiz)
    : list InsertQuiz * list InsertQuiz :=
  let st := titlePass (firstPasses prevQuizzes) in
  (finalUniqueQuizzes st, titleDuplicates st).

End Client.

(** ** The client: merging the public quizzes of the server

    [fetchPublicQuizzesFromServer] adds to the local list the quizzes of
    the response that it does not find there already. A quiz of the
    response is taken as the record the client reads from it. *)
Module Merge.

(** [String.prototype.includes]. *)
Fixpoint includes (s sub : string) : bool :=
  String.prefix sub s
  || match s with
     | EmptyString => false
     | String _ s' => includes s' sub
     end.

(** What is collected from the local list before the response is read. *)
Record Locals := mkLocals {
  localUniqueIds : gset string;
  localContentHashes : gmap string InsertQuiz;
  localTitles : gmap string (list InsertQuiz)
}.

(** One iteration of [prevQuizzes.forEach]. *)
Definition collect_step (st : Locals) (quiz : InsertQuiz) : Locals :=
  let titleNormalized := normalize (i_title quiz) in
  mkLocals
    (if truthyS (i_uniqueId quiz)
     then match i_uniqueId quiz with
          | Some u => {[u]} ∪ localUniqueIds st
          | None => localUniqueIds st
          end
     else localUniqueIds st)
    (<[createQuizContentHash quiz := quiz]> (localContentHashes st))
    (<[titleNormalized := (default [] (localTitles st !! titleNormalized) ++ [quiz])%list]>
       (localTitles st)).

Definition collect (prevQuizzes : list InsertQuiz) : Locals :=
  foldl collect_step (mkLocals ∅ ∅ ∅) prevQuizzes.

(** The test on a local and a server question: equal texts, or one text
    contained in the other, lowercased and trimmed. *)
Definition similarText (localQuestion serverQuestion : Question) : bool :=
  let localQuestionText := normalize (question localQuestion) in
  let serverQuestionText := normalize (question serverQuestion) in
  String.eqb localQuestionText serverQuestionText
  || includes localQuestionText serverQuestionText
  || includes serverQuestionText localQuestionText.

(** [matchingQuestions]: the local questions with a similar question in
    the server quiz. *)
Definition matchingQuestions (localQuiz serverQuiz : InsertQuiz) : nat :=
  List.length
    (List.filter (fun localQuestion =>
                    existsb (similarText localQuestion) (i_questions serverQuiz))
       (i_questions localQuiz)).

(** The verdict on one local quiz of the same title: question counts that
    differ by at most one, and [matchingQuestions >= Math.min(...) * 0.7].
    The product is never above seven tenths of the minimum and lies within
    a rounding error of it, so for whole numbers the comparison is
    [7 * min <= 10 * matchingQuestions]. *)
Definition similarQuiz (serverQuiz localQuiz : InsertQuiz) : bool :=
  let n1 := List.length (i_questions localQuiz) in
  let n2 := List.length (i_questions serverQuiz) in
  negb (1 <? (n1 - n2) + (n2 - n1))%nat
  && (7 * Nat.min n1 n2 <=? 10 * matchingQuestions localQuiz serverQuiz)%nat.

(** The callback of [serverQuizzes.filter]. *)
Definition isNew (st : Locals) (serverQuiz : InsertQuiz) : bool :=
  if truthyS (i_uniqueId serverQuiz)
     && match i_uniqueId serverQuiz with
        | Some u => bool_decide (u ∈ localUniqueIds st)
        | None => false
        end
  then false
  else if bool_decide (is_Some (localContentHashes st !! createQuizContentHash serverQuiz))
  then false
  else
    match localTitles st !! normalize (i_title serverQuiz) with
    | Some quizzesWithSameTitle =>
        negb (existsb (similarQuiz serverQuiz) quizzesWithSameTitle)
    | None => true
    end.

(** The callback of [map]: the creation date is read, or set to the time
    of the call when the response has none. *)
Definition received (now : Z) (quiz : InsertQuiz) : InsertQuiz :=
  {| i_uniqueId := i_uniqueId quiz;
     i_title := i_title quiz;
     i_questions := i_questions quiz;
     i_isPublic := i_isPublic quiz;
     i_version := i_version quiz;
     i_createdAt := Some (numOr (i_createdAt quiz) now) |}.

(** The new list of quizzes. *)
Definition mergeServerQuizzes (now : Z) (prevQuizzes serverQuizzes : list InsertQuiz)
    : list InsertQuiz :=
  let st := collect prevQuizzes in
  let newServerQuizzes := map (received now) (List.filter (isNew st) serverQuizzes) in
  if (0 <? List.length newServerQuizzes)%nat
  then (prevQuizzes ++ newServerQuizzes)%list
  else prevQuizzes.

End Merge.

(** ** The client: the quizzes in [localStorage]

    [localStorage] is a map from keys to strings that accepts every write;
    a character of a [string] stands for one code unit of the JS string.
    [saveToLocalStorage] and [loadFromLocalStorage] are taken between the
    two calls of [JSON]: the first receives the text [JSON.stringify]
    produced, the second yields the text it hands to [JSON.parse]. *)
Module LocalStorage.

Notation Storage := (gmap string string).

(** [jsonString.length < 2000000] and [chunkSize]. *)
Definition threshold : N := 2000000.
Definition chunkSize : nat := N.to_nat 1000000.

Definition chunksKey (key : string) : string := key ++ "_chunks".
Definition chunkKey (key : string) (i : nat) : string := key ++ "_chunk_" ++ pretty i.

(** [String.prototype.substring(start, start + length)]. *)
Definition substring (start len : nat) (s : string) : string :=
  String.substring start len s.

(** The loop that removes the chunks of an earlier save: at most [fuel]
    keys, until one is missing or empty. *)
Fixpoint removeChunks (key : string) (i fuel : nat) (ls : Storage) : Storage :=
  match fuel with
  | O => ls
  | S fuel' =>
      if truthyS (ls !! chunkKey key i)
      then removeChunks key (S i) fuel' (delete (chunkKey key i) ls)
      else ls
  end.

(** [Math.ceil(jsonString.length / chunkSize)]. *)
Definition chunkCount (jsonString : string) : nat :=
  ((String.length jsonString + (chunkSize - 1)) / chunkSize)%nat.

(** The loop that stores the chunks. *)
Definition storeChunks (key jsonString : string) (chunks : nat) (ls : Storage) : Storage :=
  foldl (fun ls i => <[chunkKey key i := substring (i * chunkSize) chunkSize jsonString]> ls)
        ls (seq 0 chunks).

(** [saveToLocalStorage], from [jsonString] on. *)
Definition saveJson (key jsonString : string) (ls : Storage) : Storage :=
  if (N.of_nat (String.length jsonString) <? threshold)%N then
    let ls1 := <[key := jsonString]> ls in
    let ls2 := removeChunks key 0 20 ls1 in
    if truthyS (ls2 !! chunksKey key) then delete (chunksKey key) ls2 else ls2
  else
    let chunks := chunkCount jsonString in
    let ls1 := <[chunksKey key := pretty chunks]> ls in
    let ls2 := storeChunks key jsonString chunks ls1 in
    <[key := "__CHUNKED__" ++ pretty chunks]> ls2.

(** The value of a decimal digit. *)
Definition digit (c : ascii) : option N :=
  let n := nat_of_ascii c in
  if (48 <=? n)%nat && (n <=? 57)%nat then Some (N.of_nat (n - 48)) else None.

(** The digits at the head of a string; [None] when there is none. *)
Fixpoint parseDigits (acc : option N) (s : string) : option N :=
  match s with
  | EmptyString => acc
  | String c s' =>
      match digit c with
      | Some d => parseDigits (Some (10 * default 0%N acc + d)%N) s'
      | None => acc
      end
  end.

(** [parseInt(s, 10)]; [None] stands for [NaN]. *)
Definition parseInt (s : string) : option Z :=
  match trimStart s with
  | String "-" s' => (fun n => - Z.of_N n) <$> parseDigits None s'
  | String "+" s' => Z.of_N <$> parseDigits None s'
  | s' => Z.of_N <$> parseDigits None s'
  end.

(** The loop that reads the chunks back: [None] when one is missing or
    empty (the [throw]). *)
Fixpoint readChunks (key : string) (ls : Storage) (i count : nat) (jsonString : string)
    : option string :=
  match count with
  | O => Some jsonString
  | S count' =>
      match ls !! chunkKey key i with
      | Some chunk =>
          if truthyS (Some chunk)
          then readChunks key ls (S i) count' (jsonString ++ chunk)
          else None
      | None => None
      end
  end.

(** [loadFromLocalStorage], up to [JSON.parse]: the text that is parsed,
    or [None] when [defaultValue] is returned without parsing. With a
    chunk count that is not a number the loop does not run and the empty
    text is parsed. *)
Definition loadJson (key : string) (ls : Storage) : option string :=
  match ls !! key with
  | None => None
  | Some value =>
      if String.prefix "__CHUNKED__" value then
        let stored := ls !! chunksKey key in
        match parseInt (if truthyS stored then default "0" stored else "0") with
        | Some chunks =>
            if (chunks <=? 0)%Z then None
            else readChunks key ls 0 (Z.to_nat chunks) EmptyString
        | None => Some EmptyString
        end
      else Some value
  end.

End LocalStorage.

(** ** The client: playing a quiz and selecting quizzes

    [startQuiz], [handleAnswer] and [finishQuiz] of [Quiz.tsx], for the
    answers, the score and the question results; and the two selections of
    quizzes, which change through their toggles only. *)
Module Play.

(** [selectedAnswers[index]]; [None] is [undefined], past the end of the
    array or in a hole of it. *)
Definition answerAt (selectedAnswers : list (option string)) (index : nat) : option string :=
  match selectedAnswers !! index with
  | Some a => a
  | None => None
  end.

(** [new Array(quiz.questions.length).fill('')] of [startQuiz]. *)
Definition startAnswers (questions : list Question) : list (option string) :=
  replicate (List.length questions) (Some EmptyString).

(** [handleAnswer]: a copy with [selectedOption] at the current index; an
    index past the end extends the array and leaves holes. *)
Definition handleAnswer (currentQuestionIndex : nat) (selectedOption : string)
    (prev : list (option string)) : list (option string) :=
  if decide (currentQuestionIndex < List.length prev)%nat
  then <[currentQuestionIndex := Some selectedOption]> prev
  else (prev ++ replicate (currentQuestionIndex - List.length prev) None
             ++ [Some selectedOption])%list.

(** [Array.prototype.reduce] and [Array.prototype.map] with the index of
    the element, from [index] on. *)
Fixpoint reduceFrom {A B} (f : B -> A -> nat -> B) (acc : B) (index : nat) (l : list A) : B :=
  match l with
  | [] => acc
  | x :: l' => reduceFrom f (f acc x index) (S index) l'
  end.

Fixpoint mapFrom {A B} (f : A -> nat -> B) (index : nat) (l : list A) : list B :=
  match l with
  | [] => []
  | x :: l' => f x index :: mapFrom f (S index) l'
  end.

(** [newScore] of [finishQuiz]. *)
Definition newScore (questions : list Question) (selectedAnswers : list (option string)) : Z :=
  reduceFrom
    (fun acc question index =>
       acc + (if bool_decide (answerAt selectedAnswers index = Some (correctAnswer question))
              then 1 else 0))
    0 0%nat questions.

Record QuestionResult := mkQuestionResult {
  r_question : string;
  userAnswer : string;
  r_correctAnswer : string;
  isCorrect : bool
}.

(** [questionResults] of [finishQuiz]; [selectedAnswers[index] || ''] is
    the answer when it is defined and not empty. *)
Definition questionResults (questions : list Question)
    (selectedAnswers : list (option string)) : list QuestionResult :=
  mapFrom
    (fun question' index =>
       let userAnswer :=
         if truthyS (answerAt selectedAnswers index)
         then default EmptyString (answerAt selectedAnswers index)
         else EmptyString in
       {| r_question := question question';
          userAnswer := userAnswer;
          r_correctAnswer := correctAnswer question';
          isCorrect := bool_decide (userAnswer = correctAnswer question') |})
    0%nat questions.

(** [toggleQuizSelection] and [toggleQuizMergeSelection], the same body
    on [selectedQuizzes] and on [quizzesToMerge]. *)
Definition toggleQuizSelection (index : nat) (prev : list nat) : list nat :=
  if bool_decide (index ∈ prev)
  then filter (fun i => i <> index) prev
  else (prev ++ [index])%list.

Definition toggleQuizMergeSelection (index : nat) (prev : list nat) : list nat :=
  if bool_decide (index ∈ prev)
  then filter (fun i => i <> index) prev
  else (prev ++ [index])%list.

End Play.

(** ** Vocabulary of the statements *)

(** Both versions are set, not zero, and [second]'s is the greater. *)
Definition newerVersion (first second : Quiz) : Prop :=
  exists v1 v2, version first = Some v1 /\ version second = Some v2 /\
    v1 <> 0 /\ v2 <> 0 /\ v1 < v2.

(** Both creation dates are set and [second]'s is the later. *)
Definition laterDate (first second : Quiz) : Prop :=
  exists c1 c2, createdAt first = Some c1 /\ createdAt second = Some c2 /\ c1 < c2.

(** [a] displaces [b] when it comes second and is not displaced by it when
    it comes first. *)
Definition dominates (a b : Quiz) : Prop :=
  keepNew a b = true /\ keepNew b a = false.

(** The winner of a class folded in the order of the list. *)
Definition winnerOf (class : list Quiz) : option Quiz :=
  match class with
  | [] => None
  | first :: rest => Some (precedence_fold first rest)
  end.

(** The verdict of the title pass on a pair it compares. *)
Definition judgedDuplicate (quiz1 quiz2 : Quiz) : bool :=
  negb (lengthsFarApart quiz1 quiz2) && reachesThreshold quiz1 quiz2.

(** [q'] is [q] with its options in another order. *)
Definition sameUpToOptionOrder (q q' : Question) : Prop :=
  question q = question q' /\ correctAnswer q = correctAnswer q'
  /\ Permutation (options q) (options q').

(** The record [createQuiz] stores under [newId] for a quiz that carries a
    [uniqueId]. *)
Definition inserted (now : Z) (newId : Z) (quizToSync : InsertQuiz) : Quiz :=
  {| id := newId;
     uniqueId := i_uniqueId quizToSync;
     title := i_title quizToSync;
     questions := i_questions quizToSync;
     isPublic := i_isPublic quizToSync;
     version := if truthyZ (i_version quizToSync) then i_version quizToSync else Some 1;
     createdAt := Some (numOr (i_createdAt quizToSync) now) |}.


(** The ids of two records of the collection stored under [u] are equal:
    at most one key of the map holds [u]. *)
Definition atMostOneHolder (u : option string) (collection : list Quiz) : Prop :=
  forall a b, a ∈ collection -> b ∈ collection ->
    uniqueId a = u -> uniqueId b = u -> id a = id b.

(** The keys of the map are distinct and at most one of them holds [u]. *)
Definition storeInv (u : option string) (st : FileStorage) : Prop :=
  NoDup (id <$> quizCollection st) /\ atMostOneHolder u (quizCollection st).

(** ** Invariants of the duplicate passes *)

(** The duplicates are the quizzes of the collection that are not kept. *)
Definition dupsAreDropped (allQuizzes : list Quiz) (d : DedupState) : Prop :=
  forall k, k ∈ id <$> duplicatesToRemove d <->
            k ∈ id <$> allQuizzes /\ k ∉ quizzesToKeep d.

(** What the first pass maintains once the quizzes [processed] have been
    visited: the map holds, for each hash, the one kept quiz with that
    hash; the duplicates are the visited quizzes that are not kept. *)
Definition contentPassInv (processed : list Quiz)
    (st : gmap string Quiz * DedupState) : Prop :=
  (forall h q, st.1 !! h = Some q ->
      q ∈ processed /\ createContentHash q = h /\ id q ∈ quizzesToKeep st.2)
  /\ (forall q, q ∈ processed -> id q ∈ quizzesToKeep st.2 ->
        st.1 !! createContentHash q = Some q)
  /\ (forall k, k ∈ quizzesToKeep st.2 -> k ∈ id <$> processed)
  /\ (forall k, k ∈ id <$> duplicatesToRemove st.2 <->
                k ∈ id <$> processed /\ k ∉ quizzesToKeep st.2).

(** What the second pass maintains: the map holds, for each identifier,
    the one kept quiz among the visited ones that carries it. *)
Definition uniqueIdPassInv (allQuizzes processed : list Quiz) (keep1 : gset Z)
    (st : gmap string Quiz * DedupState) : Prop :=
  (forall u q, st.1 !! u = Some q ->
      q ∈ processed /\ uniqueId q = Some u /\ id q ∈ quizzesToKeep st.2)
  /\ (forall q u, q ∈ processed -> id q ∈ quizzesToKeep st.2 ->
        truthyS (uniqueId q) = true -> uniqueId q = Some u ->
        st.1 !! u = Some q)
  /\ quizzesToKeep st.2 ⊆ keep1
  /\ (forall k, k ∈ id <$> duplicatesToRemove st.2 <->
                k ∈ id <$> allQuizzes /\ k ∉ quizzesToKeep st.2).

(** What building [titleMap] maintains: one entry per title, holding the
    kept quizzes visited so far that have this title, in their order. *)
Definition titleMapInv (keep : gset Z) (processed : list Quiz)
    (titleMap : list (string * list Quiz)) : Prop :=
  NoDup titleMap.*1
  /\ (forall t g, (t, g) ∈ titleMap ->
        g = filter (fun q => normalize (title q) = t)
              (filter (fun q => id q ∈ keep) processed))
  /\ (forall q, q ∈ processed -> id q ∈ keep -> normalize (title q) ∈ titleMap.*1).

(** What every pass maintains of its bookkeeping: each duplicate is a quiz
    of the collection, listed once and not kept; and a quiz is kept as
    soon as the collection is not empty. *)
Definition passAccounts (allQuizzes : list Quiz) (d : DedupState) : Prop :=
  NoDup (id <$> duplicatesToRemove d)
  /\ (forall q, q ∈ duplicatesToRemove d ->
        q ∈ allQuizzes /\ id q ∉ quizzesToKeep d)
  /\ (allQuizzes <> [] -> exists q, q ∈ allQuizzes /\ id q ∈ quizzesToKeep d).

(** ** Invariants of the client's passes *)

(** The quiz has a [uniqueId] ([if (quiz.uniqueId)]). *)
Definition identified (quiz : InsertQuiz) : Prop := truthyS (i_uniqueId quiz) = true.

(** What the client's first pass maintains once the quizzes [processed]
    have been visited: the map holds, for each identifier, the one quiz of
    [uniqueQuizzes] that carries it; [uniqueQuizzes] and [duplicatesRemoved]
    together are the visited quizzes that have an identifier. *)
Definition clientIdPassInv (processed : list InsertQuiz) (st : Client.Passes) : Prop :=
  (forall u q, Client.uniqueIdMap st !! u = Some q ->
      q ∈ Client.uniqueQuizzes st /\ i_uniqueId q = Some u)
  /\ (forall q, q ∈ Client.uniqueQuizzes st ->
        identified q
        /\ forall u, i_uniqueId q = Some u -> Client.uniqueIdMap st !! u = Some q)
  /\ NoDup (i_uniqueId <$> Client.uniqueQuizzes st)
  /\ (Client.uniqueQuizzes st ++ Client.duplicatesRemoved st)%list
     ≡ₚ filter identified processed.

(** The third pass run from the same titles and list with another list of
    duplicates. *)
Definition withDuplicates (dups : list InsertQuiz) (st : Client.Titles) : Client.Titles :=
  Client.mkTitles (Client.processedTitles st) (Client.finalUniqueQuizzes st) dups.

(** What the client's second pass maintains, after a first pass that left
    [identifiedQuizzes] and [dups1]: it appends quizzes without identifier,
    no two of them with the same fingerprint, and the map holds exactly
    their fingerprints. *)
Definition clientContentPassInv (identifiedQuizzes dups1 processed : list InsertQuiz)
    (st : Client.Passes) : Prop :=
  exists others,
    Client.uniqueQuizzes st = (identifiedQuizzes ++ others)%list
    /\ Forall (fun q => ~ identified q) others
    /\ NoDup (createQuizContentHash <$> others)
    /\ (forall h, is_Some (Client.contentHashMap st !! h)
                  <-> h ∈ createQuizContentHash <$> others)
    /\ (others ++ Client.duplicatesRemoved st)%list
       ≡ₚ (dups1 ++ filter (fun q => ~ identified q) processed)%list.

(** The verdict of the merge on a quiz of the response, read off the local
    list: no local quiz carries its identifier, none has its fingerprint,
    and none with its title is similar to it. *)
Definition isNewFor (prevQuizzes : list InsertQuiz) (serverQuiz : InsertQuiz) : bool :=
  negb (truthyS (i_uniqueId serverQuiz)
        && bool_decide (i_uniqueId serverQuiz ∈ i_uniqueId <$> filter identified prevQuizzes))
  && negb (bool_decide (createQuizContentHash serverQuiz
                        ∈ createQuizContentHash <$> prevQuizzes))
  && negb (existsb (Merge.similarQuiz serverQuiz)
             (filter (fun q => normalize (i_title q) = normalize (i_title serverQuiz))
                prevQuizzes)).

(** ** Example records *)

(** A supply of identifiers and a clock reading for the examples. *)
Definition exampleUuid (n : nat) : string := "uuid-" ++ pretty n.
Definition exampleNow : Z := 1000.

(** Scenario A: one public quiz, version 1, no identifier yet. *)
Definition capitals : InsertQuiz :=
  mkInsertQuiz None "Capitals"
    [mkQuestion "Capital of France?" ["Paris"; "Lyon"] "Paris"] true (Some 1) (Some 100).

Definition stale_edition : InsertQuiz :=
  mkInsertQuiz (Some "id-a") "Capitals, first edition" [] true (Some 1) (Some 100).

(** A shared store with a published quiz, and that quiz submitted again
    after its owner made it private. *)
Definition stored_capitals : Quiz :=
  mkQuiz 1 (Some "id-a") "Capitals" [] true (Some 1) (Some 100).
Definition storage_with_capitals : FileStorage := mkStorage [stored_capitals] 2 0.
Definition capitals_now_private : InsertQuiz :=
  mkInsertQuiz (Some "id-a") "Capitals" [] false (Some 2) (Some 100).

(** Two records of one quiz: the edited one has the greater version, the
    other one the later creation date. *)
Definition quiz_v2_early : Quiz :=
  mkQuiz 1 None "Capitals" [] true (Some 2) (Some 100).
Definition quiz_v1_late : Quiz :=
  mkQuiz 2 None "Capitals" [] true (Some 1) (Some 200).

(** Two records that tie, and a record that dominates every other one. *)
Definition quiz_v1a : Quiz :=
  mkQuiz 3 None "Capitals" [] true (Some 1) (Some 100).
Definition quiz_v1b : Quiz :=
  mkQuiz 5 None "Capitals" [] true (Some 1) (Some 100).
Definition quiz_v3 : Quiz :=
  mkQuiz 4 None "Capitals" [] true (Some 3) (Some 300).

(** Two records with one title and one question text, different options,
    the same version and the same creation date. *)
Definition quiz_tie_first : Quiz :=
  mkQuiz 6 None "Capitals"
    [mkQuestion "Capital of France?" ["Paris"; "Lyon"] "Paris"] true (Some 1) (Some 100).
Definition quiz_tie_second : Quiz :=
  mkQuiz 7 None "Capitals"
    [mkQuestion "Capital of France?" ["Paris"; "Nice"] "Paris"] true (Some 1) (Some 100).

(** A quiz that asks the same question twice with different answers, and
    the same quiz with its two questions exchanged. *)
Definition question_first : Question := mkQuestion "Pick one" ["a"; "b"] "a".
Definition question_second : Question := mkQuestion "Pick one" ["c"; "d"] "d".
Definition quiz_twice : Quiz :=
  mkQuiz 1 None "Choices" [question_first; question_second] true (Some 1) (Some 100).
Definition quiz_twice_permuted : Quiz :=
  mkQuiz 1 None "Choices" [question_second; question_first] true (Some 1) (Some 100).


(** Two published quizzes with the same content, options in another order,
    under two identifiers. *)
Definition quiz_shared_a : Quiz :=
  mkQuiz 1 (Some "id-a") "Capitals"
    [mkQuestion "Capital of France?" ["Paris"; "Lyon"] "Paris"] true (Some 1) (Some 100).
Definition quiz_shared_b : Quiz :=
  mkQuiz 2 (Some "id-b") "Capitals"
    [mkQuestion "Capital of France?" ["Lyon"; "Paris"] "Paris"] true (Some 1) (Some 100).

(** A store with two editions of one published quiz and another quiz. *)
Definition quiz_edition_1 : Quiz :=
  mkQuiz 1 (Some "id-a") "Capitals"
    [mkQuestion "Capital of France?" ["Paris"; "Lyon"] "Paris"] true (Some 1) (Some 100).
Definition quiz_edition_2 : Quiz :=
  mkQuiz 2 (Some "id-a") "Capitals of Europe"
    [mkQuestion "Capital of France?" ["Paris"; "Lyon"] "Paris";
     mkQuestion "Capital of Italy?" ["Rome"; "Milan"] "Rome"] true (Some 2) (Some 200).
Definition quiz_other : Quiz :=
  mkQuiz 3 None "Rivers"
    [mkQuestion "Longest river?" ["Nile"; "Amazon"] "Nile"] true (Some 1) (Some 100).

(** A store with a published quiz and a private one. *)
Definition stored_draft : Quiz :=
  mkQuiz 2 (Some "id-b") "Draft" [] false (Some 1) (Some 100).
Definition storage_with_draft : FileStorage :=
  mkStorage [stored_capitals; stored_draft] 3 0.


(** * Properties *)

(** ** The precedence rule *)

Lemma keepNew_spec quiz existingQuiz :
  keepNew quiz existingQuiz = true <->
  newerVersion existingQuiz quiz \/ laterDate existingQuiz quiz.
Proof.
  unfold keepNew, newerVersion, laterDate, truthyZ, numOr.
  rewrite orb_true_iff, !andb_true_iff, !bool_decide_eq_true, !Z.gtb_lt.
  split.
  - intros [[[Hq He] Hlt] | [[Hq He] Hlt]].
    + left. destruct (version quiz) as [v2|], (version existingQuiz) as [v1|];
        simpl in *; try discriminate.
      exists v1, v2. apply negb_true_iff, Z.eqb_neq in Hq, He. auto.
    + right. destruct Hq as [c2 Hc2], He as [c1 Hc1]. rewrite Hc1, Hc2 in *.
      simpl in Hlt. eauto.
  - intros [(v1 & v2 & -> & -> & H1 & H2 & Hlt) | (c1 & c2 & -> & -> & Hlt)]; simpl.
    + left. repeat split; try apply negb_true_iff, Z.eqb_neq; auto.
    + right. repeat split; eauto.
Qed.

Lemma keepQuiz1_spec quiz1 quiz2 :
  keepQuiz1 quiz1 quiz2 = true <->
  numOr (version quiz2) 0 < numOr (version quiz1) 0 \/ laterDate quiz2 quiz1.
Proof.
  unfold keepQuiz1, laterDate, numOr.
  rewrite orb_true_iff, !andb_true_iff, !bool_decide_eq_true, !Z.gtb_lt.
  split.
  - intros [Hlt | [[[c1 H1] [c2 H2]] Hlt]]; [by left | right].
    rewrite H1, H2 in *. simpl in Hlt. eauto.
  - intros [Hlt | (c2 & c1 & -> & -> & Hlt)]; [by left | right]. eauto.
Qed.

Lemma precedence_cases first second :
  (keepNew second first = true /\ precedence first second = second)
  \/ (keepNew second first = false /\ precedence first second = first).
Proof. unfold precedence. destruct (keepNew second first); auto. Qed.

(** The rule as the code has it. Met in the order [first], [second] by the
    content or the identifier pass, [second] displaces [first] exactly when
    both versions are set and its version is strictly greater, or both
    creation dates are set and its date is strictly later, whatever the
    versions say; in every other case the first one met is retained. In the
    title pass of a pair judged duplicate, [quiz1] stays when its version
    (0 when missing) is strictly greater or its date strictly later, and
    the later one, [quiz2], stays otherwise. *)
Theorem precedence_version_or_date :
  (forall first second,
      (newerVersion first second \/ laterDate first second ->
       precedence first second = second)
      /\ (~ (newerVersion first second \/ laterDate first second) ->
          precedence first second = first))
  /\ (forall quiz1 quiz2 d,
        id quiz2 ∈ quizzesToKeep d ->
        lengthsFarApart quiz1 quiz2 = false ->
        reachesThreshold quiz1 quiz2 = true ->
        (numOr (version quiz2) 0 < numOr (version quiz1) 0 \/ laterDate quiz2 quiz1 ->
         compareWithLater quiz1 [quiz2] d = dropQuiz quiz2 d)
        /\ (~ (numOr (version quiz2) 0 < numOr (version quiz1) 0 \/ laterDate quiz2 quiz1) ->
            compareWithLater quiz1 [quiz2] d = dropQuiz quiz1 d)).
Proof.
  split.
  - intros first second. rewrite <- keepNew_spec. unfold precedence.
    destruct (keepNew second first); split; intros H; congruence.
  - intros quiz1 quiz2 d Hk Hfar Hthr. rewrite <- keepQuiz1_spec. simpl.
    rewrite bool_decide_eq_true_2 by done. simpl. rewrite Hfar, Hthr.
    destruct (keepQuiz1 quiz1 quiz2); split; intros H; congruence.
Qed.

Lemma precedence_version_or_date_witness :
  precedence quiz_v2_early quiz_v1_late = quiz_v1_late
  /\ compareWithLater quiz_v2_early [quiz_v1_late] (mkDedup {[1; 2]} [])
     = dropQuiz quiz_v1_late (mkDedup {[1; 2]} []).
Proof.
  split.
  - apply (proj1 precedence_version_or_date quiz_v2_early quiz_v1_late).
    right. exists 100, 200. repeat split.
  - apply (proj2 precedence_version_or_date quiz_v2_early quiz_v1_late
             (mkDedup {[1; 2]} [])).
    + vm_compute. reflexivity.
    + reflexivity.
    + reflexivity.
    + left. vm_compute. reflexivity.
Defined.

(** C6 fails on the code. Both records have a version and the first one
    met has the strictly greater one; the date test of [keepNew] runs all
    the same, and the rule retains the record of version 1, whose creation
    date is later. In the title pass two records that tie keep the later
    one met, not the first. *)
Theorem precedence_lower_version_wins :
  version quiz_v2_early = Some 2 /\ version quiz_v1_late = Some 1
  /\ keepNew quiz_v1_late quiz_v2_early = true
  /\ precedence quiz_v2_early quiz_v1_late = quiz_v1_late
  /\ keepQuiz1 quiz_tie_first quiz_tie_second = false
  /\ removeDuplicateQuizzes [quiz_tie_first; quiz_tie_second]
     = mkResult [quiz_tie_second] [quiz_tie_first] 1.
Proof. repeat split. Qed.

Lemma precedence_fold_dominant w :
  forall rest first,
    (first = w \/ dominates w first) ->
    (forall x, x ∈ rest -> x = w \/ dominates w x) ->
    (first = w \/ w ∈ rest) ->
    precedence_fold first rest = w.
Proof.
  unfold precedence_fold.
  induction rest as [|x rest IH]; intros first Hfirst Hrest Hin; simpl.
  - destruct Hin as [Hin | Hin]; [done | by apply elem_of_nil in Hin].
  - assert (Hx : x = w \/ dominates w x) by (apply Hrest; left).
    assert (Hrest' : forall y, y ∈ rest -> y = w \/ dominates w y)
      by (intros y Hy; apply Hrest; by right).
    destruct Hfirst as [-> | [Hwf Hfw]].
    + (* the winner is the current survivor: nothing displaces it *)
      assert (Hkeep : precedence w x = w).
      { unfold precedence. destruct Hx as [-> | [_ Hxw]].
        - by destruct (keepNew w w).
        - by rewrite Hxw. }
      rewrite Hkeep. apply IH; auto.
    + destruct Hin as [-> | Hin]; [by rewrite Hwf in Hfw |].
      apply elem_of_cons in Hin as [-> | Hin].
      * (* the winner arrives and displaces the survivor *)
        unfold precedence at 2. rewrite Hwf. apply IH; auto.
      * destruct (precedence_cases first x) as [[_ ->] | [_ ->]].
        -- apply IH; auto.
        -- apply IH; auto. right. by split.
Qed.

(** C7, as the code has it. The rule is a function of the pair in its
    order. When one record dominates the other (it displaces the other when
    met second and is not displaced when met first) both orders pick it;
    a strictly greater version with a creation date that is not earlier is
    such a case. Folding the rule over a class one of whose members
    dominates every other member ends on that member in every order. When
    two records tie (neither displaces the other) each order retains the
    one it meets first. *)
Theorem precedence_order_independent_when_dominated :
  (forall a b, dominates a b -> precedence a b = a /\ precedence b a = a)
  /\ (forall a b va vb,
        version a = Some va -> version b = Some vb -> vb <> 0 -> vb < va ->
        va <> 0 ->
        (forall ca cb, createdAt a = Some ca -> createdAt b = Some cb -> cb <= ca) ->
        dominates a b)
  /\ (forall w class class',
        Permutation class class' ->
        w ∈ class ->
        (forall x, x ∈ class -> x = w \/ dominates w x) ->
        winnerOf class = Some w /\ winnerOf class' = Some w)
  /\ (forall a b,
        keepNew a b = false -> keepNew b a = false ->
        precedence a b = a /\ precedence b a = b).
Proof.
  split; [| split; [| split]].
  - intros a b [Hab Hba]. unfold precedence. by rewrite Hab, Hba.
  - intros a b va vb Ha Hb Hvb Hlt Hva Hdate. split.
    + apply keepNew_spec. left. exists vb, va. auto.
    + apply not_true_is_false. rewrite keepNew_spec.
      intros [(v1 & v2 & H1 & H2 & _ & _ & Hlt') | (c1 & c2 & H1 & H2 & Hlt')].
      * rewrite Ha in H1. rewrite Hb in H2. simplify_eq. lia.
      * specialize (Hdate c1 c2 H1 H2). lia.
  - assert (Hone : forall w class, w ∈ class ->
              (forall x, x ∈ class -> x = w \/ dominates w x) ->
              winnerOf class = Some w).
    { intros w [|first rest] Hin Hdom; [by apply elem_of_nil in Hin |].
      simpl. f_equal. apply precedence_fold_dominant.
      - apply Hdom. left.
      - intros x Hx. apply Hdom. by right.
      - apply elem_of_cons in Hin as [-> | Hin]; auto. }
    intros w class class' Hperm Hin Hdom. split; [by apply Hone |].
    apply Hone.
    + by rewrite <- Hperm.
    + intros x Hx. apply Hdom. by rewrite Hperm.
  - intros a b Hab Hba. unfold precedence. by rewrite Hab, Hba.
Qed.

Lemma precedence_order_independent_when_dominated_witness :
  winnerOf [quiz_v1a; quiz_v3; quiz_v2_early] = Some quiz_v3
  /\ winnerOf [quiz_v3; quiz_v2_early; quiz_v1a] = Some quiz_v3.
Proof.
  assert (Hdom : forall x, x ∈ [quiz_v1a; quiz_v3; quiz_v2_early] ->
                   x = quiz_v3 \/ dominates quiz_v3 x).
  { intros x Hx. apply elem_of_cons in Hx as [-> | Hx]; [right; by split |].
    apply elem_of_cons in Hx as [-> | Hx]; [by left |].
    apply elem_of_cons in Hx as [-> | Hx]; [right; by split |].
    by apply elem_of_nil in Hx. }
  apply (proj1 (proj2 (proj2 precedence_order_independent_when_dominated)) quiz_v3
           [quiz_v1a; quiz_v3; quiz_v2_early]
           [quiz_v3; quiz_v2_early; quiz_v1a]).
  - change [quiz_v1a; quiz_v3; quiz_v2_early] with ([quiz_v1a] ++ [quiz_v3; quiz_v2_early])%list.
    apply Permutation_app_comm.
  - apply elem_of_cons. right. apply elem_of_cons. by left.
  - exact Hdom.
Defined.

(** C7 does not hold as stated: two records with the same version and the
    same creation date tie, and the winner is the first argument in each
    order. *)
Lemma precedence_tie_keeps_first_met :
  quiz_v1a <> quiz_v1b
  /\ precedence quiz_v1a quiz_v1b = quiz_v1a
  /\ precedence quiz_v1b quiz_v1a = quiz_v1b
  /\ precedence quiz_v1a quiz_v1b <> precedence quiz_v1b quiz_v1a.
Proof. repeat split; discriminate. Qed.

(** ** The fingerprint *)

(** C5 fails on the code. The questions are sorted by their text alone and
    the sort is stable, so two questions with the same text and different
    answers stay in the order of the input: for every comparator that
    finds a string equal to itself, the quiz and the quiz with its two
    questions exchanged have different fingerprints. *)
Theorem fingerprint_depends_on_question_order :
  forall cmp : string -> string -> comparison,
    (forall s, cmp s s = Eq) ->
    Permutation (questions quiz_twice) (questions quiz_twice_permuted)
    /\ createContentHashWith cmp (title quiz_twice) (questions quiz_twice)
       <> createContentHashWith cmp (title quiz_twice_permuted)
            (questions quiz_twice_permuted).
Proof.
  intros cmp Hrefl. split; [apply perm_swap |].
  unfold createContentHashWith. cbn [questions quiz_twice quiz_twice_permuted map].
  cbn [sort insert_sorted].
  replace (qd_question (questionData question_first)) with "pick one" by reflexivity.
  replace (qd_question (questionData question_second)) with "pick one" by reflexivity.
  rewrite Hrefl. vm_compute. discriminate.
Qed.

Lemma fingerprint_depends_on_question_order_witness :
  Permutation (questions quiz_twice) (questions quiz_twice_permuted)
  /\ createContentHash quiz_twice <> createContentHash quiz_twice_permuted.
Proof.
  apply (fingerprint_depends_on_question_order localeCompare).
  intros s. unfold localeCompare.
  pose proof (String.compare_antisym s s) as H.
  destruct (String.compare s s); simpl in H; congruence.
Defined.

(** *** Sorting a permutation *)

Section SortFacts.
Context {A : Type} (le : A -> A -> bool).
Hypothesis le_total : forall x y, le x y = true \/ le y x = true.
Hypothesis le_trans : forall x y z, le x y = true -> le y z = true -> le x z = true.

Lemma insert_sorted_Permutation x l : Permutation (insert_sorted le x l) (x :: l).
Proof.
  induction l as [|y l IH]; simpl; [done |].
  destruct (le x y); [done |].
  rewrite IH. apply perm_swap.
Qed.

Lemma sort_Permutation l : Permutation (sort le l) l.
Proof.
  induction l as [|x l IH]; simpl; [done |].
  by rewrite insert_sorted_Permutation, IH.
Qed.

Lemma insert_sorted_StronglySorted x l :
  StronglySorted (fun a b => le a b = true) l ->
  StronglySorted (fun a b => le a b = true) (insert_sorted le x l).
Proof.
  induction 1 as [|y l Hl IH Hy]; simpl; [repeat constructor |].
  destruct (le x y) eqn:Hxy.
  - constructor; [by constructor |]. constructor; [done |].
    eapply List.Forall_impl; [| exact Hy]. intros z Hz. by eapply le_trans.
  - constructor; [done |].
    assert (Hyx : le y x = true) by (destruct (le_total x y); congruence).
    rewrite insert_sorted_Permutation. by constructor.
Qed.

Lemma sort_StronglySorted l : StronglySorted (fun a b => le a b = true) (sort le l).
Proof.
  induction l as [|x l IH]; simpl; [constructor |].
  by apply insert_sorted_StronglySorted.
Qed.

Lemma StronglySorted_Permutation_eq l1 :
  forall l2,
    StronglySorted (fun a b => le a b = true) l1 ->
    StronglySorted (fun a b => le a b = true) l2 ->
    Permutation l1 l2 ->
    (forall x y, x ∈ l1 -> y ∈ l1 -> le x y = true -> le y x = true -> x = y) ->
    l1 = l2.
Proof.
  induction l1 as [|a l1 IH]; intros l2 H1 H2 Hperm Hanti.
  - by apply Permutation_nil in Hperm.
  - destruct l2 as [|b l2]; [by apply Permutation_sym, Permutation_nil in Hperm |].
    apply StronglySorted_inv in H1 as [H1 Ha]. apply StronglySorted_inv in H2 as [H2 Hb].
    rewrite List.Forall_forall in Ha, Hb.
    assert (Hbin : b ∈ a :: l1) by (rewrite Hperm; by left).
    assert (Hain : a ∈ b :: l2) by (rewrite <- Hperm; by left).
    assert (a = b) as ->.
    { apply elem_of_cons in Hbin as [-> | Hbin]; [done |].
      apply elem_of_cons in Hain as [-> | Hain]; [done |].
      apply Hanti; [by left | by right | |].
      - apply Ha. by apply list_elem_of_In.
      - apply Hb. by apply list_elem_of_In. }
    f_equal. apply IH; [done | done | by apply Permutation_cons_inv in Hperm |].
    intros x y Hx Hy. apply Hanti; by right.
Qed.

Lemma sort_Permutation_eq l l' :
  Permutation l l' ->
  (forall x y, x ∈ l -> y ∈ l -> le x y = true -> le y x = true -> x = y) ->
  sort le l = sort le l'.
Proof.
  intros Hperm Hanti. apply StronglySorted_Permutation_eq.
  - apply sort_StronglySorted.
  - apply sort_StronglySorted.
  - by rewrite !sort_Permutation.
  - intros x y Hx Hy. rewrite sort_Permutation in Hx, Hy. by apply Hanti.
Qed.
End SortFacts.

Lemma string_leb_spec a b :
  String.leb a b = true <-> a = b \/ OrderedTypeEx.String_as_OT.lt a b.
Proof.
  unfold String.leb.
  pose proof (OrderedTypeEx.String_as_OT.cmp_eq a b) as Heq.
  pose proof (OrderedTypeEx.String_as_OT.cmp_lt a b) as Hlt.
  unfold OrderedTypeEx.String_as_OT.cmp in *.
  destruct (String.compare a b); split; intros H; try done.
  - left. by apply Heq.
  - right. by apply Hlt.
  - destruct H as [H | H]; [by apply Heq in H | by apply Hlt in H].
Qed.

Lemma string_leb_trans a b c :
  String.leb a b = true -> String.leb b c = true -> String.leb a c = true.
Proof.
  rewrite !string_leb_spec. intros [-> | Hab] [-> | Hbc]; auto.
  right. by eapply OrderedTypeEx.String_as_OT.lt_trans.
Qed.

(** *** The fingerprint on permuted input *)

Lemma questionData_option_order q q' :
  sameUpToOptionOrder q q' -> questionData q = questionData q'.
Proof.
  intros (Hq & Hc & Ho). unfold questionData. rewrite Hq, Hc. f_equal. f_equal.
  apply sort_Permutation_eq.
  - apply String.leb_total.
  - apply string_leb_trans.
  - by apply Permutation_map.
  - intros x y _ _. apply String.leb_antisym.
Qed.

(** What holds of C5 on the code: the order of the options never matters,
    and the order of the questions does not matter when no two questions
    have the same normalised text. *)
Lemma fingerprint_order_independent_on_distinct_texts quizTitle qs qs1 qs2 :
  Forall2 sameUpToOptionOrder qs qs1 ->
  Permutation qs1 qs2 ->
  NoDup (map (fun q => normalize (question q)) qs) ->
  createContentHashWith localeCompare quizTitle qs
  = createContentHashWith localeCompare quizTitle qs2.
Proof.
  intros Hopt Hperm Hnd.
  assert (Hdata : map questionData qs = map questionData qs1).
  { clear Hnd Hperm. induction Hopt as [|q q' l l' Hq _ IH]; [done |]. cbn [map].
    by rewrite (questionData_option_order _ _ Hq), IH. }
  assert (Hsort :
    sort (fun a b => match localeCompare (qd_question a) (qd_question b) with
                     | Gt => false
                     | _ => true
                     end) (map questionData qs)
    = sort (fun a b => match localeCompare (qd_question a) (qd_question b) with
                       | Gt => false
                       | _ => true
                       end) (map questionData qs2)).
  { apply sort_Permutation_eq.
    - intros x y. apply (String.leb_total (qd_question x) (qd_question y)).
    - intros x y z. apply (string_leb_trans (qd_question x) (qd_question y) (qd_question z)).
    - rewrite Hdata. by apply Permutation_map.
    - intros x y Hx Hy Hxy Hyx.
      pose proof (String.leb_antisym (qd_question x) (qd_question y) Hxy Hyx) as Hkey.
      assert (Hkeys : NoDup (map qd_question (map questionData qs)))
        by (by rewrite map_map).
      clear -Hx Hy Hkey Hkeys. revert Hx Hy Hkeys.
      generalize (map questionData qs). intros l Hx Hy Hkeys.
      induction l as [|d l IH]; [by apply elem_of_nil in Hx |].
      cbn [map] in Hkeys. apply NoDup_cons in Hkeys as [Hd Hkeys].
      apply elem_of_cons in Hx as [-> | Hx]; apply elem_of_cons in Hy as [-> | Hy].
      + done.
      + exfalso. apply Hd. rewrite Hkey. apply list_elem_of_In, in_map.
        by apply list_elem_of_In.
      + exfalso. apply Hd. rewrite <- Hkey. apply list_elem_of_In, in_map.
        by apply list_elem_of_In.
      + by apply IH. }
  unfold createContentHashWith. by rewrite Hsort.
Qed.


(** ** Deduplication of two quizzes, pass by pass *)






Lemma deleteAll_nil collection : deleteAll collection [] = (collection, 0%nat).
Proof. reflexivity. Qed.

Lemma deleteAll_pair_second a b :
  id a <> id b -> deleteAll [a; b] [b] = ([a], 1%nat).
Proof.
  intros Hid. unfold deleteAll. cbn [foldl fst snd]. unfold mapHas, mapDelete.
  rewrite bool_decide_eq_true_2 by set_solver.
  rewrite filter_cons_True by done. rewrite filter_cons_False by (intros H; by apply H).
  by rewrite filter_nil.
Qed.

Lemma deleteAll_pair_first a b :
  id a <> id b -> deleteAll [a; b] [a] = ([b], 1%nat).
Proof.
  intros Hid. unfold deleteAll. cbn [foldl fst snd]. unfold mapHas, mapDelete.
  rewrite bool_decide_eq_true_2 by set_solver.
  rewrite filter_cons_False by (intros H; by apply H).
  rewrite filter_cons_True by done.
  by rewrite filter_nil.
Qed.






Lemma string_app_inv_head (p x y : string) : p ++ x = p ++ y -> x = y.
Proof.
  induction p as [|c p IH]; simpl; [done |].
  intros H. injection H as H. auto.
Qed.


Lemma compareWithLater_cons quiz1 quiz2 later d :
  compareWithLater quiz1 (quiz2 :: later) d
  = if negb (bool_decide (id quiz2 ∈ quizzesToKeep d)) then compareWithLater quiz1 later d
    else if judgedDuplicate quiz1 quiz2 then
           if keepQuiz1 quiz1 quiz2 then compareWithLater quiz1 later (dropQuiz quiz2 d)
           else dropQuiz quiz1 d
         else compareWithLater quiz1 later d.
Proof.
  cbn [compareWithLater]. unfold judgedDuplicate.
  destruct (lengthsFarApart quiz1 quiz2), (reachesThreshold quiz1 quiz2); reflexivity.
Qed.



(** ** Content pass and identifiers in the two backends *)

Lemma mem_contentPass_invariant l :
  forall (chm : gmap string Quiz) d,
    (forall h q, chm !! h = Some q -> truthyS (uniqueId q) = false) ->
    exists extra,
      duplicatesToRemove (foldl MemStorage.contentPass_step (chm, d) l).2
      = (duplicatesToRemove d ++ extra)%list
      /\ Forall (fun q => truthyS (uniqueId q) = false) extra.
Proof.
  induction l as [|quiz l IH]; intros chm d Hchm; cbn [foldl].
  - exists []. by rewrite app_nil_r.
  - unfold MemStorage.contentPass_step at 2.
    destruct (bool_decide (id quiz ∈ quizzesToKeep d)); cbn [negb]; [| by apply IH].
    destruct (truthyS (uniqueId quiz)) eqn:Hu; cbn [negb]; [by apply IH |].
    destruct (chm !! createContentHash quiz) as [existingQuiz|] eqn:Hlook.
    + destruct (keepNew quiz existingQuiz).
      * destruct (IH (<[createContentHash quiz := quiz]> chm)
                    (mkDedup ({[id quiz]} ∪ (quizzesToKeep d ∖ {[id existingQuiz]}))
                       (duplicatesToRemove d ++ [existingQuiz])%list))
          as (extra & Heq & Hall).
        { intros h q. rewrite lookup_insert. case_decide; [naive_solver | eauto]. }
        exists (existingQuiz :: extra). rewrite Heq. cbn [duplicatesToRemove].
        rewrite <- app_assoc. split; [done |]. constructor; eauto.
      * destruct (IH chm (dropQuiz quiz d)) as (extra & Heq & Hall); [done |].
        exists (quiz :: extra). rewrite Heq. cbn [dropQuiz duplicatesToRemove].
        rewrite <- app_assoc. split; [done |]. by constructor.
    + apply IH. intros h q. rewrite lookup_insert. case_decide; [naive_solver | eauto].
Qed.

Lemma mem_compareGroup_pair_distinct a b d :
  id a ∈ quizzesToKeep d ->
  MemStorage.differentUniqueIds a b = true ->
  MemStorage.compareGroup [a; b] d = d.
Proof.
  intros Ha Hdiff. cbn [MemStorage.compareGroup].
  rewrite (bool_decide_eq_true_2 _ Ha). cbn [MemStorage.compareWithLater].
  rewrite Hdiff.
  destruct (bool_decide (id b ∈ quizzesToKeep d)) eqn:Hb; cbn [negb];
    rewrite Hb; done.
Qed.

Lemma mem_removeDuplicateQuizzes_pair_distinct a b :
  id a <> id b ->
  truthyS (uniqueId a) = true -> truthyS (uniqueId b) = true ->
  uniqueId a <> uniqueId b ->
  MemStorage.removeDuplicateQuizzes [a; b] = mkResult [a; b] [] 0.
Proof.
  intros Hid Ha Hb Hne.
  assert (Hd : MemStorage.dedupPasses [a; b]
               = mkDedup ({[id b]} ∪ ({[id a]} ∪ ∅)) []).
  { unfold MemStorage.dedupPasses, MemStorage.uniqueIdPass. cbn [foldl].
    unfold MemStorage.uniqueIdPass_step at 2. rewrite Ha. cbn [negb].
    destruct (uniqueId a) as [ua|] eqn:Hua; [|discriminate].
    rewrite lookup_empty. unfold MemStorage.uniqueIdPass_step. rewrite Hb. cbn [negb].
    destruct (uniqueId b) as [ub|] eqn:Hub; [|discriminate].
    rewrite lookup_insert_ne by congruence. rewrite lookup_empty.
    cbn [snd quizzesToKeep duplicatesToRemove].
    unfold MemStorage.contentPass. cbn [foldl].
    unfold MemStorage.contentPass_step at 2. cbn [quizzesToKeep].
    rewrite bool_decide_eq_true_2 by set_solver. rewrite Hua, Ha. cbn [negb].
    unfold MemStorage.contentPass_step. cbn [quizzesToKeep].
    rewrite bool_decide_eq_true_2 by set_solver. rewrite Hub, Hb. cbn [negb snd].
    unfold MemStorage.titlePass, buildTitleMap. cbn [foldl quizzesToKeep].
    unfold titleMap_step.
    rewrite (bool_decide_eq_true_2 (id a ∈ _)) by set_solver.
    rewrite (bool_decide_eq_true_2 (id b ∈ _)) by set_solver.
    cbn [titleMap_push].
    destruct (String.eqb (normalize (title a)) (normalize (title b))); cbn [foldl].
    - unfold MemStorage.titlePass_step. cbn [snd List.length app Nat.ltb Nat.leb].
      apply mem_compareGroup_pair_distinct; [cbn [quizzesToKeep]; set_solver |].
      unfold MemStorage.differentUniqueIds. rewrite Hua, Hub, Ha, Hb.
      rewrite bool_decide_eq_false_2 by congruence. done.
    - unfold MemStorage.titlePass_step. done. }
  unfold MemStorage.removeDuplicateQuizzes. rewrite Hd. done.
Qed.

Lemma uniqueIdPass_step_first d quiz :
  (uniqueIdPass_step (∅, d) quiz).2 = d.
Proof.
  unfold uniqueIdPass_step.
  destruct (negb (bool_decide (id quiz ∈ quizzesToKeep d)) || negb (truthyS (uniqueId quiz)));
    [done |].
  destruct (uniqueId quiz); [| done]. by rewrite lookup_empty.
Qed.

Lemma uniqueIdPass_step_dropped m d quiz :
  id quiz ∉ quizzesToKeep d -> uniqueIdPass_step (m, d) quiz = (m, d).
Proof.
  intros H. unfold uniqueIdPass_step. by rewrite (bool_decide_eq_false_2 _ H).
Qed.

Lemma uniqueIdPass_pair_one a b d :
  id a ∉ quizzesToKeep d \/ id b ∉ quizzesToKeep d ->
  (uniqueIdPass d [a; b]).2 = d.
Proof.
  intros [Ha | Hb]; unfold uniqueIdPass; cbn [foldl].
  - rewrite (uniqueIdPass_step_dropped ∅ d a Ha). apply uniqueIdPass_step_first.
  - pose proof (uniqueIdPass_step_first d a) as H1.
    destruct (uniqueIdPass_step (∅, d) a) as [m d']. cbn [snd] in H1. subst d'.
    by rewrite uniqueIdPass_step_dropped.
Qed.

Lemma dedupPasses_pair_same_hash a b :
  id a <> id b ->
  createContentHash a = createContentHash b ->
  dedupPasses [a; b]
  = if keepNew b a
    then mkDedup ({[id b]} ∪ (({[id a]} ∪ ∅) ∖ {[id a]})) [a]
    else mkDedup ({[id a]} ∪ ∅) [b].
Proof.
  intros Hid Hh. unfold dedupPasses, contentPass. cbn [foldl].
  unfold contentPass_step at 2. rewrite lookup_empty.
  unfold contentPass_step. rewrite <- Hh, lookup_insert_eq.
  rewrite bool_decide_eq_false_2 by congruence.
  cbn [quizzesToKeep duplicatesToRemove app].
  destruct (keepNew b a); cbn [snd].
  - rewrite uniqueIdPass_pair_one by (left; cbn [quizzesToKeep]; set_solver).
    unfold titlePass, buildTitleMap. cbn [foldl quizzesToKeep]. unfold titleMap_step.
    rewrite (bool_decide_eq_false_2 (id a ∈ _)) by set_solver.
    rewrite (bool_decide_eq_true_2 (id b ∈ _)) by set_solver.
    cbn [titleMap_push foldl]. unfold titlePass_step. done.
  - rewrite uniqueIdPass_pair_one by (right; cbn [quizzesToKeep]; set_solver).
    unfold titlePass, buildTitleMap. cbn [foldl quizzesToKeep]. unfold titleMap_step.
    rewrite (bool_decide_eq_true_2 (id a ∈ _)) by set_solver.
    rewrite (bool_decide_eq_false_2 (id b ∈ _)) by set_solver.
    cbn [titleMap_push foldl]. unfold titlePass_step. done.
Qed.

Lemma removeDuplicateQuizzes_pair_same_hash a b :
  id a <> id b ->
  createContentHash a = createContentHash b ->
  removeDuplicateQuizzes [a; b]
  = if keepNew b a then mkResult [b] [a] 1 else mkResult [a] [b] 1.
Proof.
  intros Hid Hh. unfold removeDuplicateQuizzes. cbn [List.length Nat.leb].
  rewrite dedupPasses_pair_same_hash by done.
  destruct (keepNew b a); cbn [duplicatesToRemove].
  - by rewrite deleteAll_pair_first.
  - by rewrite deleteAll_pair_second.
Qed.

(** The two backends on identified quizzes. In the in-memory backend the
    content pass only looks at quizzes without a [uniqueId]: every quiz it
    removes lacks one, and two quizzes carrying different identifiers both
    survive the whole deduplication whatever their fingerprints and titles.
    In the file backend, the one the server uses, the content pass comes
    first and looks at every quiz: of two quizzes with equal fingerprints
    one is removed, whatever identifiers they carry. *)
Theorem content_pass_and_identifiers :
  (forall d allQuizzes,
      exists extra,
        duplicatesToRemove (MemStorage.contentPass d allQuizzes).2
        = (duplicatesToRemove d ++ extra)%list
        /\ Forall (fun q => truthyS (uniqueId q) = false) extra)
  /\ (forall a b,
        id a <> id b ->
        truthyS (uniqueId a) = true -> truthyS (uniqueId b) = true ->
        uniqueId a <> uniqueId b ->
        MemStorage.removeDuplicateQuizzes [a; b] = mkResult [a; b] [] 0)
  /\ (forall a b,
        id a <> id b ->
        createContentHash a = createContentHash b ->
        removeDuplicateQuizzes [a; b]
        = if keepNew b a then mkResult [b] [a] 1 else mkResult [a] [b] 1).
Proof.
  split; [| split].
  - intros d allQuizzes. apply mem_contentPass_invariant.
    intros h q. by rewrite lookup_empty.
  - apply mem_removeDuplicateQuizzes_pair_distinct.
  - apply removeDuplicateQuizzes_pair_same_hash.
Qed.

Lemma content_pass_and_identifiers_witness :
  MemStorage.removeDuplicateQuizzes [quiz_shared_a; quiz_shared_b]
  = mkResult [quiz_shared_a; quiz_shared_b] [] 0
  /\ removeDuplicateQuizzes [quiz_shared_a; quiz_shared_b]
     = mkResult [quiz_shared_a] [quiz_shared_b] 1.
Proof.
  split.
  - apply (proj1 (proj2 content_pass_and_identifiers) quiz_shared_a quiz_shared_b).
    + discriminate.
    + reflexivity.
    + reflexivity.
    + discriminate.
  - apply (proj2 (proj2 content_pass_and_identifiers) quiz_shared_a quiz_shared_b).
    + discriminate.
    + vm_compute. reflexivity.
Defined.

(** C10 fails on the file backend. The two quizzes carry different
    identifiers and have one fingerprint; the content pass, which the
    in-memory backend restricts to quizzes without [uniqueId], puts the
    second among the duplicates to remove, and it is deleted. The in-memory
    backend keeps both. *)
Theorem file_content_pass_removes_identified_quiz :
  truthyS (uniqueId quiz_shared_b) = true
  /\ uniqueId quiz_shared_a <> uniqueId quiz_shared_b
  /\ createContentHash quiz_shared_a = createContentHash quiz_shared_b
  /\ duplicatesToRemove (contentPass [quiz_shared_a; quiz_shared_b]).2 = [quiz_shared_b]
  /\ removeDuplicateQuizzes [quiz_shared_a; quiz_shared_b]
     = mkResult [quiz_shared_a] [quiz_shared_b] 1
  /\ MemStorage.removeDuplicateQuizzes [quiz_shared_a; quiz_shared_b]
     = mkResult [quiz_shared_a; quiz_shared_b] [] 0.
Proof. repeat split; try discriminate; vm_compute; reflexivity. Qed.

(** ** The collection as a map *)

Lemma mapGet_mapSet_eq quiz collection :
  mapGet (id quiz) (mapSet quiz collection) = Some quiz.
Proof.
  unfold mapGet. induction collection as [|q l IH]; simpl.
  - by rewrite bool_decide_eq_true_2.
  - destruct (bool_decide (id q = id quiz)) eqn:Hq; simpl.
    + by rewrite bool_decide_eq_true_2.
    + by rewrite Hq.
Qed.

Lemma mapGet_mapSet_ne k quiz collection :
  k <> id quiz -> mapGet k (mapSet quiz collection) = mapGet k collection.
Proof.
  intros Hk. unfold mapGet. induction collection as [|q l IH]; simpl.
  - by rewrite bool_decide_eq_false_2.
  - destruct (bool_decide (id q = id quiz)) eqn:Hq; simpl.
    + apply bool_decide_eq_true in Hq.
      rewrite (bool_decide_eq_false_2 (id quiz = k)) by done.
      by rewrite (bool_decide_eq_false_2 (id q = k)) by congruence.
    + by rewrite IH.
Qed.

Lemma find_some_elem {A} (f : A -> bool) l x :
  List.find f l = Some x -> x ∈ l /\ f x = true.
Proof.
  intros H. apply find_some in H as [H1 H2]. split; [by apply list_elem_of_In | done].
Qed.

Lemma getQuizByUniqueId_Some u collection e :
  getQuizByUniqueId u collection = Some e -> e ∈ collection /\ uniqueId e = Some u.
Proof.
  intros H. apply find_some_elem in H as [H1 H2].
  by apply bool_decide_eq_true in H2.
Qed.

Lemma getQuizByUniqueId_None u collection q :
  getQuizByUniqueId u collection = None -> q ∈ collection -> uniqueId q <> Some u.
Proof.
  intros H Hq Hu. apply list_elem_of_In in Hq.
  pose proof (find_none _ _ H q Hq) as Hn. cbn beta in Hn.
  by rewrite bool_decide_eq_true_2 in Hn.
Qed.

Lemma mapGet_elem collection e :
  NoDup (id <$> collection) -> e ∈ collection -> mapGet (id e) collection = Some e.
Proof.
  unfold mapGet. induction collection as [|q l IH]; intros Hnd He.
  - by apply elem_of_nil in He.
  - rewrite fmap_cons in Hnd. apply NoDup_cons in Hnd as [Hq Hnd]. simpl.
    apply elem_of_cons in He as [-> | He].
    + by rewrite bool_decide_eq_true_2.
    + rewrite bool_decide_eq_false_2; [by apply IH |].
      intros Heq. apply Hq. rewrite Heq. by apply list_elem_of_fmap_2.
Qed.

(** ** The upsert of the sync call *)

Section SyncUpsert.
Variable uuidv4 : nat -> string.
Variable now : Z.

Lemma syncUpsert_step_update st quizToSync u e :
  i_uniqueId quizToSync = Some u -> truthyS (Some u) = true ->
  NoDup (id <$> quizCollection st) ->
  getQuizByUniqueId u (quizCollection st) = Some e ->
  quizCollection (syncUpsert_step uuidv4 now st quizToSync)
  = mapSet (overwritten e quizToSync) (quizCollection st).
Proof.
  intros Hu Ht Hnd He. unfold syncUpsert_step. rewrite Hu, Ht, He. cbn [negb].
  apply getQuizByUniqueId_Some in He as [Hin _].
  unfold updateQuiz. by rewrite (mapGet_elem _ _ Hnd Hin).
Qed.

Lemma syncUpsert_step_create st quizToSync u :
  i_uniqueId quizToSync = Some u -> truthyS (Some u) = true ->
  getQuizByUniqueId u (quizCollection st) = None ->
  quizCollection (syncUpsert_step uuidv4 now st quizToSync)
  = mapSet (inserted now (quizCurrentId st) quizToSync) (quizCollection st).
Proof.
  intros Hu Ht He. unfold syncUpsert_step. rewrite Hu, Ht, He. cbn [negb].
  unfold createQuiz. rewrite Hu, Ht. cbn [fst snd quizCollection].
  unfold inserted. by rewrite Hu.
Qed.

End SyncUpsert.



(** ** Filtering and identifiers in the sync call *)

Section SyncFilter.
Variable uuidv4 : nat -> string.
Variable randomUUID : nat -> string.
Variable now : Z.

Lemma truthyS_Some_nonempty (s : string) : s <> EmptyString -> truthyS (Some s) = true.
Proof.
  intros Hs. unfold truthyS. apply negb_true_iff, String.eqb_neq. done.
Qed.





End SyncFilter.




(** ** Deleting from the collection *)

Lemma filter_all {A} (P : A -> Prop) `{!forall x, Decision (P x)} (l : list A) :
  (forall x, x ∈ l -> P x) -> filter P l = l.
Proof.
  induction l as [|x l IH]; intros Hall; [done |].
  rewrite filter_cons_True by (apply Hall; by left).
  rewrite IH; [done |]. intros y Hy. apply Hall. by right.
Qed.

Lemma mapDelete_absent k collection :
  mapHas k collection = false -> mapDelete k collection = collection.
Proof.
  unfold mapHas, mapDelete. intros H. apply bool_decide_eq_false in H.
  apply filter_all. intros q Hq Heq. apply H. rewrite <- Heq.
  by apply list_elem_of_fmap_2.
Qed.

Lemma deleteAll_fst dups :
  forall collection n,
    (foldl (fun acc quiz =>
              if mapHas (id quiz) acc.1
              then (mapDelete (id quiz) acc.1, S acc.2) else acc)
           (collection, n) dups).1
    = filter (fun q => id q ∉ id <$> dups) collection.
Proof.
  induction dups as [|d dups IH]; intros collection n; cbn [foldl fst snd].
  - symmetry. apply filter_all. intros q _. rewrite fmap_nil. apply not_elem_of_nil.
  - assert (Hstep : filter (fun q => id q ∉ id <$> d :: dups) collection
                    = filter (fun q => id q ∉ id <$> dups) (mapDelete (id d) collection)).
    { unfold mapDelete. rewrite list_filter_filter. apply list_filter_iff.
      intros q. rewrite fmap_cons, not_elem_of_cons. tauto. }
    rewrite Hstep. destruct (mapHas (id d) collection) eqn:Hhas.
    + apply IH.
    + rewrite IH. by rewrite (mapDelete_absent _ _ Hhas).
Qed.

Lemma deleteAll_survivors collection dups :
  (deleteAll collection dups).1 = filter (fun q => id q ∉ id <$> dups) collection.
Proof. apply deleteAll_fst. Qed.

Lemma deleteAll_subset collection dups q :
  q ∈ (deleteAll collection dups).1 -> q ∈ collection.
Proof. rewrite deleteAll_survivors, list_elem_of_filter. tauto. Qed.

Lemma removeDuplicateQuizzes_subset collection q :
  q ∈ survivors (removeDuplicateQuizzes collection) -> q ∈ collection.
Proof.
  unfold removeDuplicateQuizzes.
  destruct (List.length collection <=? 1)%nat; cbn [survivors]; [done |].
  apply deleteAll_subset.
Qed.

Lemma deletePrivateQuizzes_public st q :
  q ∈ quizCollection (deletePrivateQuizzes st).1 ->
  q ∈ quizCollection st /\ isPublic q = true.
Proof.
  unfold deletePrivateQuizzes. cbn [fst quizCollection].
  rewrite deleteAll_survivors, list_elem_of_filter. intros [Hid Hq].
  split; [done |]. destruct (isPublic q) eqn:Hp; [done |]. exfalso. apply Hid.
  apply list_elem_of_fmap_2, list_elem_of_In, filter_In. split.
  - by apply list_elem_of_In.
  - by rewrite Hp.
Qed.

Lemma NoDup_fmap_filter {A B} (f : A -> B) (P : A -> Prop)
    `{!forall x, Decision (P x)} (l : list A) :
  NoDup (f <$> l) -> NoDup (f <$> filter P l).
Proof.
  intros Hnd. eapply sublist_NoDup; [exact Hnd | apply fmap_sublist, sublist_filter].
Qed.

Lemma mapSet_elem quiz collection q :
  NoDup (id <$> collection) ->
  q ∈ mapSet quiz collection -> q = quiz \/ (q ∈ collection /\ id q <> id quiz).
Proof.
  induction collection as [|x l IH]; intros Hnd Hq; cbn [mapSet] in Hq.
  - apply list_elem_of_singleton in Hq. by left.
  - rewrite fmap_cons in Hnd. apply NoDup_cons in Hnd as [Hx Hnd].
    destruct (bool_decide (id x = id quiz)) eqn:Hxq.
    + apply bool_decide_eq_true in Hxq.
      apply elem_of_cons in Hq as [-> | Hq]; [by left | right].
      split; [by apply elem_of_cons; right |].
      intros Heq. apply Hx. rewrite Hxq, <- Heq. by apply list_elem_of_fmap_2.
    + apply bool_decide_eq_false in Hxq.
      apply elem_of_cons in Hq as [-> | Hq].
      * right. split; [by apply elem_of_cons; left | done].
      * destruct (IH Hnd Hq) as [-> | [Hin Hne]]; [by left | right].
        split; [by apply elem_of_cons; right | done].
Qed.

Lemma mapSet_ids quiz collection :
  id <$> mapSet quiz collection
  = if bool_decide (id quiz ∈ id <$> collection)
    then id <$> collection else ((id <$> collection) ++ [id quiz])%list.
Proof.
  induction collection as [|x l IH]; cbn [mapSet].
  - rewrite bool_decide_eq_false_2; [done |]. rewrite fmap_nil. apply not_elem_of_nil.
  - destruct (bool_decide (id x = id quiz)) eqn:Hxq.
    + apply bool_decide_eq_true in Hxq.
      rewrite bool_decide_eq_true_2; [by rewrite !fmap_cons, Hxq |].
      rewrite fmap_cons, Hxq. by apply elem_of_cons; left.
    + apply bool_decide_eq_false in Hxq. rewrite !fmap_cons, IH.
      destruct (bool_decide (id quiz ∈ id <$> l)) eqn:Hl.
      * apply bool_decide_eq_true in Hl.
        rewrite bool_decide_eq_true_2; [done |]. by apply elem_of_cons; right.
      * apply bool_decide_eq_false in Hl.
        rewrite bool_decide_eq_false_2; [done |].
        rewrite not_elem_of_cons. split; [congruence | done].
Qed.

Lemma mapSet_NoDup quiz collection :
  NoDup (id <$> collection) -> NoDup (id <$> mapSet quiz collection).
Proof.
  intros Hnd. rewrite mapSet_ids. case_bool_decide as Hin; [done |].
  apply NoDup_app. split; [done |]. split.
  - intros k Hk Hk'. apply list_elem_of_singleton in Hk'. by subst.
  - apply NoDup_singleton.
Qed.
(** ** Privacy: what the sync call leaves in the store *)

Section SyncPurge.
Variable uuidv4 : nat -> string.
Variable now : Z.

Lemma syncUpsert_step_inv u st quizToSync :
  storeInv u st -> storeInv u (syncUpsert_step uuidv4 now st quizToSync).
Proof.
  intros [Hnd Hone]. unfold storeInv.
  destruct (truthyS (i_uniqueId quizToSync)) eqn:Ht;
    [| unfold syncUpsert_step; by rewrite Ht].
  destruct (i_uniqueId quizToSync) as [u'|] eqn:Hu; [| discriminate].
  destruct (getQuizByUniqueId u' (quizCollection st)) as [e|] eqn:He.
  - rewrite (syncUpsert_step_update _ _ _ _ _ _ Hu Ht Hnd He).
    split; [by apply mapSet_NoDup |].
    apply getQuizByUniqueId_Some in He as [Hin He].
    assert (Hov : uniqueId (overwritten e quizToSync) = Some u').
    { unfold overwritten. cbn [uniqueId]. by rewrite Hu. }
    intros a b Ha Hb Hua Hub.
    destruct (mapSet_elem _ _ _ Hnd Ha) as [-> | [Ha' Hida]];
      destruct (mapSet_elem _ _ _ Hnd Hb) as [-> | [Hb' Hidb]]; try done.
    + exfalso. apply Hidb. cbn [overwritten id]. apply Hone; try done. congruence.
    + exfalso. apply Hida. cbn [overwritten id]. apply Hone; try done. congruence.
    + by apply Hone.
  - rewrite (syncUpsert_step_create _ _ _ _ _ Hu Ht He).
    split; [by apply mapSet_NoDup |].
    assert (Hins : uniqueId (inserted now (quizCurrentId st) quizToSync) = Some u').
    { unfold inserted. cbn [uniqueId]. done. }
    intros a b Ha Hb Hua Hub.
    destruct (mapSet_elem _ _ _ Hnd Ha) as [-> | [Ha' Hida]];
      destruct (mapSet_elem _ _ _ Hnd Hb) as [-> | [Hb' Hidb]]; try done.
    + exfalso. apply (getQuizByUniqueId_None _ _ b He Hb'). congruence.
    + exfalso. apply (getQuizByUniqueId_None _ _ a He Ha'). congruence.
    + by apply Hone.
Qed.

Lemma syncUpserted_inv u st quizzesToSync :
  storeInv u st -> storeInv u (syncUpserted uuidv4 now st quizzesToSync).
Proof.
  unfold syncUpserted. generalize (publicQuizzesToSync quizzesToSync). intros l.
  revert st. induction l as [|q l IH]; intros st Hinv; cbn [foldl]; [done |].
  by apply IH, syncUpsert_step_inv.
Qed.

Lemma syncPurge_step_subset st quizToSync q :
  q ∈ quizCollection (syncPurge_step st quizToSync) -> q ∈ quizCollection st.
Proof.
  unfold syncPurge_step.
  destruct (negb (i_isPublic quizToSync) && truthyS (i_uniqueId quizToSync)); [| done].
  destruct (i_uniqueId quizToSync) as [u|]; [| done].
  destruct (getQuizByUniqueId u (quizCollection st)) as [e|]; [| done].
  cbn [deleteQuiz fst quizCollection]. unfold mapDelete.
  rewrite list_elem_of_filter. tauto.
Qed.

Lemma syncPurge_step_inv u st quizToSync :
  storeInv u st -> storeInv u (syncPurge_step st quizToSync).
Proof.
  intros [Hnd Hone]. split.
  - unfold syncPurge_step.
    destruct (negb (i_isPublic quizToSync) && truthyS (i_uniqueId quizToSync)); [| done].
    destruct (i_uniqueId quizToSync) as [u'|]; [| done].
    destruct (getQuizByUniqueId u' (quizCollection st)) as [e|]; [| done].
    cbn [deleteQuiz fst quizCollection]. by apply NoDup_fmap_filter.
  - intros a b Ha Hb. apply Hone; by eapply syncPurge_step_subset.
Qed.

Lemma foldl_syncPurge_subset l st q :
  q ∈ quizCollection (foldl syncPurge_step st l) -> q ∈ quizCollection st.
Proof.
  revert st. induction l as [|x l IH]; intros st; cbn [foldl]; [done |].
  intros Hq. by eapply syncPurge_step_subset, IH.
Qed.

Lemma foldl_syncPurge_inv u l st :
  storeInv u st -> storeInv u (foldl syncPurge_step st l).
Proof.
  revert st. induction l as [|x l IH]; intros st Hinv; cbn [foldl]; [done |].
  by apply IH, syncPurge_step_inv.
Qed.

(** The purge of a private quiz of the batch leaves no record under its
    identifier when at most one key held it. *)
Lemma syncPurge_step_retracts st r q :
  i_isPublic r = false -> truthyS (i_uniqueId r) = true ->
  storeInv (i_uniqueId r) st ->
  q ∈ quizCollection (syncPurge_step st r) -> uniqueId q <> i_uniqueId r.
Proof.
  intros Hp Ht [Hnd Hone]. unfold syncPurge_step. rewrite Hp, Ht. cbn [negb andb].
  destruct (i_uniqueId r) as [u|] eqn:Hu; [| discriminate].
  destruct (getQuizByUniqueId u (quizCollection st)) as [e|] eqn:He.
  - apply getQuizByUniqueId_Some in He as [Hin He].
    cbn [deleteQuiz fst quizCollection]. unfold mapDelete.
    rewrite list_elem_of_filter. intros [Hid Hq] Huq. apply Hid. by apply Hone.
  - intros Hq. by apply (getQuizByUniqueId_None _ _ q He).
Qed.

(** C3. After a sync call no record of the shared store is private; so a
    record left under the identifier of a private quiz of the batch is a
    different, public record. When at most one key of the store held that
    identifier before the call, no record under it is left at all. *)
Theorem sync_retracts_private_quizzes st quizzesToSync r :
  r ∈ quizzesToSync -> i_isPublic r = false ->
  let st' := (syncQuizzes uuidv4 now st quizzesToSync).1 in
  (forall s, s ∈ quizCollection st' -> isPublic s = true)
  /\ (forall s, s ∈ quizCollection st' -> uniqueId s = i_uniqueId r ->
                isPublic s = true /\ isPublic s <> i_isPublic r)
  /\ (truthyS (i_uniqueId r) = true ->
      NoDup (id <$> quizCollection st) ->
      atMostOneHolder (i_uniqueId r) (quizCollection st) ->
      forall s, s ∈ quizCollection st' -> uniqueId s <> i_uniqueId r).
Proof.
  intros Hr Hp st'.
  assert (Hsub : forall s, s ∈ quizCollection st' ->
            s ∈ quizCollection (syncPurged uuidv4 now st quizzesToSync)
            /\ isPublic s = true).
  { intros s Hs. subst st'. unfold syncQuizzes in Hs. cbn [fst quizCollection] in Hs.
    apply removeDuplicateQuizzes_subset in Hs.
    by apply deletePrivateQuizzes_public in Hs. }
  split; [| split].
  - intros s Hs. by apply Hsub.
  - intros s Hs _. destruct (Hsub s Hs) as [_ Hpub]. rewrite Hpub, Hp. done.
  - intros Ht Hnd Hone s Hs. destruct (Hsub s Hs) as [Hin _].
    unfold syncPurged in Hin.
    destruct (list_elem_of_split _ _ Hr) as (l1 & l2 & ->).
    rewrite foldl_app in Hin. cbn [foldl] in Hin.
    apply foldl_syncPurge_subset in Hin.
    apply (syncPurge_step_retracts _ _ _ Hp Ht) in Hin; [done |].
    apply foldl_syncPurge_inv, syncUpserted_inv. by split.
Qed.
End SyncPurge.

Lemma sync_retracts_private_quizzes_witness :
  Forall (fun s => uniqueId s <> Some "id-a")
    (quizCollection
       (syncQuizzes exampleUuid exampleNow storage_with_capitals
          [capitals_now_private]).1).
Proof.
  apply Forall_forall.
  destruct (sync_retracts_private_quizzes exampleUuid exampleNow storage_with_capitals
              [capitals_now_private] capitals_now_private) as (_ & _ & H).
  - apply elem_of_cons. by left.
  - reflexivity.
  - apply H.
    + reflexivity.
    + vm_compute. repeat constructor; set_solver.
    + intros a b Ha Hb _ _.
      apply list_elem_of_singleton in Ha. apply list_elem_of_singleton in Hb.
      by subst.
Defined.

(** ** Invariants of the three passes *)

Lemma elem_of_ids_inj (l : list Quiz) a b :
  NoDup (id <$> l) -> a ∈ l -> b ∈ l -> id a = id b -> a = b.
Proof.
  induction l as [|x l IH]; intros Hnd Ha Hb Hid.
  - by apply elem_of_nil in Ha.
  - rewrite fmap_cons in Hnd. apply NoDup_cons in Hnd as [Hx Hnd].
    apply elem_of_cons in Ha as [-> | Ha]; apply elem_of_cons in Hb as [-> | Hb].
    + done.
    + exfalso. apply Hx. rewrite Hid. by apply list_elem_of_fmap_2.
    + exfalso. apply Hx. rewrite <- Hid. by apply list_elem_of_fmap_2.
    + by apply IH.
Qed.

Lemma ids_snoc (l : list Quiz) x k :
  k ∈ id <$> (l ++ [x])%list <-> k ∈ id <$> l \/ k = id x.
Proof.
  rewrite fmap_app, elem_of_app. cbn [fmap list_fmap].
  by rewrite list_elem_of_singleton.
Qed.

Lemma contentPassInv_init : contentPassInv [] (∅, mkDedup ∅ []).
Proof.
  unfold contentPassInv. cbn [fst snd quizzesToKeep duplicatesToRemove].
  split; [| split; [| split]].
  - intros h q Hq. by rewrite lookup_empty in Hq.
  - intros q Hq. by apply elem_of_nil in Hq.
  - intros k Hk. by apply not_elem_of_empty in Hk.
  - intros k. rewrite fmap_nil. split.
    + intros Hk. by apply elem_of_nil in Hk.
    + intros [Hk _]. by apply elem_of_nil in Hk.
Qed.

Lemma contentPass_step_inv processed st x :
  NoDup (id <$> processed) ->
  id x ∉ id <$> processed ->
  contentPassInv processed st ->
  contentPassInv (processed ++ [x]) (contentPass_step st x).
Proof.
  intros Hnd Hx (Ha & Hb & Hc & Hd). destruct st as [chm d].
  cbn [fst snd] in *. unfold contentPass_step.
  destruct (chm !! createContentHash x) as [e|] eqn:Hlook.
  - destruct (Ha _ _ Hlook) as (He & Hhe & Hke).
    assert (Hxe : id x <> id e).
    { intros Heq. apply Hx. rewrite Heq. by apply list_elem_of_fmap_2. }
    rewrite bool_decide_eq_false_2 by done.
    destruct (keepNew x e); unfold contentPassInv;
      cbn [fst snd quizzesToKeep duplicatesToRemove].
    + split; [| split; [| split]].
      * intros h q. rewrite lookup_insert. case_decide as Hh.
        -- intros [= <-]. split; [set_solver | split; [done | set_solver]].
        -- intros Hq. destruct (Ha _ _ Hq) as (Hq1 & Hq2 & Hq3).
           split; [set_solver | split; [done |]].
           assert (id q <> id e).
           { intros Heq. apply Hh. rewrite <- Hq2, <- Hhe. f_equal.
             symmetry. by apply (elem_of_ids_inj processed). }
           set_solver.
      * intros q Hq Hkq. apply elem_of_app in Hq as [Hq | Hq].
        -- assert (id q <> id x).
           { intros Heq. apply Hx. rewrite <- Heq. by apply list_elem_of_fmap_2. }
           assert (Hkq' : id q ∈ quizzesToKeep d) by set_solver.
           assert (Hqe : id q <> id e) by set_solver.
           pose proof (Hb q Hq Hkq') as Hq'.
           rewrite lookup_insert_ne; [done |].
           intros Heq. rewrite <- Heq in Hq'. rewrite Hlook in Hq'. congruence.
        -- apply list_elem_of_singleton in Hq as ->. by rewrite lookup_insert_eq.
      * intros k Hk. apply ids_snoc.
        apply elem_of_union in Hk as [Hk | Hk]; [right; set_solver | left].
        apply Hc. set_solver.
      * intros k. rewrite !ids_snoc, Hd.
        assert (id e ∈ id <$> processed) by (by apply list_elem_of_fmap_2).
        split.
        -- intros [[Hk1 Hk2] | ->].
           ++ split; [by left |]. set_solver.
           ++ split; [by left |]. set_solver.
        -- intros [[Hk1 | ->] Hk2]; [| set_solver].
           destruct (decide (k = id e)) as [-> | Hne]; [by right | left].
           split; [done |]. set_solver.
    + split; [| split; [| split]].
      * intros h q Hq. destruct (Ha _ _ Hq) as (Hq1 & Hq2 & Hq3).
        split; [set_solver | done].
      * intros q Hq Hkq. apply elem_of_app in Hq as [Hq | Hq]; [by apply Hb |].
        apply list_elem_of_singleton in Hq as ->. exfalso. by apply Hx, Hc.
      * intros k Hk. apply ids_snoc. left. by apply Hc.
      * intros k. rewrite !ids_snoc, Hd. split.
        -- intros [[Hk1 Hk2] | ->]; [split; [by left | done] |].
           split; [by right |]. intros Hk. by apply Hx, Hc.
        -- intros [[Hk1 | ->] Hk2]; [left; done | by right].
  - unfold contentPassInv; cbn [fst snd quizzesToKeep duplicatesToRemove].
    split; [| split; [| split]].
    + intros h q. rewrite lookup_insert. case_decide as Hh.
      * intros [= <-]. split; [set_solver | split; [done | set_solver]].
      * intros Hq. destruct (Ha _ _ Hq) as (Hq1 & Hq2 & Hq3).
        split; [set_solver | split; [done | set_solver]].
    + intros q Hq Hkq. apply elem_of_app in Hq as [Hq | Hq].
      * assert (id q <> id x).
        { intros Heq. apply Hx. rewrite <- Heq. by apply list_elem_of_fmap_2. }
        assert (Hkq' : id q ∈ quizzesToKeep d) by set_solver.
        pose proof (Hb q Hq Hkq') as Hq'.
        rewrite lookup_insert_ne; [done |].
        intros Heq. rewrite <- Heq in Hq'. rewrite Hlook in Hq'. congruence.
      * apply list_elem_of_singleton in Hq as ->. by rewrite lookup_insert_eq.
    + intros k Hk. apply ids_snoc.
      apply elem_of_union in Hk as [Hk | Hk]; [right; set_solver | left; by apply Hc].
    + intros k. rewrite !ids_snoc, Hd. split.
      * intros [Hk1 Hk2]. split; [by left |]. set_solver.
      * intros [[Hk1 | ->] Hk2]; [| set_solver]. split; [done | set_solver].
Qed.

Lemma contentPass_foldl_inv todo :
  forall processed st,
    NoDup (id <$> (processed ++ todo)%list) ->
    contentPassInv processed st ->
    contentPassInv (processed ++ todo) (foldl contentPass_step st todo).
Proof.
  induction todo as [|x todo IH]; intros processed st Hnd Hinv; cbn [foldl].
  - by rewrite app_nil_r.
  - rewrite cons_middle, app_assoc in Hnd |- *.
    apply IH; [done |].
    rewrite fmap_app in Hnd. apply NoDup_app in Hnd as (Hnd & _ & _).
    rewrite fmap_app in Hnd. pose proof Hnd as Hnd'.
    apply NoDup_app in Hnd as (Hnd1 & Hdisj & _).
    apply contentPass_step_inv; [done | | done].
    intros Hin. apply (Hdisj _ Hin). cbn. by left.
Qed.

Lemma contentPass_inv allQuizzes :
  NoDup (id <$> allQuizzes) ->
  contentPassInv allQuizzes (contentPass allQuizzes).
Proof.
  intros Hnd. apply (contentPass_foldl_inv allQuizzes [] (∅, mkDedup ∅ []) Hnd).
  apply contentPassInv_init.
Qed.
Lemma dropQuiz_dupsAreDropped allQuizzes d q :
  q ∈ allQuizzes -> dupsAreDropped allQuizzes d ->
  dupsAreDropped allQuizzes (dropQuiz q d).
Proof.
  intros Hq Hd k. unfold dropQuiz. cbn [duplicatesToRemove quizzesToKeep].
  rewrite ids_snoc, (Hd k).
  assert (id q ∈ id <$> allQuizzes) by (by apply list_elem_of_fmap_2).
  split.
  - intros [[Hk1 Hk2] | ->]; (split; [done | set_solver]).
  - intros [Hk1 Hk2]. destruct (decide (k = id q)) as [-> | Hne]; [by right | left].
    split; [done | set_solver].
Qed.

Lemma uniqueIdPass_step_inv allQuizzes processed keep1 st x :
  NoDup (id <$> processed) ->
  id x ∉ id <$> processed ->
  x ∈ allQuizzes ->
  (forall q, q ∈ processed -> q ∈ allQuizzes) ->
  uniqueIdPassInv allQuizzes processed keep1 st ->
  uniqueIdPassInv allQuizzes (processed ++ [x]) keep1 (uniqueIdPass_step st x).
Proof.
  intros Hnd Hx Hxall Hsub (Ha & Hb & Hc & Hd). destruct st as [uim d].
  cbn [fst snd] in *. unfold uniqueIdPass_step.
  destruct (negb (bool_decide (id x ∈ quizzesToKeep d)) || negb (truthyS (uniqueId x)))
    eqn:Hskip.
  { unfold uniqueIdPassInv; cbn [fst snd]. split; [| split; [| split]]; try done.
    - intros u q Hq. destruct (Ha _ _ Hq) as (Hq1 & Hq2 & Hq3).
      split; [set_solver | done].
    - intros q u Hq Hkq Htq Huq. apply elem_of_app in Hq as [Hq | Hq]; [by eapply Hb |].
      apply list_elem_of_singleton in Hq as ->. exfalso.
      rewrite Htq, (bool_decide_eq_true_2 _ Hkq) in Hskip. discriminate. }
  apply orb_false_iff in Hskip as [Hkx Htx].
  apply negb_false_iff, bool_decide_eq_true in Hkx. apply negb_false_iff in Htx.
  destruct (uniqueId x) as [u|] eqn:Hux; [| discriminate].
  destruct (uim !! u) as [e|] eqn:Hlook.
  - destruct (Ha _ _ Hlook) as (He & Hue & Hke).
    assert (Hxe : id x <> id e).
    { intros Heq. apply Hx. rewrite Heq. by apply list_elem_of_fmap_2. }
    rewrite bool_decide_eq_false_2 by done.
    destruct (keepNew x e); unfold uniqueIdPassInv; cbn [fst snd].
    + split; [| split; [| split]].
      * intros u' q. rewrite lookup_insert. case_decide as Hu.
        -- intros [= <-]. subst u'.
           split; [set_solver | split; [done |]].
           unfold dropQuiz. cbn [quizzesToKeep]. set_solver.
        -- intros Hq. destruct (Ha _ _ Hq) as (Hq1 & Hq2 & Hq3).
           split; [set_solver | split; [done |]].
           assert (id q <> id e).
           { intros Heq. apply Hu.
             assert (q = e) by (by apply (elem_of_ids_inj processed)).
             subst q. congruence. }
           unfold dropQuiz. cbn [quizzesToKeep]. set_solver.
      * intros q u' Hq Hkq Htq Huq. unfold dropQuiz in Hkq. cbn [quizzesToKeep] in Hkq.
        apply elem_of_app in Hq as [Hq | Hq].
        -- assert (Hkq' : id q ∈ quizzesToKeep d) by set_solver.
           assert (Hqe : id q <> id e) by set_solver.
           pose proof (Hb q u' Hq Hkq' Htq Huq) as Hq'.
           rewrite lookup_insert_ne; [done |].
           intros Heq. subst u'. rewrite Hlook in Hq'. congruence.
        -- apply list_elem_of_singleton in Hq as ->.
           assert (u' = u) by congruence. subst u'. by rewrite lookup_insert_eq.
      * unfold dropQuiz. cbn [quizzesToKeep]. set_solver.
      * apply (dropQuiz_dupsAreDropped allQuizzes d e); [by apply Hsub | done].
    + split; [| split; [| split]].
      * intros u' q Hq. destruct (Ha _ _ Hq) as (Hq1 & Hq2 & Hq3).
        split; [set_solver | split; [done |]].
        assert (id q <> id x).
        { intros Heq. apply Hx. rewrite <- Heq. by apply list_elem_of_fmap_2. }
        unfold dropQuiz. cbn [quizzesToKeep]. set_solver.
      * intros q u' Hq Hkq Htq Huq. unfold dropQuiz in Hkq. cbn [quizzesToKeep] in Hkq.
        apply elem_of_app in Hq as [Hq | Hq].
        -- apply (Hb q u' Hq); [set_solver | done | done].
        -- apply list_elem_of_singleton in Hq as ->. set_solver.
      * unfold dropQuiz. cbn [quizzesToKeep]. set_solver.
      * by apply (dropQuiz_dupsAreDropped allQuizzes d x).
  - unfold uniqueIdPassInv; cbn [fst snd]. split; [| split; [| split]]; try done.
    + intros u' q. rewrite lookup_insert. case_decide as Hu.
      * intros [= <-]. subst u'. split; [set_solver | done].
      * intros Hq. destruct (Ha _ _ Hq) as (Hq1 & Hq2 & Hq3).
        split; [set_solver | done].
    + intros q u' Hq Hkq Htq Huq. apply elem_of_app in Hq as [Hq | Hq].
      * pose proof (Hb q u' Hq Hkq Htq Huq) as Hq'.
        rewrite lookup_insert_ne; [done |].
        intros Heq. subst u'. rewrite Hlook in Hq'. congruence.
      * apply list_elem_of_singleton in Hq as ->.
        assert (u' = u) by congruence. subst u'. by rewrite lookup_insert_eq.
Qed.

Lemma uniqueIdPass_foldl_inv allQuizzes keep1 todo :
  forall processed st,
    NoDup (id <$> (processed ++ todo)%list) ->
    (forall q, q ∈ (processed ++ todo)%list -> q ∈ allQuizzes) ->
    uniqueIdPassInv allQuizzes processed keep1 st ->
    uniqueIdPassInv allQuizzes (processed ++ todo) keep1
      (foldl uniqueIdPass_step st todo).
Proof.
  induction todo as [|x todo IH]; intros processed st Hnd Hsub Hinv; cbn [foldl].
  - by rewrite app_nil_r.
  - rewrite cons_middle, app_assoc in Hnd, Hsub |- *.
    apply IH; [done | done |].
    rewrite fmap_app in Hnd. apply NoDup_app in Hnd as (Hnd & _ & _).
    rewrite fmap_app in Hnd. pose proof Hnd as Hnd'.
    apply NoDup_app in Hnd as (Hnd1 & Hdisj & _).
    apply uniqueIdPass_step_inv; [done | | | | done].
    + intros Hin. apply (Hdisj _ Hin). cbn. by left.
    + apply Hsub. set_solver.
    + intros q Hq. apply Hsub. set_solver.
Qed.

Lemma uniqueIdPass_inv allQuizzes d1 :
  NoDup (id <$> allQuizzes) ->
  dupsAreDropped allQuizzes d1 ->
  uniqueIdPassInv allQuizzes allQuizzes (quizzesToKeep d1) (uniqueIdPass d1 allQuizzes).
Proof.
  intros Hnd Hd.
  apply (uniqueIdPass_foldl_inv allQuizzes (quizzesToKeep d1) allQuizzes [] (∅, d1));
    [done | done |].
  unfold uniqueIdPassInv. cbn [fst snd]. split; [| split; [| split]].
  - intros u q Hq. by rewrite lookup_empty in Hq.
  - intros q u Hq. by apply elem_of_nil in Hq.
  - done.
  - exact Hd.
Qed.
(** *** Ordered pairs of a list *)

Lemma ForallOrdPairs_filter {A} (R : A -> A -> Prop) (P : A -> Prop)
    `{!forall x, Decision (P x)} (l : list A) :
  ForallOrdPairs (fun a b => P a -> P b -> R a b) l ->
  ForallOrdPairs R (filter P l).
Proof.
  induction 1 as [|a l Ha Hl IH]; [constructor |].
  destruct (decide (P a)) as [Hp | Hp].
  - rewrite filter_cons_True by done. constructor; [| done].
    apply List.Forall_forall. intros b Hb.
    apply list_elem_of_In, list_elem_of_filter in Hb as [Hpb Hb].
    rewrite List.Forall_forall in Ha. apply Ha; [by apply list_elem_of_In | done | done].
  - by rewrite filter_cons_False.
Qed.

Lemma ForallOrdPairs_impl {A} (R R' : A -> A -> Prop) (l : list A) :
  (forall a b, a ∈ l -> b ∈ l -> R a b -> R' a b) ->
  ForallOrdPairs R l -> ForallOrdPairs R' l.
Proof.
  intros Himpl H. induction H as [|a l Ha Hl IH]; [constructor |].
  constructor.
  - rewrite List.Forall_forall in Ha |- *. intros b Hb.
    apply Himpl; [by left | right; by apply list_elem_of_In | by apply Ha].
  - apply IH. intros x y Hx Hy. apply Himpl; by right.
Qed.

Lemma ForallOrdPairs_of_inj (l : list Quiz) (R : Quiz -> Quiz -> Prop) :
  NoDup (id <$> l) ->
  (forall a b, a ∈ l -> b ∈ l -> R a b -> a = b) ->
  ForallOrdPairs (fun a b => ~ R a b) l.
Proof.
  induction l as [|x l IH]; intros Hnd Hinj; [constructor |].
  rewrite fmap_cons in Hnd. apply NoDup_cons in Hnd as [Hx Hnd].
  constructor.
  - apply List.Forall_forall. intros b Hb HR. apply list_elem_of_In in Hb.
    assert (x = b) by (apply Hinj; [by left | by right | done]).
    subst b. apply Hx. by apply list_elem_of_fmap_2.
  - apply IH; [done |]. intros a b Ha Hb. apply Hinj; by right.
Qed.

(** Pairs of one group, group by group, are the pairs with one key. *)
Lemma ForallOrdPairs_by_key {A} (key : A -> string) (R : A -> A -> Prop) (l : list A) :
  (forall t, ForallOrdPairs R (filter (fun q => key q = t) l)) ->
  ForallOrdPairs (fun a b => key a = key b -> R a b) l.
Proof.
  induction l as [|x l IH]; intros H; [constructor |].
  constructor.
  - apply List.Forall_forall. intros b Hb Hkey.
    specialize (H (key x)). rewrite filter_cons_True in H by done.
    inversion H as [|? ? Hall _]; subst.
    rewrite List.Forall_forall in Hall. apply Hall.
    apply list_elem_of_In, list_elem_of_filter. split; [done | by apply list_elem_of_In].
  - apply IH. intros t. specialize (H t).
    destruct (decide (key x = t)) as [Hk | Hk].
    + rewrite filter_cons_True in H by done. by inversion H.
    + by rewrite filter_cons_False in H.
Qed.

(** *** The title pass *)

Lemma compareWithLater_keep quiz1 later :
  forall d, quizzesToKeep (compareWithLater quiz1 later d) ⊆ quizzesToKeep d.
Proof.
  induction later as [|quiz2 later IH]; intros d; [done |].
  rewrite compareWithLater_cons.
  destruct (negb (bool_decide (id quiz2 ∈ quizzesToKeep d))); [apply IH |].
  destruct (judgedDuplicate quiz1 quiz2); [| apply IH].
  destruct (keepQuiz1 quiz1 quiz2).
  - etrans; [apply IH |]. cbn [dropQuiz quizzesToKeep]. set_solver.
  - cbn [dropQuiz quizzesToKeep]. set_solver.
Qed.

Lemma compareWithLater_dups allQuizzes quiz1 later :
  quiz1 ∈ allQuizzes -> (forall q, q ∈ later -> q ∈ allQuizzes) ->
  forall d, dupsAreDropped allQuizzes d ->
            dupsAreDropped allQuizzes (compareWithLater quiz1 later d).
Proof.
  intros H1. induction later as [|quiz2 later IH]; intros Hsub d Hd; [done |].
  assert (Hsub' : forall q, q ∈ later -> q ∈ allQuizzes)
    by (intros q Hq; apply Hsub; by right).
  rewrite compareWithLater_cons.
  destruct (negb (bool_decide (id quiz2 ∈ quizzesToKeep d))); [by apply IH |].
  destruct (judgedDuplicate quiz1 quiz2); [| by apply IH].
  destruct (keepQuiz1 quiz1 quiz2).
  - apply IH; [done |]. apply dropQuiz_dupsAreDropped; [apply Hsub; by left | done].
  - by apply dropQuiz_dupsAreDropped.
Qed.

(** When [quiz1] is still kept after its [j] loop, no kept later member was
    judged its duplicate. *)
Lemma compareWithLater_verdicts quiz1 later :
  forall d,
    id quiz1 ∈ quizzesToKeep (compareWithLater quiz1 later d) ->
    Forall (fun quiz2 => id quiz2 ∈ quizzesToKeep (compareWithLater quiz1 later d) ->
                         judgedDuplicate quiz1 quiz2 = false) later.
Proof.
  induction later as [|quiz2 later IH]; intros d; [constructor |].
  rewrite compareWithLater_cons.
  destruct (bool_decide (id quiz2 ∈ quizzesToKeep d)) eqn:Hk2; cbn [negb].
  - apply bool_decide_eq_true in Hk2.
    destruct (judgedDuplicate quiz1 quiz2) eqn:Hj.
    + destruct (keepQuiz1 quiz1 quiz2).
      * intros H1. constructor; [| by apply IH].
        intros H2. exfalso.
        apply (compareWithLater_keep quiz1 later) in H2.
        cbn [dropQuiz quizzesToKeep] in H2. set_solver.
      * cbn [dropQuiz quizzesToKeep]. set_solver.
    + intros H1. constructor; [done | by apply IH].
  - apply bool_decide_eq_false in Hk2. intros H1. constructor; [| by apply IH].
    intros H2. exfalso. apply Hk2. by apply (compareWithLater_keep quiz1 later).
Qed.

Lemma compareGroup_keep group :
  forall d, quizzesToKeep (compareGroup group d) ⊆ quizzesToKeep d.
Proof.
  induction group as [|quiz1 later IH]; intros d; [done |]. cbn [compareGroup].
  etrans; [apply IH |]. case_bool_decide; [apply compareWithLater_keep | done].
Qed.

Lemma compareGroup_dups allQuizzes group :
  (forall q, q ∈ group -> q ∈ allQuizzes) ->
  forall d, dupsAreDropped allQuizzes d ->
            dupsAreDropped allQuizzes (compareGroup group d).
Proof.
  induction group as [|quiz1 later IH]; intros Hsub d Hd; [done |]. cbn [compareGroup].
  assert (Hsub' : forall q, q ∈ later -> q ∈ allQuizzes)
    by (intros q Hq; apply Hsub; by right).
  apply IH; [done |]. case_bool_decide; [| done].
  apply compareWithLater_dups; [apply Hsub; by left | done | done].
Qed.

Lemma compareGroup_verdicts group :
  forall d (K : gset Z),
    K ⊆ quizzesToKeep (compareGroup group d) ->
    ForallOrdPairs (fun a b => id a ∈ K -> id b ∈ K -> judgedDuplicate a b = false) group.
Proof.
  induction group as [|quiz1 later IH]; intros d K HK; [constructor |].
  cbn [compareGroup] in HK. constructor; [| by eapply IH].
  pose proof (compareGroup_keep later
                (if bool_decide (id quiz1 ∈ quizzesToKeep d)
                 then compareWithLater quiz1 later d else d)) as Hmono.
  apply List.Forall_forall. intros quiz2 Hq2 H1 H2.
  assert (H1' : id quiz1 ∈ quizzesToKeep d).
  { case_bool_decide as Hk; [done |]. set_solver. }
  rewrite (bool_decide_eq_true_2 _ H1') in Hmono, HK.
  pose proof (compareWithLater_verdicts quiz1 later d) as Hv.
  rewrite List.Forall_forall in Hv. apply Hv; [set_solver | done | set_solver].
Qed.

Lemma titlePass_step_keep d entry :
  quizzesToKeep (titlePass_step d entry) ⊆ quizzesToKeep d.
Proof. unfold titlePass_step. destruct (1 <? _)%nat; [apply compareGroup_keep | done]. Qed.

Lemma titlePass_foldl_keep titleMap :
  forall d, quizzesToKeep (foldl titlePass_step d titleMap) ⊆ quizzesToKeep d.
Proof.
  induction titleMap as [|entry titleMap IH]; intros d; cbn [foldl]; [done |].
  etrans; [apply IH | apply titlePass_step_keep].
Qed.

Lemma titlePass_foldl_dups allQuizzes titleMap :
  (forall t g q, (t, g) ∈ titleMap -> q ∈ g -> q ∈ allQuizzes) ->
  forall d, dupsAreDropped allQuizzes d ->
            dupsAreDropped allQuizzes (foldl titlePass_step d titleMap).
Proof.
  induction titleMap as [|[t g] titleMap IH]; intros Hsub d Hd; cbn [foldl]; [done |].
  apply IH; [intros t' g' q Hin; apply (Hsub t' g'); by right |].
  unfold titlePass_step. cbn [snd]. destruct (1 <? _)%nat; [| done].
  apply compareGroup_dups; [| done]. intros q Hq. apply (Hsub t g); [by left | done].
Qed.

Lemma titlePass_foldl_verdicts titleMap :
  forall d (K : gset Z),
    K ⊆ quizzesToKeep (foldl titlePass_step d titleMap) ->
    forall t g, (t, g) ∈ titleMap ->
      ForallOrdPairs (fun a b => id a ∈ K -> id b ∈ K -> judgedDuplicate a b = false) g.
Proof.
  induction titleMap as [|[t0 g0] titleMap IH]; intros d K HK t g Hin.
  - by apply elem_of_nil in Hin.
  - cbn [foldl] in HK. apply elem_of_cons in Hin as [[= -> ->] | Hin]; [| by eapply IH].
    pose proof (titlePass_foldl_keep titleMap (titlePass_step d (t0, g0))) as Hmono.
    unfold titlePass_step in Hmono, HK. cbn [snd] in Hmono, HK.
    destruct (1 <? List.length g0)%nat eqn:Hlen.
    + apply (compareGroup_verdicts g0 d). set_solver.
    + destruct g0 as [|a [|b g0]]; [constructor | | discriminate].
      constructor; constructor.
Qed.
(** *** Building the title groups *)

Lemma titleMap_push_keys t x titleMap :
  (titleMap_push t x titleMap).*1
  = if bool_decide (t ∈ titleMap.*1) then titleMap.*1 else ((titleMap.*1) ++ [t])%list.
Proof.
  induction titleMap as [|[t0 g0] tm IH]; cbn [titleMap_push].
  - rewrite bool_decide_eq_false_2; [done |]. cbn. apply not_elem_of_nil.
  - destruct (String.eqb_spec t0 t) as [-> | Hne].
    + rewrite bool_decide_eq_true_2; [done |]. cbn. by left.
    + rewrite !fmap_cons, IH. cbn [fst].
      destruct (bool_decide (t ∈ tm.*1)) eqn:Hin.
      * apply bool_decide_eq_true in Hin. rewrite bool_decide_eq_true_2; [done |]. by right.
      * apply bool_decide_eq_false in Hin. rewrite bool_decide_eq_false_2; [done |].
        rewrite not_elem_of_cons. split; [congruence | done].
Qed.

Lemma titleMap_push_elem t x titleMap t' g' :
  NoDup titleMap.*1 ->
  (t', g') ∈ titleMap_push t x titleMap ->
  (t' = t /\ ((exists g, (t, g) ∈ titleMap /\ g' = (g ++ [x])%list)
              \/ ((t ∉ titleMap.*1) /\ g' = [x])))
  \/ (t' <> t /\ (t', g') ∈ titleMap).
Proof.
  induction titleMap as [|[t0 g0] tm IH]; intros Hnd Hin; cbn [titleMap_push] in Hin.
  - apply list_elem_of_singleton in Hin as [= -> ->]. left. split; [done | right].
    split; [apply not_elem_of_nil | done].
  - rewrite fmap_cons in Hnd. cbn [fst] in Hnd. apply NoDup_cons in Hnd as [Ht0 Hnd].
    destruct (String.eqb_spec t0 t) as [-> | Hne].
    + apply elem_of_cons in Hin as [[= -> ->] | Hin].
      * left. split; [done | left]. exists g0. split; [by left | done].
      * right. split; [| by right]. intros ->. apply Ht0.
        by apply (list_elem_of_fmap_2 fst) in Hin.
    + apply elem_of_cons in Hin as [[= -> ->] | Hin].
      * right. split; [done | by left].
      * destruct (IH Hnd Hin) as [[-> [(g & Hg & ->) | [Hnot ->]]] | [Hne' Hin']].
        -- left. split; [done | left]. exists g. split; [by right | done].
        -- left. split; [done | right]. split; [| done].
           rewrite fmap_cons, not_elem_of_cons. cbn [fst]. split; [congruence | done].
        -- right. split; [done | by right].
Qed.

Lemma titleMap_step_inv keep processed titleMap x :
  titleMapInv keep processed titleMap ->
  titleMapInv keep (processed ++ [x]) (titleMap_step keep titleMap x).
Proof.
  intros (Hnd & Hgroups & Hkeys). unfold titleMap_step.
  destruct (bool_decide (id x ∈ keep)) eqn:Hk.
  - apply bool_decide_eq_true in Hk.
    assert (Hfilter : filter (fun q => id q ∈ keep) (processed ++ [x])%list
                      = (filter (fun q => id q ∈ keep) processed ++ [x])%list).
    { rewrite filter_app. f_equal. by rewrite filter_cons_True, filter_nil. }
    split; [| split].
    + rewrite titleMap_push_keys. case_bool_decide as Hin; [done |].
      apply NoDup_app. split; [done |]. split; [| apply NoDup_singleton].
      intros t Ht Ht'. apply list_elem_of_singleton in Ht'. by subst.
    + intros t g Hin. rewrite Hfilter, filter_app.
      destruct (titleMap_push_elem _ _ _ _ _ Hnd Hin)
        as [[-> [(g0 & Hg0 & ->) | [Hnot ->]]] | [Hne Hin']].
      * rewrite (Hgroups _ _ Hg0). f_equal. by rewrite filter_cons_True, filter_nil.
      * rewrite filter_cons_True, filter_nil by done.
        assert (Hnil : filter (fun q => normalize (title q) = normalize (title x))
                         (filter (fun q => id q ∈ keep) processed) = []).
        { destruct (filter _ (filter _ processed)) as [|q l] eqn:Hf; [done |].
          exfalso. apply Hnot.
          assert (Hq : q ∈ filter (fun q => normalize (title q) = normalize (title x))
                         (filter (fun q => id q ∈ keep) processed))
            by (rewrite Hf; by left).
          apply list_elem_of_filter in Hq as [Hq1 Hq].
          apply list_elem_of_filter in Hq as [Hq2 Hq].
          rewrite <- Hq1. by apply Hkeys. }
        by rewrite Hnil.
      * rewrite (Hgroups _ _ Hin').
        rewrite filter_cons_False, filter_nil by congruence. by rewrite app_nil_r.
    + intros q Hq Hkq. rewrite titleMap_push_keys.
      apply elem_of_app in Hq as [Hq | Hq].
      * pose proof (Hkeys q Hq Hkq). case_bool_decide; [done |].
        apply elem_of_app. by left.
      * apply list_elem_of_singleton in Hq as ->. case_bool_decide; [done |].
        apply elem_of_app. right. by apply list_elem_of_singleton.
  - apply bool_decide_eq_false in Hk.
    assert (Hfilter : filter (fun q => id q ∈ keep) (processed ++ [x])%list
                      = filter (fun q => id q ∈ keep) processed).
    { rewrite filter_app, filter_cons_False, filter_nil by done. by rewrite app_nil_r. }
    split; [done | split].
    + intros t g Hin. rewrite Hfilter. by apply Hgroups.
    + intros q Hq Hkq. apply elem_of_app in Hq as [Hq | Hq]; [by apply Hkeys |].
      apply list_elem_of_singleton in Hq as ->. done.
Qed.

Lemma buildTitleMap_foldl_inv keep todo :
  forall processed titleMap,
    titleMapInv keep processed titleMap ->
    titleMapInv keep (processed ++ todo) (foldl (titleMap_step keep) titleMap todo).
Proof.
  induction todo as [|x todo IH]; intros processed titleMap Hinv; cbn [foldl].
  - by rewrite app_nil_r.
  - rewrite cons_middle, app_assoc. by apply IH, titleMap_step_inv.
Qed.

Lemma buildTitleMap_inv keep allQuizzes :
  titleMapInv keep allQuizzes (buildTitleMap keep allQuizzes).
Proof.
  apply (buildTitleMap_foldl_inv keep allQuizzes [] []).
  split; [constructor | split].
  - intros t g Hin. by apply elem_of_nil in Hin.
  - intros q Hq. by apply elem_of_nil in Hq.
Qed.

Lemma buildTitleMap_group keep allQuizzes t g :
  (t, g) ∈ buildTitleMap keep allQuizzes ->
  g = filter (fun q => normalize (title q) = t)
        (filter (fun q => id q ∈ keep) allQuizzes).
Proof. apply buildTitleMap_inv. Qed.

Lemma buildTitleMap_members keep allQuizzes t g q :
  (t, g) ∈ buildTitleMap keep allQuizzes -> q ∈ g -> q ∈ allQuizzes.
Proof.
  intros Hin Hq. rewrite (buildTitleMap_group _ _ _ _ Hin) in Hq.
  apply list_elem_of_filter in Hq as [_ Hq]. by apply list_elem_of_filter in Hq as [_ Hq].
Qed.

Lemma buildTitleMap_has_group keep allQuizzes q :
  q ∈ allQuizzes -> id q ∈ keep ->
  exists g, (normalize (title q), g) ∈ buildTitleMap keep allQuizzes.
Proof.
  intros Hq Hk. destruct (buildTitleMap_inv keep allQuizzes) as (_ & _ & Hkeys).
  specialize (Hkeys q Hq Hk). apply list_elem_of_fmap in Hkeys as ([t g] & Ht & Hin).
  cbn [fst] in Ht. subst t. by exists g.
Qed.
(** *** What the three passes leave *)

Lemma filter_iff_elem {A} (P Q : A -> Prop) `{!forall x, Decision (P x)}
    `{!forall x, Decision (Q x)} (l : list A) :
  (forall x, x ∈ l -> P x <-> Q x) -> filter P l = filter Q l.
Proof.
  induction l as [|x l IH]; intros Hiff; [done |].
  rewrite !filter_cons.
  rewrite IH by (intros y Hy; apply Hiff; by right).
  destruct (decide (P x)) as [Hp | Hp], (decide (Q x)) as [Hq | Hq]; try done.
  - exfalso. apply Hq, Hiff; [by left | done].
  - exfalso. apply Hp, Hiff; [by left | done].
Qed.

(** The kept quizzes after the passes: they are the survivors, no two of
    them have one fingerprint, no two of them carry one identifier, and no
    two of them with one title were judged duplicates in their order. *)
Lemma dedupPasses_summary allQuizzes :
  NoDup (id <$> allQuizzes) ->
  let d := dedupPasses allQuizzes in
  let kept := filter (fun q => id q ∈ quizzesToKeep d) allQuizzes in
  (deleteAll allQuizzes (duplicatesToRemove d)).1 = kept
  /\ (forall a b, a ∈ kept -> b ∈ kept ->
        createContentHash a = createContentHash b -> a = b)
  /\ (forall a b, a ∈ kept -> b ∈ kept ->
        truthyS (uniqueId a) = true /\ uniqueId a = uniqueId b -> a = b)
  /\ ForallOrdPairs
       (fun a b => normalize (title a) = normalize (title b) ->
                   judgedDuplicate a b = false) kept.
Proof.
  intros Hnd d kept.
  pose proof (contentPass_inv allQuizzes Hnd) as (_ & H1b & _ & H1d).
  set (d1 := (contentPass allQuizzes).2) in *.
  pose proof (uniqueIdPass_inv allQuizzes d1 Hnd H1d) as (_ & H2b & H2c & H2d).
  set (d2 := (uniqueIdPass d1 allQuizzes).2) in *.
  assert (Hd : d = foldl titlePass_step d2 (buildTitleMap (quizzesToKeep d2) allQuizzes))
    by reflexivity.
  pose proof (titlePass_foldl_keep (buildTitleMap (quizzesToKeep d2) allQuizzes) d2) as H3c.
  pose proof (titlePass_foldl_dups allQuizzes
                (buildTitleMap (quizzesToKeep d2) allQuizzes)
                (buildTitleMap_members _ _) d2 H2d) as H3d.
  rewrite <- Hd in H3c, H3d.
  assert (Hkept : forall q, q ∈ kept <-> q ∈ allQuizzes /\ id q ∈ quizzesToKeep d).
  { intros q. unfold kept. rewrite list_elem_of_filter. tauto. }
  split; [| split; [| split]].
  - rewrite deleteAll_survivors. apply filter_iff_elem.
    intros q Hq. rewrite (H3d (id q)).
    split.
    + intros Hn. destruct (decide (id q ∈ quizzesToKeep d)) as [|Hk]; [done |].
      exfalso. apply Hn. split; [by apply list_elem_of_fmap_2 | done].
    + intros Hk [_ Hn]. done.
  - intros a b [Ha Hka]%Hkept [Hb Hkb]%Hkept Hh.
    assert (Hka1 : id a ∈ quizzesToKeep d1) by (by apply H2c, H3c).
    assert (Hkb1 : id b ∈ quizzesToKeep d1) by (by apply H2c, H3c).
    pose proof (H1b a Ha Hka1) as Ea. pose proof (H1b b Hb Hkb1) as Eb.
    rewrite Hh in Ea. rewrite Ea in Eb. congruence.
  - intros a b [Ha Hka]%Hkept [Hb Hkb]%Hkept [Hta Hu].
    destruct (uniqueId a) as [u|] eqn:Hua; [| discriminate].
    assert (Hka2 : id a ∈ quizzesToKeep d2) by (by apply H3c).
    assert (Hkb2 : id b ∈ quizzesToKeep d2) by (by apply H3c).
    assert (Htb : truthyS (uniqueId b) = true) by (by rewrite <- Hu).
    pose proof (H2b a u Ha Hka2) as Ea. rewrite Hua in Ea.
    pose proof (H2b b u Hb Hkb2 Htb (eq_sym Hu)) as Eb.
    rewrite (Ea Hta eq_refl) in Eb. congruence.
  - assert (Hfil : kept = filter (fun q => id q ∈ quizzesToKeep d)
                            (filter (fun q => id q ∈ quizzesToKeep d2) allQuizzes)).
    { unfold kept. rewrite list_filter_filter. apply list_filter_iff. set_solver. }
    rewrite Hfil. apply ForallOrdPairs_filter.
    eapply ForallOrdPairs_impl;
      [| apply (ForallOrdPairs_by_key (fun q => normalize (title q))
                  (fun a b => id a ∈ quizzesToKeep d -> id b ∈ quizzesToKeep d ->
                              judgedDuplicate a b = false))].
    + intros a b _ _ H Ha Hb Ht. by apply H.
    + intros t.
      destruct (filter (fun q => normalize (title q) = t)
                  (filter (fun q => id q ∈ quizzesToKeep d2) allQuizzes))
        as [|q l] eqn:Hf; [constructor |].
      assert (Hq : q ∈ filter (fun q => normalize (title q) = t)
                     (filter (fun q => id q ∈ quizzesToKeep d2) allQuizzes))
        by (rewrite Hf; by left).
      apply list_elem_of_filter in Hq as [Hqt Hq].
      apply list_elem_of_filter in Hq as [Hqk Hq].
      destruct (buildTitleMap_has_group _ _ q Hq Hqk) as (g & Hg).
      rewrite Hqt in Hg. rewrite <- Hf, <- (buildTitleMap_group _ _ _ _ Hg).
      apply (titlePass_foldl_verdicts _ d2 (quizzesToKeep d) (reflexivity _) t g Hg).
Qed.
(** *** A second run on the survivors *)

Lemma contentPass_foldl_distinct todo :
  forall (chm : gmap string Quiz) d,
    ForallOrdPairs (fun a b => createContentHash a <> createContentHash b) todo ->
    (forall q, q ∈ todo -> chm !! createContentHash q = None) ->
    duplicatesToRemove (foldl contentPass_step (chm, d) todo).2 = duplicatesToRemove d.
Proof.
  induction todo as [|x todo IH]; intros chm d Hpairs Hfresh; cbn [foldl]; [done |].
  inversion Hpairs as [|? ? Hx Hrest]; subst.
  unfold contentPass_step at 2. rewrite (Hfresh x) by (by left).
  rewrite IH; [done | done |].
  intros q Hq. rewrite lookup_insert_ne; [apply Hfresh; by right |].
  rewrite List.Forall_forall in Hx. apply Hx. by apply list_elem_of_In.
Qed.

Lemma uniqueIdPass_foldl_distinct todo :
  forall (uim : gmap string Quiz) d,
    ForallOrdPairs
      (fun a b => ~ (truthyS (uniqueId a) = true /\ uniqueId a = uniqueId b)) todo ->
    (forall q u, q ∈ todo -> truthyS (uniqueId q) = true -> uniqueId q = Some u ->
                 uim !! u = None) ->
    (foldl uniqueIdPass_step (uim, d) todo).2 = d.
Proof.
  induction todo as [|x todo IH]; intros uim d Hpairs Hfresh; cbn [foldl]; [done |].
  inversion Hpairs as [|? ? Hx Hrest]; subst.
  assert (Htail : forall q u, q ∈ todo -> truthyS (uniqueId q) = true ->
                    uniqueId q = Some u -> uim !! u = None)
    by (intros q u Hq; apply Hfresh; by right).
  unfold uniqueIdPass_step at 2.
  destruct (negb (bool_decide (id x ∈ quizzesToKeep d)) || negb (truthyS (uniqueId x)))
    eqn:Hskip; [by apply IH |].
  apply orb_false_iff in Hskip as [_ Htx]. apply negb_false_iff in Htx.
  destruct (uniqueId x) as [u|] eqn:Hux; [| by apply IH].
  rewrite (Hfresh x u); [| by left | by rewrite Hux | done].
  apply IH; [done |]. intros q u' Hq Htq Huq.
  rewrite lookup_insert_ne; [by eapply Htail |].
  intros ->. rewrite List.Forall_forall in Hx.
  apply (Hx q); [by apply list_elem_of_In |]. split; [done | congruence].
Qed.

Lemma compareWithLater_no_duplicate quiz1 later d :
  Forall (fun quiz2 => judgedDuplicate quiz1 quiz2 = false) later ->
  compareWithLater quiz1 later d = d.
Proof.
  induction 1 as [|quiz2 later Hj _ IH]; [done |].
  rewrite compareWithLater_cons, Hj, IH. by destruct (negb _).
Qed.

Lemma compareGroup_no_duplicate group d :
  ForallOrdPairs (fun a b => judgedDuplicate a b = false) group ->
  compareGroup group d = d.
Proof.
  induction 1 as [|quiz1 later H1 _ IH]; [done |]. cbn [compareGroup].
  rewrite (compareWithLater_no_duplicate _ _ _ H1). by destruct (bool_decide _).
Qed.

Lemma titlePass_no_duplicate d allQuizzes :
  ForallOrdPairs
    (fun a b => normalize (title a) = normalize (title b) ->
                judgedDuplicate a b = false) allQuizzes ->
  titlePass d allQuizzes = d.
Proof.
  intros Hpairs. unfold titlePass.
  assert (Hgroups : forall t g, (t, g) ∈ buildTitleMap (quizzesToKeep d) allQuizzes ->
            ForallOrdPairs (fun a b => judgedDuplicate a b = false) g).
  { intros t g Hin. rewrite (buildTitleMap_group _ _ _ _ Hin).
    apply ForallOrdPairs_filter, ForallOrdPairs_filter.
    eapply ForallOrdPairs_impl; [| exact Hpairs].
    intros a b _ _ H _ _ Ha Hb. apply H. congruence. }
  revert Hgroups. generalize (buildTitleMap (quizzesToKeep d) allQuizzes).
  intros tm. induction tm as [|[t g] tm IH]; intros Hgroups; cbn [foldl]; [done |].
  unfold titlePass_step at 2. cbn [snd].
  rewrite (compareGroup_no_duplicate g d) by (apply (Hgroups t); by left).
  destruct (1 <? List.length g)%nat; apply IH; intros t' g' Hin;
    apply (Hgroups t'); by right.
Qed.

Lemma syncUpsert_step_NoDup uuidv4 now st quizToSync :
  NoDup (id <$> quizCollection st) ->
  NoDup (id <$> quizCollection (syncUpsert_step uuidv4 now st quizToSync)).
Proof.
  intros Hnd.
  destruct (truthyS (i_uniqueId quizToSync)) eqn:Ht;
    [| unfold syncUpsert_step; by rewrite Ht].
  destruct (i_uniqueId quizToSync) as [u|] eqn:Hu; [| discriminate].
  destruct (getQuizByUniqueId u (quizCollection st)) as [e|] eqn:He.
  - rewrite (syncUpsert_step_update _ _ _ _ _ _ Hu Ht Hnd He). by apply mapSet_NoDup.
  - rewrite (syncUpsert_step_create _ _ _ _ _ Hu Ht He). by apply mapSet_NoDup.
Qed.

Lemma syncPurge_step_NoDup st quizToSync :
  NoDup (id <$> quizCollection st) ->
  NoDup (id <$> quizCollection (syncPurge_step st quizToSync)).
Proof.
  intros Hnd. unfold syncPurge_step.
  destruct (negb (i_isPublic quizToSync) && truthyS (i_uniqueId quizToSync)); [| done].
  destruct (i_uniqueId quizToSync) as [u|]; [| done].
  destruct (getQuizByUniqueId u (quizCollection st)) as [e|]; [| done].
  cbn [deleteQuiz fst quizCollection]. by apply NoDup_fmap_filter.
Qed.

Lemma syncPurged_NoDup uuidv4 now st quizzesToSync :
  NoDup (id <$> quizCollection st) ->
  NoDup (id <$> quizCollection (syncPurged uuidv4 now st quizzesToSync)).
Proof.
  intros Hnd. unfold syncPurged, syncUpserted.
  assert (Hup : forall l st0, NoDup (id <$> quizCollection st0) ->
            NoDup (id <$> quizCollection (foldl (syncUpsert_step uuidv4 now) st0 l))).
  { induction l as [|q l IH]; intros st0 H0; cbn [foldl]; [done |].
    by apply IH, syncUpsert_step_NoDup. }
  assert (Hpu : forall l st0, NoDup (id <$> quizCollection st0) ->
            NoDup (id <$> quizCollection (foldl syncPurge_step st0 l))).
  { induction l as [|q l IH]; intros st0 H0; cbn [foldl]; [done |].
    by apply IH, syncPurge_step_NoDup. }
  by apply Hpu, Hup.
Qed.

(** C8. In a collection with distinct keys, two records that survive
    [removeDuplicateQuizzes] and carry the same non-empty [uniqueId] are one
    record: whatever their fingerprints and titles, at most one record per
    identifier is left. The store a sync call leaves has this property. *)
Theorem dedup_one_record_per_identifier :
  (forall allQuizzes,
      NoDup (id <$> allQuizzes) ->
      forall a b,
        a ∈ survivors (removeDuplicateQuizzes allQuizzes) ->
        b ∈ survivors (removeDuplicateQuizzes allQuizzes) ->
        truthyS (uniqueId a) = true -> uniqueId a = uniqueId b -> a = b)
  /\ (forall uuidv4 now st quizzesToSync,
        NoDup (id <$> quizCollection st) ->
        forall a b,
          a ∈ quizCollection (syncQuizzes uuidv4 now st quizzesToSync).1 ->
          b ∈ quizCollection (syncQuizzes uuidv4 now st quizzesToSync).1 ->
          truthyS (uniqueId a) = true -> uniqueId a = uniqueId b -> a = b).
Proof.
  assert (Hdedup : forall allQuizzes,
      NoDup (id <$> allQuizzes) ->
      forall a b,
        a ∈ survivors (removeDuplicateQuizzes allQuizzes) ->
        b ∈ survivors (removeDuplicateQuizzes allQuizzes) ->
        truthyS (uniqueId a) = true -> uniqueId a = uniqueId b -> a = b).
  { intros allQuizzes Hnd a b. unfold removeDuplicateQuizzes.
    destruct (List.length allQuizzes <=? 1)%nat eqn:Hlen; cbn [survivors].
    - apply Nat.leb_le in Hlen. destruct allQuizzes as [|x [|y l]]; cbn in Hlen; [| | lia].
      + intros Ha. by apply elem_of_nil in Ha.
      + intros Ha Hb _ _. apply list_elem_of_singleton in Ha, Hb. congruence.
    - destruct (dedupPasses_summary allQuizzes Hnd) as (-> & _ & Huid & _).
      intros Ha Hb Ht Hu. by apply Huid. }
  split; [exact Hdedup |].
  intros uuidv4 now st quizzesToSync Hnd a b. unfold syncQuizzes. cbn [fst quizCollection].
  apply Hdedup. unfold deletePrivateQuizzes. cbn [fst quizCollection].
  rewrite deleteAll_survivors. apply NoDup_fmap_filter.
  apply syncPurged_NoDup, Hnd.
Qed.

Lemma dedup_one_record_per_identifier_witness :
  Forall (fun a =>
            Forall (fun b => truthyS (uniqueId a) = true ->
                             uniqueId a = uniqueId b -> a = b)
              (survivors (removeDuplicateQuizzes [quiz_edition_1; quiz_edition_2; quiz_other])))
    (survivors (removeDuplicateQuizzes [quiz_edition_1; quiz_edition_2; quiz_other])).
Proof.
  assert (Hnd : NoDup (id <$> [quiz_edition_1; quiz_edition_2; quiz_other])).
  { vm_compute. repeat constructor; set_solver. }
  apply Forall_forall. intros a Ha. apply Forall_forall. intros b Hb.
  exact (proj1 dedup_one_record_per_identifier
           [quiz_edition_1; quiz_edition_2; quiz_other] Hnd a b Ha Hb).
Defined.

(** C4. On a collection with distinct keys, [removeDuplicateQuizzes] run on
    the survivors of a first run removes nothing: its list of removed
    quizzes is empty, its count zero, and its survivors are its input. *)
Theorem dedup_idempotent allQuizzes :
  NoDup (id <$> allQuizzes) ->
  removeDuplicateQuizzes (survivors (removeDuplicateQuizzes allQuizzes))
  = mkResult (survivors (removeDuplicateQuizzes allQuizzes)) [] 0.
Proof.
  intros Hnd.
  assert (Hfix : forall l,
            NoDup (id <$> l) ->
            (forall a b, a ∈ l -> b ∈ l ->
                createContentHash a = createContentHash b -> a = b) ->
            (forall a b, a ∈ l -> b ∈ l ->
                truthyS (uniqueId a) = true /\ uniqueId a = uniqueId b -> a = b) ->
            ForallOrdPairs
              (fun a b => normalize (title a) = normalize (title b) ->
                          judgedDuplicate a b = false) l ->
            removeDuplicateQuizzes l = mkResult l [] 0).
  { intros l Hl Hhash Huid Htitle. unfold removeDuplicateQuizzes.
    destruct (List.length l <=? 1)%nat; [done |].
    assert (Hd : duplicatesToRemove (dedupPasses l) = []).
    { unfold dedupPasses.
      pose proof (contentPass_foldl_distinct l ∅ (mkDedup ∅ [])
                    (ForallOrdPairs_of_inj l _ Hl Hhash)
                    (fun q _ => lookup_empty _)) as H1.
      fold (contentPass l) in H1. cbn [duplicatesToRemove] in H1.
      pose proof (uniqueIdPass_foldl_distinct l ∅ (contentPass l).2
                    (ForallOrdPairs_of_inj l _ Hl Huid)
                    (fun q u _ _ _ => lookup_empty _)) as H2.
      fold (uniqueIdPass (contentPass l).2 l) in H2. rewrite H2.
      by rewrite titlePass_no_duplicate. }
    by rewrite Hd. }
  unfold removeDuplicateQuizzes at 2 3.
  destruct (List.length allQuizzes <=? 1)%nat eqn:Hlen; cbn [survivors].
  - unfold removeDuplicateQuizzes. by rewrite Hlen.
  - destruct (dedupPasses_summary allQuizzes Hnd) as (-> & Hhash & Huid & Htitle).
    apply Hfix; [by apply NoDup_fmap_filter | done | done | done].
Qed.

Lemma dedup_idempotent_witness :
  removeDuplicateQuizzes
    (survivors (removeDuplicateQuizzes [quiz_edition_1; quiz_edition_2; quiz_other]))
  = mkResult (survivors (removeDuplicateQuizzes [quiz_edition_1; quiz_edition_2; quiz_other]))
      [] 0.
Proof.
  apply (dedup_idempotent [quiz_edition_1; quiz_edition_2; quiz_other]).
  vm_compute. repeat constructor; set_solver.
Defined.

(** ** The collection as a map: lookup, insertion and deletion *)

Lemma mapSet_fresh quiz collection :
  id quiz ∉ id <$> collection -> mapSet quiz collection = (collection ++ [quiz])%list.
Proof.
  induction collection as [|q l IH]; intros Hfresh; cbn [mapSet]; [done |].
  rewrite fmap_cons, not_elem_of_cons in Hfresh. destruct Hfresh as [Hne Hfresh].
  rewrite bool_decide_eq_false_2 by congruence. by rewrite IH.
Qed.

Lemma mapGet_Some k collection q :
  mapGet k collection = Some q -> q ∈ collection /\ id q = k.
Proof.
  intros H. apply find_some_elem in H as [H1 H2].
  by apply bool_decide_eq_true in H2.
Qed.

Lemma mapGet_None k collection :
  mapGet k collection = None <-> k ∉ id <$> collection.
Proof.
  unfold mapGet. induction collection as [|q l IH]; simpl.
  - split; [intros _; apply not_elem_of_nil | done].
  - rewrite not_elem_of_cons. case_bool_decide as Hq.
    + split; [done | intros [Hne _]; congruence].
    + rewrite IH. split; [intros H; split; [congruence | done] | tauto].
Qed.

Lemma mapHas_mapGet k collection :
  mapHas k collection = true <-> is_Some (mapGet k collection).
Proof.
  unfold mapHas. rewrite bool_decide_eq_true.
  destruct (mapGet k collection) as [q|] eqn:Hq.
  - apply mapGet_Some in Hq as [Hin <-].
    split; [by eexists | intros _; by apply list_elem_of_fmap_2].
  - apply mapGet_None in Hq. split; [done | intros [? ?]; done].
Qed.

Lemma mapGet_mapDelete_eq k collection : mapGet k (mapDelete k collection) = None.
Proof.
  apply mapGet_None. unfold mapDelete. intros Hin.
  apply list_elem_of_fmap in Hin as (q & Hk & Hq).
  apply list_elem_of_filter in Hq as [Hne _]. by apply Hne.
Qed.

Lemma mapGet_mapDelete_ne k k' collection :
  k' <> k -> mapGet k' (mapDelete k collection) = mapGet k' collection.
Proof.
  intros Hne. unfold mapGet, mapDelete.
  induction collection as [|q l IH]; [done |].
  rewrite filter_cons. destruct (decide (id q ≠ k)) as [Hq | Hq]; simpl.
  - by rewrite IH.
  - rewrite IH. rewrite bool_decide_eq_false_2; [done |].
    intros Heq. apply Hq. congruence.
Qed.

Lemma deleteAll_count collection dups :
  NoDup (id <$> dups) ->
  (forall d, d ∈ dups -> id d ∈ id <$> collection) ->
  (deleteAll collection dups).2 = List.length dups.
Proof.
  unfold deleteAll.
  assert (H : forall dups collection n,
    NoDup (id <$> dups) ->
    (forall d, d ∈ dups -> id d ∈ id <$> collection) ->
    (foldl (fun acc quiz =>
              if mapHas (id quiz) acc.1
              then (mapDelete (id quiz) acc.1, S acc.2) else acc)
           (collection, n) dups).2 = (n + List.length dups)%nat).
  { clear. induction dups as [|d dups IH]; intros collection n Hnd Hin;
      cbn [foldl fst snd List.length]; [lia |].
    rewrite fmap_cons in Hnd. apply NoDup_cons in Hnd as [Hd Hnd].
    assert (Hhas : mapHas (id d) collection = true)
      by (apply bool_decide_eq_true_2, Hin; by left).
    rewrite Hhas.
    rewrite IH; [lia | done |].
    intros d' Hd'. pose proof (Hin d' (ltac:(by right))) as Hc.
    apply list_elem_of_fmap in Hc as (q & Hq & Hqc).
    apply list_elem_of_fmap. exists q. split; [done |].
    unfold mapDelete. apply list_elem_of_filter. split; [| done].
    intros Heq. apply Hd. rewrite <- Heq, <- Hq. by apply list_elem_of_fmap_2. }
  intros Hnd Hin. by rewrite (H dups collection 0%nat Hnd Hin).
Qed.

Lemma filter_bool_Prop {A} (f : A -> bool) (l : list A) :
  List.filter f l = filter (fun x => f x = true) l.
Proof.
  induction l as [|x l IH]; [done |]. simpl. rewrite filter_cons, IH.
  destruct (f x) eqn:Hf; destruct (decide _) as [Hd | Hd];
    first [done | by exfalso; apply Hd | discriminate Hd].
Qed.

Lemma filter_none {A} (P : A -> Prop) `{!forall x, Decision (P x)} (l : list A) :
  (forall x, x ∈ l -> ~ P x) -> filter P l = [].
Proof.
  induction l as [|x l IH]; intros Hnone; [done |].
  rewrite filter_cons_False by (apply Hnone; by left).
  apply IH. intros y Hy. apply Hnone. by right.
Qed.

(** ** The methods of the store *)

Section Methods.
Variable uuidv4 : nat -> string.
Variable now : Z.

Lemma createQuiz_collection st quiz :
  quizCollection (createQuiz uuidv4 now st quiz).1
  = mapSet (createQuiz uuidv4 now st quiz).2 (quizCollection st).
Proof. reflexivity. Qed.

Lemma keysBelowCounter_fresh st :
  keysBelowCounter st -> quizCurrentId st ∉ id <$> quizCollection st.
Proof.
  intros [_ Hlt] Hin. apply list_elem_of_fmap in Hin as (q & Hq & Hin).
  rewrite List.Forall_forall in Hlt. apply list_elem_of_In in Hin.
  specialize (Hlt q Hin). cbn beta in Hlt. lia.
Qed.

Lemma keysBelowCounter_snoc collection counter uuids quiz :
  keysBelowCounter (mkStorage collection counter uuids) ->
  id quiz = counter ->
  keysBelowCounter (mkStorage (collection ++ [quiz]) (counter + 1) uuids).
Proof.
  intros Hkeys Hid. pose proof (keysBelowCounter_fresh _ Hkeys) as Hfresh.
  destruct Hkeys as [Hnd Hlt]. cbn [quizCollection quizCurrentId] in *. split.
  - cbn [quizCollection]. rewrite fmap_app. apply NoDup_app. split; [done |]. split.
    + intros k Hk Hk'. apply list_elem_of_singleton in Hk'. subst k.
      rewrite Hid in Hk. done.
    + apply NoDup_singleton.
  - cbn [quizCollection quizCurrentId]. apply Forall_app. split.
    + eapply Forall_impl; [exact Hlt |]. intros q Hq. cbn beta in Hq |- *. lia.
    + apply Forall_singleton. lia.
Qed.

Lemma createQuiz_fresh st quiz :
  keysBelowCounter st ->
  quizCollection (createQuiz uuidv4 now st quiz).1
  = (quizCollection st ++ [(createQuiz uuidv4 now st quiz).2])%list.
Proof.
  intros Hkeys. rewrite createQuiz_collection. apply mapSet_fresh.
  by apply keysBelowCounter_fresh.
Qed.

Lemma createQuiz_keysBelowCounter st quiz :
  keysBelowCounter st -> keysBelowCounter (createQuiz uuidv4 now st quiz).1.
Proof.
  intros Hkeys. pose proof (createQuiz_fresh st quiz Hkeys) as Hcoll.
  destruct (createQuiz uuidv4 now st quiz) as [st' newQuiz] eqn:Hr.
  assert (Hid : id newQuiz = quizCurrentId st)
    by (by rewrite (surjective_pairing (createQuiz uuidv4 now st quiz)) in Hr;
        injection Hr as _ <-).
  assert (Hcnt : quizCurrentId st' = quizCurrentId st + 1)
    by (by rewrite (surjective_pairing (createQuiz uuidv4 now st quiz)) in Hr;
        injection Hr as <- _).
  cbn [fst snd] in *. destruct st' as [c n u]. cbn [quizCollection quizCurrentId] in *.
  subst c n. apply keysBelowCounter_snoc; [by destruct st | done].
Qed.

(** X1. In a store whose keys are distinct and below the counter,
    [createQuiz] stores the new quiz under the counter's value at the end of
    the collection: no stored quiz is overwritten, the new quiz is the one
    [getQuiz] finds under its key, every other key still leads to the quiz
    it led to, and the keys stay distinct and below the counter. *)
Theorem createQuiz_appends_under_fresh_key st quiz :
  keysBelowCounter st ->
  let r := createQuiz uuidv4 now st quiz in
  id r.2 = quizCurrentId st
  /\ quizCollection r.1 = (quizCollection st ++ [r.2])%list
  /\ getQuiz r.1 (id r.2) = Some r.2
  /\ (forall k, k <> id r.2 -> getQuiz r.1 k = getQuiz st k)
  /\ keysBelowCounter r.1.
Proof.
  intros Hkeys r. split; [done |]. split; [by apply createQuiz_fresh |].
  split; [| split].
  - unfold getQuiz, r. rewrite createQuiz_collection. apply mapGet_mapSet_eq.
  - intros k Hk. unfold getQuiz, r. rewrite createQuiz_collection.
    by apply mapGet_mapSet_ne.
  - by apply createQuiz_keysBelowCounter.
Qed.
End Methods.

(** X2. [updateQuiz] on a key that is not stored returns nothing and leaves
    the store as it was. On a stored key it returns the record it wrote,
    [getQuiz] finds that record under the key, every other key still leads
    to the quiz it led to, and the keys, their order and the counter are
    unchanged. *)
Theorem updateQuiz_replaces_in_place st k quizUpdate :
  let r := updateQuiz st k quizUpdate in
  match getQuiz st k with
  | None => r = (st, None)
  | Some existingQuiz =>
      r.2 = Some (overwritten existingQuiz quizUpdate)
      /\ getQuiz r.1 k = r.2
      /\ (forall k', k' <> k -> getQuiz r.1 k' = getQuiz st k')
      /\ id <$> quizCollection r.1 = id <$> quizCollection st
      /\ quizCurrentId r.1 = quizCurrentId st
  end.
Proof.
  intros r. unfold r, updateQuiz, getQuiz.
  destruct (mapGet k (quizCollection st)) as [e|] eqn:He; [| done].
  apply mapGet_Some in He as [Hin Hk]. cbn [fst snd quizCollection quizCurrentId].
  assert (Hid : id (overwritten e quizUpdate) = k) by done.
  split; [done |]. split; [| split; [| split]].
  - rewrite <- Hid at 1. apply mapGet_mapSet_eq.
  - intros k' Hk'. apply mapGet_mapSet_ne. by rewrite Hid.
  - rewrite mapSet_ids, bool_decide_eq_true_2; [done |].
    rewrite Hid, <- Hk. by apply list_elem_of_fmap_2.
  - done.
Qed.

(** X3. [deleteQuiz] answers [true] exactly when the key was stored.
    Afterwards the key leads to nothing, every other key leads to the quiz
    it led to, and deleting the same key again answers [false] and changes
    nothing. *)
Theorem deleteQuiz_removes_the_key st k :
  let r := deleteQuiz st k in
  (r.2 = true <-> is_Some (getQuiz st k))
  /\ getQuiz r.1 k = None
  /\ (forall k', k' <> k -> getQuiz r.1 k' = getQuiz st k')
  /\ deleteQuiz r.1 k = (r.1, false).
Proof.
  intros r. unfold r, deleteQuiz, getQuiz. cbn [fst snd quizCollection].
  split; [apply mapHas_mapGet |]. split; [apply mapGet_mapDelete_eq |].
  split; [intros k' Hk'; by apply mapGet_mapDelete_ne |].
  assert (Hhas : mapHas k (mapDelete k (quizCollection st)) = false).
  { destruct (mapHas k (mapDelete k (quizCollection st))) eqn:Hh; [| done].
    apply mapHas_mapGet in Hh. rewrite mapGet_mapDelete_eq in Hh.
    by destruct Hh. }
  cbn [quizCurrentId uuidCalls]. rewrite Hhas.
  by rewrite (mapDelete_absent _ _ Hhas).
Qed.

(** X4. On a store with distinct keys, [deletePrivateQuizzes] leaves exactly
    the public quizzes, in their order, and returns the number of private
    quizzes there were; called again, it deletes nothing and returns 0. *)
Theorem deletePrivateQuizzes_leaves_the_public st :
  NoDup (id <$> quizCollection st) ->
  let r := deletePrivateQuizzes st in
  quizCollection r.1 = getPublicQuizzes (quizCollection st)
  /\ r.2 = List.length (List.filter (fun q => negb (isPublic q)) (quizCollection st))
  /\ deletePrivateQuizzes r.1 = (r.1, 0%nat).
Proof.
  intros Hnd r.
  assert (Hcoll : forall st0, NoDup (id <$> quizCollection st0) ->
            quizCollection (deletePrivateQuizzes st0).1
            = getPublicQuizzes (quizCollection st0)).
  { intros st0 Hnd0. unfold deletePrivateQuizzes, getPublicQuizzes.
    cbn [fst quizCollection]. rewrite deleteAll_survivors, !filter_bool_Prop.
    apply filter_iff_elem. intros q Hq. split.
    - intros Hn. destruct (isPublic q) eqn:Hp; [done |]. exfalso. apply Hn.
      apply list_elem_of_fmap_2, list_elem_of_filter. by rewrite Hp.
    - intros Hp Hin. apply list_elem_of_fmap in Hin as (p & Hid & Hin).
      apply list_elem_of_filter in Hin as [Hpp Hin].
      assert (p = q) by (by apply (elem_of_ids_inj (quizCollection st0))).
      subst p. by rewrite Hp in Hpp. }
  assert (Hcount : forall st0, NoDup (id <$> quizCollection st0) ->
            (deletePrivateQuizzes st0).2
            = List.length (List.filter (fun q => negb (isPublic q)) (quizCollection st0))).
  { intros st0 Hnd0. unfold deletePrivateQuizzes. cbn [snd].
    apply deleteAll_count.
    - rewrite filter_bool_Prop. by apply NoDup_fmap_filter.
    - intros d Hd. rewrite filter_bool_Prop in Hd.
      apply list_elem_of_filter in Hd as [_ Hd]. by apply list_elem_of_fmap_2. }
  split; [by apply Hcoll |]. split; [by apply Hcount |].
  assert (Hnd' : NoDup (id <$> quizCollection r.1)).
  { unfold r. rewrite (Hcoll st Hnd). unfold getPublicQuizzes.
    rewrite filter_bool_Prop. by apply NoDup_fmap_filter. }
  assert (Hnone : List.filter (fun q => negb (isPublic q)) (quizCollection r.1) = []).
  { unfold r. rewrite (Hcoll st Hnd). unfold getPublicQuizzes.
    rewrite !filter_bool_Prop. apply filter_none.
    intros q Hq. apply list_elem_of_filter in Hq as [Hq _]. by rewrite Hq. }
  unfold deletePrivateQuizzes. rewrite Hnone, deleteAll_nil. cbn [fst snd].
  by destruct r.1.
Qed.

(** ** The sync call: keys, identifiers and the response *)

Lemma mapSet_keeps quiz collection q :
  q ∈ collection -> id q <> id quiz -> q ∈ mapSet quiz collection.
Proof.
  induction collection as [|x l IH]; intros Hq Hne; [by apply elem_of_nil in Hq |].
  cbn [mapSet]. apply elem_of_cons in Hq as [-> | Hq].
  - rewrite bool_decide_eq_false_2 by done. by left.
  - case_bool_decide; right; [done | by apply IH].
Qed.

Lemma mapSet_new quiz collection : quiz ∈ mapSet quiz collection.
Proof.
  induction collection as [|x l IH]; cbn [mapSet]; [by left |].
  case_bool_decide; [by left | by right].
Qed.

Lemma getQuizByUniqueId_is_Some u collection :
  is_Some (getQuizByUniqueId u collection)
  <-> exists q, q ∈ collection /\ uniqueId q = Some u.
Proof.
  split.
  - intros [e He]. apply getQuizByUniqueId_Some in He. by exists e.
  - intros (q & Hq & Hu).
    destruct (getQuizByUniqueId u collection) as [e|] eqn:He; [by eexists |].
    by destruct (getQuizByUniqueId_None _ _ q He Hq).
Qed.

Section SyncKeys.
Variable uuidv4 : nat -> string.
Variable now : Z.

(** One iteration of the first loop either leaves the collection, or
    replaces one record by a record with its key and its identifier, or
    appends a record under the counter's value. *)
Lemma syncUpsert_step_cases st quizToSync :
  keysBelowCounter st ->
  let st' := syncUpsert_step uuidv4 now st quizToSync in
  (st' = st /\ truthyS (i_uniqueId quizToSync) = false)
  \/ (exists e, e ∈ quizCollection st /\ uniqueId e = i_uniqueId quizToSync
        /\ truthyS (i_uniqueId quizToSync) = true
        /\ quizCollection st' = mapSet (overwritten e quizToSync) (quizCollection st)
        /\ uniqueId (overwritten e quizToSync) = uniqueId e
        /\ quizCurrentId st' = quizCurrentId st)
  \/ (exists newQuiz, id newQuiz = quizCurrentId st
        /\ uniqueId newQuiz = i_uniqueId quizToSync
        /\ truthyS (i_uniqueId quizToSync) = true
        /\ quizCollection st' = (quizCollection st ++ [newQuiz])%list
        /\ quizCurrentId st' = quizCurrentId st + 1).
Proof.
  intros Hkeys. cbv zeta. pose proof Hkeys as [Hnd _].
  destruct (truthyS (i_uniqueId quizToSync)) eqn:Ht.
  2:{ left. unfold syncUpsert_step. by rewrite Ht. }
  right. destruct (i_uniqueId quizToSync) as [u|] eqn:Hu; [| discriminate].
  destruct (getQuizByUniqueId u (quizCollection st)) as [e|] eqn:He.
  - left. exists e. pose proof (getQuizByUniqueId_Some _ _ _ He) as [Hin Hue].
    split; [done |]. split; [done |]. split; [done |].
    split; [exact (syncUpsert_step_update _ _ _ _ _ _ Hu Ht Hnd He) |]. split.
    + unfold overwritten. cbn [uniqueId]. by rewrite Hu, Hue.
    + unfold syncUpsert_step. rewrite Hu, Ht, He. cbn [negb].
      unfold updateQuiz. by rewrite (mapGet_elem _ _ Hnd Hin).
  - right. exists (inserted now (quizCurrentId st) quizToSync).
    split; [done |]. split; [by rewrite <- Hu |]. split; [done |]. split.
    + rewrite (syncUpsert_step_create _ _ _ _ _ Hu Ht He).
      apply mapSet_fresh. by apply keysBelowCounter_fresh.
    + unfold syncUpsert_step. rewrite Hu, Ht, He. cbn [negb].
      reflexivity.
Qed.

Lemma syncUpsert_step_keys st quizToSync :
  keysBelowCounter st ->
  keysBelowCounter (syncUpsert_step uuidv4 now st quizToSync)
  /\ quizCurrentId st <= quizCurrentId (syncUpsert_step uuidv4 now st quizToSync)
  /\ (id <$> quizCollection st)
       `prefix_of` (id <$> quizCollection (syncUpsert_step uuidv4 now st quizToSync)).
Proof.
  intros Hkeys.
  destruct (syncUpsert_step_cases st quizToSync Hkeys)
    as [[-> _] | [(e & Hin & _ & _ & Hcoll & _ & Hcnt)
                 | (newQuiz & Hid & _ & _ & Hcoll & Hcnt)]].
  - split; [done |]. split; [lia | reflexivity].
  - assert (Hids : id <$> quizCollection (syncUpsert_step uuidv4 now st quizToSync)
                   = id <$> quizCollection st).
    { rewrite Hcoll, mapSet_ids, bool_decide_eq_true_2; [done |].
      change (id (overwritten e quizToSync)) with (id e).
      by apply list_elem_of_fmap_2. }
    split; [| split; [lia | by rewrite Hids]].
    destruct Hkeys as [Hnd Hlt]. split; [by rewrite Hids |].
    rewrite Hcoll, Hcnt. apply Forall_forall. intros q Hq.
    rewrite List.Forall_forall in Hlt.
    destruct (mapSet_elem _ _ _ Hnd Hq) as [-> | [Hq' _]].
    + apply (Hlt e). by apply list_elem_of_In.
    + apply (Hlt q). by apply list_elem_of_In.
  - split; [| split; [lia |]].
    + destruct (syncUpsert_step uuidv4 now st quizToSync) as [c n u].
      cbn [quizCollection quizCurrentId] in *. subst c n.
      apply keysBelowCounter_snoc; [by destruct st | done].
    + rewrite Hcoll, fmap_app. by eexists.
Qed.

Lemma syncUpsert_step_holders st quizToSync u :
  keysBelowCounter st ->
  (exists q, q ∈ quizCollection st /\ uniqueId q = Some u) ->
  exists q, q ∈ quizCollection (syncUpsert_step uuidv4 now st quizToSync)
            /\ uniqueId q = Some u.
Proof.
  intros Hkeys (q & Hq & Hu). pose proof Hkeys as [Hnd _].
  destruct (syncUpsert_step_cases st quizToSync Hkeys)
    as [[-> _] | [(e & Hin & _ & _ & Hcoll & Huid & _)
                 | (newQuiz & _ & _ & _ & Hcoll & _)]].
  - by exists q.
  - rewrite Hcoll. destruct (decide (id q = id e)) as [Heq | Hne].
    + assert (q = e) by (by apply (elem_of_ids_inj (quizCollection st))). subst q.
      exists (overwritten e quizToSync). split; [apply mapSet_new | congruence].
    + exists q. split; [by apply mapSet_keeps | done].
  - rewrite Hcoll. exists q. split; [| done]. apply elem_of_app. by left.
Qed.

Lemma syncUpsert_step_stores st quizToSync u :
  keysBelowCounter st ->
  i_uniqueId quizToSync = Some u -> truthyS (Some u) = true ->
  exists q, q ∈ quizCollection (syncUpsert_step uuidv4 now st quizToSync)
            /\ uniqueId q = Some u.
Proof.
  intros Hkeys Hu Ht.
  destruct (syncUpsert_step_cases st quizToSync Hkeys)
    as [[_ Hf] | [(e & Hin & Hue & _ & Hcoll & Huid & _)
                 | (newQuiz & _ & Hnew & _ & Hcoll & _)]].
  - rewrite Hu, Ht in Hf. discriminate.
  - rewrite Hcoll. exists (overwritten e quizToSync).
    split; [apply mapSet_new | congruence].
  - rewrite Hcoll. exists newQuiz. split; [| congruence].
    apply elem_of_app. right. by left.
Qed.

Lemma foldl_syncUpsert_keys l st :
  keysBelowCounter st ->
  keysBelowCounter (foldl (syncUpsert_step uuidv4 now) st l)
  /\ quizCurrentId st <= quizCurrentId (foldl (syncUpsert_step uuidv4 now) st l)
  /\ (id <$> quizCollection st)
       `prefix_of` (id <$> quizCollection (foldl (syncUpsert_step uuidv4 now) st l)).
Proof.
  revert st. induction l as [|x l IH]; intros st Hkeys; cbn [foldl].
  - split; [done |]. split; [lia | reflexivity].
  - destruct (syncUpsert_step_keys st x Hkeys) as (H1 & H2 & H3).
    destruct (IH _ H1) as (H4 & H5 & H6).
    split; [done |]. split; [lia | by etrans].
Qed.

Lemma foldl_syncUpsert_holders l st u :
  keysBelowCounter st ->
  (exists q, q ∈ quizCollection st /\ uniqueId q = Some u) ->
  exists q, q ∈ quizCollection (foldl (syncUpsert_step uuidv4 now) st l)
            /\ uniqueId q = Some u.
Proof.
  revert st. induction l as [|x l IH]; intros st Hkeys Hq; cbn [foldl]; [done |].
  apply IH; [by apply syncUpsert_step_keys | by apply syncUpsert_step_holders].
Qed.

(** X5. In a store whose keys are distinct and below the counter, the
    first loop of the sync call deletes nothing: the keys it found are,
    in their order, the first keys of the collection it leaves; an
    identifier that some record carried is still carried by a record; and
    every public quiz of the batch that has an identifier finds a record
    under that identifier afterwards. *)
Theorem sync_upsert_keeps_and_stores st quizzesToSync :
  keysBelowCounter st ->
  let st' := syncUpserted uuidv4 now st quizzesToSync in
  (id <$> quizCollection st) `prefix_of` (id <$> quizCollection st')
  /\ (forall u, is_Some (getQuizByUniqueId u (quizCollection st)) ->
                is_Some (getQuizByUniqueId u (quizCollection st')))
  /\ (forall quiz u, quiz ∈ quizzesToSync -> i_isPublic quiz = true ->
        i_uniqueId quiz = Some u -> u <> EmptyString ->
        is_Some (getQuizByUniqueId u (quizCollection st'))).
Proof.
  intros Hkeys st'. subst st'. unfold syncUpserted. split; [| split].
  - by apply foldl_syncUpsert_keys.
  - intros u Hu. apply getQuizByUniqueId_is_Some.
    apply foldl_syncUpsert_holders; [done |]. by apply getQuizByUniqueId_is_Some.
  - intros quiz u Hq Hp Hu Hne. apply getQuizByUniqueId_is_Some.
    assert (Hin : quiz ∈ publicQuizzesToSync quizzesToSync).
    { unfold publicQuizzesToSync. apply list_elem_of_In, filter_In.
      split; [by apply list_elem_of_In | done]. }
    destruct (list_elem_of_split _ _ Hin) as (l1 & l2 & ->).
    rewrite foldl_app. cbn [foldl].
    apply foldl_syncUpsert_holders.
    + apply syncUpsert_step_keys. by apply foldl_syncUpsert_keys.
    + apply syncUpsert_step_stores; [by apply foldl_syncUpsert_keys | done |].
      by apply truthyS_Some_nonempty.
Qed.

Lemma keysBelowCounter_sublist st collection :
  keysBelowCounter st -> sublist collection (quizCollection st) ->
  keysBelowCounter (mkStorage collection (quizCurrentId st) (uuidCalls st)).
Proof.
  intros [Hnd Hlt] Hsub. split; cbn [quizCollection quizCurrentId].
  - eapply sublist_NoDup; [exact Hnd | by apply fmap_sublist].
  - apply Forall_forall. intros q Hq. rewrite Forall_forall in Hlt.
    apply (Hlt q). by apply (sublist_subseteq _ _ Hsub).
Qed.

Lemma syncPurge_step_sublist st quizToSync :
  sublist (quizCollection (syncPurge_step st quizToSync)) (quizCollection st)
  /\ quizCurrentId (syncPurge_step st quizToSync) = quizCurrentId st
  /\ uuidCalls (syncPurge_step st quizToSync) = uuidCalls st.
Proof.
  unfold syncPurge_step.
  destruct (negb (i_isPublic quizToSync) && truthyS (i_uniqueId quizToSync)); [| done].
  destruct (i_uniqueId quizToSync) as [u|]; [| done].
  destruct (getQuizByUniqueId u (quizCollection st)) as [e|]; [| done].
  cbn [deleteQuiz fst quizCollection quizCurrentId uuidCalls].
  split; [apply sublist_filter | done].
Qed.

Lemma foldl_syncPurge_sublist l st :
  sublist (quizCollection (foldl syncPurge_step st l)) (quizCollection st)
  /\ quizCurrentId (foldl syncPurge_step st l) = quizCurrentId st
  /\ uuidCalls (foldl syncPurge_step st l) = uuidCalls st.
Proof.
  revert st. induction l as [|x l IH]; intros st; cbn [foldl]; [done |].
  destruct (IH (syncPurge_step st x)) as (H1 & H2 & H3).
  destruct (syncPurge_step_sublist st x) as (H4 & H5 & H6).
  split; [by etrans | split; congruence].
Qed.

Lemma removeDuplicateQuizzes_sublist allQuizzes :
  sublist (survivors (removeDuplicateQuizzes allQuizzes)) allQuizzes.
Proof.
  unfold removeDuplicateQuizzes.
  destruct (List.length allQuizzes <=? 1)%nat; cbn [survivors]; [done |].
  rewrite deleteAll_survivors. apply sublist_filter.
Qed.

Lemma syncQuizzes_sublist st quizzesToSync :
  sublist (quizCollection (syncQuizzes uuidv4 now st quizzesToSync).1)
          (quizCollection (syncUpserted uuidv4 now st quizzesToSync))
  /\ quizCurrentId (syncQuizzes uuidv4 now st quizzesToSync).1
     = quizCurrentId (syncUpserted uuidv4 now st quizzesToSync).
Proof.
  unfold syncQuizzes, syncPurged, deletePrivateQuizzes.
  cbn [fst quizCollection quizCurrentId uuidCalls].
  destruct (foldl_syncPurge_sublist quizzesToSync
              (syncUpserted uuidv4 now st quizzesToSync)) as (H1 & H2 & _).
  split; [| done].
  etrans; [apply removeDuplicateQuizzes_sublist |].
  rewrite deleteAll_survivors. etrans; [apply sublist_filter | done].
Qed.

(** X6. The sync call keeps the keys of the store distinct and below the
    counter, and never lowers the counter: a key is never given twice. *)
Theorem sync_keeps_keys_below_counter st quizzesToSync :
  keysBelowCounter st ->
  keysBelowCounter (syncQuizzes uuidv4 now st quizzesToSync).1
  /\ quizCurrentId st <= quizCurrentId (syncQuizzes uuidv4 now st quizzesToSync).1.
Proof.
  intros Hkeys.
  destruct (foldl_syncUpsert_keys (publicQuizzesToSync quizzesToSync) st Hkeys)
    as (Hup & Hcnt & _).
  fold (syncUpserted uuidv4 now st quizzesToSync) in Hup, Hcnt.
  destruct (syncQuizzes_sublist st quizzesToSync) as [Hsub Heq].
  split; [| lia].
  pose proof (keysBelowCounter_sublist _ _ Hup Hsub) as H.
  destruct H as [Hnd Hlt]. cbn [quizCollection quizCurrentId] in Hnd, Hlt.
  split; [done |]. by rewrite Heq.
Qed.

(** X7. What the sync call returns is the whole collection it leaves, in
    its order; so is the response of the sync route. *)
Theorem sync_returns_the_whole_store st quizzesToSync :
  (syncQuizzes uuidv4 now st quizzesToSync).2
  = quizCollection (syncQuizzes uuidv4 now st quizzesToSync).1
  /\ (syncRoute uuidv4 now st quizzesToSync).2
     = quizCollection (syncRoute uuidv4 now st quizzesToSync).1.
Proof.
  assert (H : forall st0 batch,
            getPublicQuizzes (quizCollection (syncQuizzes uuidv4 now st0 batch).1)
            = quizCollection (syncQuizzes uuidv4 now st0 batch).1).
  { intros st0 batch. unfold getPublicQuizzes. rewrite filter_bool_Prop.
    apply filter_all. intros q Hq. unfold syncQuizzes in Hq.
    cbn [fst quizCollection] in Hq.
    apply removeDuplicateQuizzes_subset in Hq.
    apply deletePrivateQuizzes_public in Hq as [_ Hq]. exact Hq. }
  split; [apply H |]. unfold syncRoute. cbn [fst snd]. apply H.
Qed.
End SyncKeys.

(** ** The bookkeeping of the duplicate passes *)

Lemma dropQuiz_accounts allQuizzes d q w :
  q ∈ allQuizzes -> id q ∈ quizzesToKeep d ->
  w ∈ allQuizzes -> id w ∈ quizzesToKeep d -> id w <> id q ->
  passAccounts allQuizzes d -> passAccounts allQuizzes (dropQuiz q d).
Proof.
  intros Hq Hkq Hw Hkw Hne (Hnd & Hdups & Hsome).
  unfold passAccounts, dropQuiz. cbn [duplicatesToRemove quizzesToKeep].
  split; [| split].
  - rewrite fmap_app. apply NoDup_app. split; [done |]. split; [| apply NoDup_singleton].
    intros k Hk Hk'. apply list_elem_of_singleton in Hk'. subst k.
    apply list_elem_of_fmap in Hk as (p & Hid & Hp).
    destruct (Hdups p Hp) as [_ Hnk]. apply Hnk. by rewrite <- Hid.
  - intros p Hp. apply elem_of_app in Hp as [Hp | Hp].
    + destruct (Hdups p Hp) as [Hin Hnk]. split; [done | set_solver].
    + apply list_elem_of_singleton in Hp as ->. split; [done | set_solver].
  - intros _. exists w. split; [done | set_solver].
Qed.

Lemma passAccounts_weaken processed allQuizzes d :
  (forall q, q ∈ processed -> q ∈ allQuizzes) ->
  processed <> [] ->
  passAccounts processed d -> passAccounts allQuizzes d.
Proof.
  intros Hsub Hne (Hnd & Hdups & Hsome). split; [done |]. split.
  - intros q Hq. destruct (Hdups q Hq) as [Hin Hnk]. split; [by apply Hsub | done].
  - intros _. destruct (Hsome Hne) as (q & Hq & Hk). exists q. split; [by apply Hsub | done].
Qed.

Lemma contentPass_step_accounts processed st x :
  NoDup (id <$> processed) ->
  id x ∉ id <$> processed ->
  contentPassInv processed st ->
  passAccounts processed st.2 ->
  passAccounts (processed ++ [x]) (contentPass_step st x).2.
Proof.
  intros Hndp Hx (Ha & _ & Hc & _) (Hnd & Hdups & Hsome). destruct st as [chm d].
  cbn [fst snd] in *.
  assert (Hdx : forall q, q ∈ duplicatesToRemove d -> id q <> id x).
  { intros q Hq Heq. apply Hx. rewrite <- Heq.
    apply list_elem_of_fmap_2. by apply Hdups. }
  assert (Hnx : id x ∉ id <$> duplicatesToRemove d).
  { intros Hin. apply list_elem_of_fmap in Hin as (q & Hid & Hq).
    by apply (Hdx q Hq). }
  unfold contentPass_step.
  destruct (chm !! createContentHash x) as [e|] eqn:Hlook.
  - destruct (Ha _ _ Hlook) as (He & _ & Hke).
    assert (Hxe : id x <> id e).
    { intros Heq. apply Hx. rewrite Heq. by apply list_elem_of_fmap_2. }
    rewrite bool_decide_eq_false_2 by done.
    destruct (keepNew x e); unfold passAccounts;
      cbn [snd quizzesToKeep duplicatesToRemove].
    + split; [| split].
      * rewrite fmap_app. apply NoDup_app. split; [done |].
        split; [| apply NoDup_singleton].
        intros k Hk Hk'. apply list_elem_of_singleton in Hk'. subst k.
        apply list_elem_of_fmap in Hk as (p & Hid & Hp).
        destruct (Hdups p Hp) as [_ Hnk]. apply Hnk. by rewrite <- Hid.
      * intros p Hp. apply elem_of_app in Hp as [Hp | Hp].
        -- destruct (Hdups p Hp) as [Hin Hnk]. specialize (Hdx p Hp).
           split; [apply elem_of_app; by left | set_solver].
        -- apply list_elem_of_singleton in Hp as ->.
           split; [apply elem_of_app; by left | set_solver].
      * intros _. exists x. split; [apply elem_of_app; right; by left | set_solver].
    + split; [| split].
      * rewrite fmap_app. apply NoDup_app. split; [done |].
        split; [| apply NoDup_singleton].
        intros k Hk Hk'. apply list_elem_of_singleton in Hk'. by subst k.
      * intros p Hp. apply elem_of_app in Hp as [Hp | Hp].
        -- destruct (Hdups p Hp) as [Hin Hnk]. split; [apply elem_of_app; by left | done].
        -- apply list_elem_of_singleton in Hp as ->.
           split; [apply elem_of_app; right; by left |].
           intros Hk. by apply Hx, Hc.
      * intros _. exists e. split; [apply elem_of_app; by left | done].
  - unfold passAccounts; cbn [snd quizzesToKeep duplicatesToRemove].
    split; [done |]. split.
    + intros p Hp. destruct (Hdups p Hp) as [Hin Hnk]. specialize (Hdx p Hp).
      split; [apply elem_of_app; by left | set_solver].
    + intros _. exists x. split; [apply elem_of_app; right; by left | set_solver].
Qed.

Lemma contentPass_foldl_accounts todo :
  forall processed st,
    NoDup (id <$> (processed ++ todo)%list) ->
    contentPassInv processed st ->
    passAccounts processed st.2 ->
    passAccounts (processed ++ todo) (foldl contentPass_step st todo).2.
Proof.
  induction todo as [|x todo IH]; intros processed st Hnd Hinv Hacc; cbn [foldl].
  - by rewrite app_nil_r.
  - rewrite cons_middle, app_assoc in Hnd |- *.
    assert (Hnd1 : NoDup (id <$> processed) /\ id x ∉ id <$> processed).
    { rewrite fmap_app in Hnd. apply NoDup_app in Hnd as (Hnd & _ & _).
      rewrite fmap_app in Hnd. apply NoDup_app in Hnd as (Hnd1 & Hdisj & _).
      split; [done |]. intros Hin. apply (Hdisj _ Hin). cbn. by left. }
    destruct Hnd1 as [Hnd1 Hx].
    apply IH; [done | by apply contentPass_step_inv | by apply contentPass_step_accounts].
Qed.

Lemma contentPass_accounts allQuizzes :
  NoDup (id <$> allQuizzes) ->
  passAccounts allQuizzes (contentPass allQuizzes).2.
Proof.
  intros Hnd.
  apply (contentPass_foldl_accounts allQuizzes [] (∅, mkDedup ∅ []) Hnd);
    [apply contentPassInv_init |].
  unfold passAccounts. cbn [snd duplicatesToRemove quizzesToKeep].
  split; [rewrite fmap_nil; constructor |]. split; [| done].
  intros q Hq. by apply elem_of_nil in Hq.
Qed.

Lemma uniqueIdPass_step_accounts allQuizzes processed keep1 st x :
  NoDup (id <$> processed) ->
  id x ∉ id <$> processed ->
  x ∈ allQuizzes ->
  (forall q, q ∈ processed -> q ∈ allQuizzes) ->
  uniqueIdPassInv allQuizzes processed keep1 st ->
  passAccounts allQuizzes st.2 ->
  passAccounts allQuizzes (uniqueIdPass_step st x).2.
Proof.
  intros Hnd Hx Hxall Hsub (Ha & _ & _ & _) Hacc. destruct st as [uim d].
  cbn [fst snd] in *. unfold uniqueIdPass_step.
  destruct (negb (bool_decide (id x ∈ quizzesToKeep d)) || negb (truthyS (uniqueId x)))
    eqn:Hskip; [done |].
  apply orb_false_iff in Hskip as [Hkx _].
  apply negb_false_iff, bool_decide_eq_true in Hkx.
  destruct (uniqueId x) as [u|] eqn:Hux; [| done].
  destruct (uim !! u) as [e|] eqn:Hlook; [| done].
  destruct (Ha _ _ Hlook) as (He & _ & Hke).
  assert (Hxe : id x <> id e).
  { intros Heq. apply Hx. rewrite Heq. by apply list_elem_of_fmap_2. }
  rewrite bool_decide_eq_false_2 by done.
  destruct (keepNew x e); cbn [snd].
  - apply (dropQuiz_accounts allQuizzes d e x); try done. by apply Hsub.
  - apply (dropQuiz_accounts allQuizzes d x e); try done. by apply Hsub.
Qed.

Lemma uniqueIdPass_foldl_accounts allQuizzes keep1 todo :
  forall processed st,
    NoDup (id <$> (processed ++ todo)%list) ->
    (forall q, q ∈ (processed ++ todo)%list -> q ∈ allQuizzes) ->
    uniqueIdPassInv allQuizzes processed keep1 st ->
    passAccounts allQuizzes st.2 ->
    passAccounts allQuizzes (foldl uniqueIdPass_step st todo).2.
Proof.
  induction todo as [|x todo IH]; intros processed st Hnd Hsub Hinv Hacc; cbn [foldl];
    [done |].
  rewrite cons_middle, app_assoc in Hnd, Hsub.
  assert (Hnd1 : NoDup (id <$> processed) /\ id x ∉ id <$> processed).
  { rewrite fmap_app in Hnd. apply NoDup_app in Hnd as (Hnd & _ & _).
    rewrite fmap_app in Hnd. apply NoDup_app in Hnd as (Hnd1 & Hdisj & _).
    split; [done |]. intros Hin. apply (Hdisj _ Hin). cbn. by left. }
  destruct Hnd1 as [Hnd1 Hx].
  assert (Hxall : x ∈ allQuizzes) by (apply Hsub; set_solver).
  assert (Hsub1 : forall q, q ∈ processed -> q ∈ allQuizzes)
    by (intros q Hq; apply Hsub; set_solver).
  apply (IH (processed ++ [x])%list); [done | done | |].
  - by apply uniqueIdPass_step_inv.
  - by eapply uniqueIdPass_step_accounts.
Qed.

Lemma uniqueIdPass_accounts allQuizzes d1 :
  NoDup (id <$> allQuizzes) ->
  dupsAreDropped allQuizzes d1 ->
  passAccounts allQuizzes d1 ->
  passAccounts allQuizzes (uniqueIdPass d1 allQuizzes).2.
Proof.
  intros Hnd Hd Hacc.
  apply (uniqueIdPass_foldl_accounts allQuizzes (quizzesToKeep d1) allQuizzes [] (∅, d1));
    [done | done | | done].
  unfold uniqueIdPassInv. cbn [fst snd]. split; [| split; [| split]].
  - intros u q Hq. by rewrite lookup_empty in Hq.
  - intros q u Hq. by apply elem_of_nil in Hq.
  - done.
  - exact Hd.
Qed.

Lemma compareWithLater_accounts allQuizzes quiz1 later :
  quiz1 ∈ allQuizzes -> (forall q, q ∈ later -> q ∈ allQuizzes) ->
  id quiz1 ∉ id <$> later ->
  forall d, id quiz1 ∈ quizzesToKeep d ->
            passAccounts allQuizzes d ->
            passAccounts allQuizzes (compareWithLater quiz1 later d).
Proof.
  intros H1. induction later as [|quiz2 later IH]; intros Hsub Hfresh d Hk1 Hacc; [done |].
  assert (Hsub' : forall q, q ∈ later -> q ∈ allQuizzes)
    by (intros q Hq; apply Hsub; by right).
  rewrite fmap_cons, not_elem_of_cons in Hfresh. destruct Hfresh as [Hne Hfresh].
  rewrite compareWithLater_cons.
  destruct (bool_decide (id quiz2 ∈ quizzesToKeep d)) eqn:Hk2; cbn [negb];
    [| by apply IH].
  apply bool_decide_eq_true in Hk2.
  assert (H2 : quiz2 ∈ allQuizzes) by (apply Hsub; by left).
  destruct (judgedDuplicate quiz1 quiz2); [| by apply IH].
  destruct (keepQuiz1 quiz1 quiz2).
  - apply IH; [done | done | |].
    + cbn [dropQuiz quizzesToKeep]. set_solver.
    + by apply (dropQuiz_accounts allQuizzes d quiz2 quiz1).
  - by apply (dropQuiz_accounts allQuizzes d quiz1 quiz2).
Qed.

Lemma compareGroup_accounts allQuizzes group :
  (forall q, q ∈ group -> q ∈ allQuizzes) ->
  NoDup (id <$> group) ->
  forall d, passAccounts allQuizzes d ->
            passAccounts allQuizzes (compareGroup group d).
Proof.
  induction group as [|quiz1 later IH]; intros Hsub Hnd d Hacc; [done |].
  cbn [compareGroup].
  assert (Hsub' : forall q, q ∈ later -> q ∈ allQuizzes)
    by (intros q Hq; apply Hsub; by right).
  rewrite fmap_cons in Hnd. apply NoDup_cons in Hnd as [Hfresh Hnd].
  apply IH; [done | done |]. case_bool_decide as Hk1; [| done].
  apply compareWithLater_accounts; try done. apply Hsub. by left.
Qed.

Lemma titlePass_accounts allQuizzes d :
  NoDup (id <$> allQuizzes) ->
  passAccounts allQuizzes d -> passAccounts allQuizzes (titlePass d allQuizzes).
Proof.
  intros Hnd. unfold titlePass.
  assert (Hgroups : forall t g, (t, g) ∈ buildTitleMap (quizzesToKeep d) allQuizzes ->
            (forall q, q ∈ g -> q ∈ allQuizzes) /\ NoDup (id <$> g)).
  { intros t g Hin. split; [intros q; by apply (buildTitleMap_members (quizzesToKeep d) allQuizzes t g) |].
    rewrite (buildTitleMap_group _ _ _ _ Hin).
    by apply NoDup_fmap_filter, NoDup_fmap_filter. }
  revert Hgroups. generalize (buildTitleMap (quizzesToKeep d) allQuizzes) as tm.
  intros tm. revert d. induction tm as [|[t g] tm IH]; intros d Hgroups Hacc;
    cbn [foldl]; [done |].
  apply IH; [intros t' g' Hin; apply (Hgroups t'); by right |].
  unfold titlePass_step. cbn [snd]. destruct (1 <? _)%nat; [| done].
  destruct (Hgroups t g) as [Hsub Hndg]; [by left |].
  by apply compareGroup_accounts.
Qed.

Lemma dedupPasses_accounts allQuizzes :
  NoDup (id <$> allQuizzes) ->
  passAccounts allQuizzes (dedupPasses allQuizzes)
  /\ dupsAreDropped allQuizzes (dedupPasses allQuizzes).
Proof.
  intros Hnd. unfold dedupPasses.
  pose proof (contentPass_inv allQuizzes Hnd) as (_ & _ & _ & H1d).
  pose proof (contentPass_accounts allQuizzes Hnd) as H1.
  pose proof (uniqueIdPass_inv allQuizzes _ Hnd H1d) as (_ & _ & _ & H2d).
  pose proof (uniqueIdPass_accounts allQuizzes _ Hnd H1d H1) as H2.
  split.
  - by apply titlePass_accounts.
  - unfold titlePass. apply titlePass_foldl_dups; [| done].
    apply buildTitleMap_members.
Qed.

(** The list of duplicates is, up to its order, the list of the quizzes
    that are not kept. *)
Lemma dedupPasses_removed allQuizzes :
  NoDup (id <$> allQuizzes) ->
  duplicatesToRemove (dedupPasses allQuizzes)
  ≡ₚ filter (fun q => id q ∉ quizzesToKeep (dedupPasses allQuizzes)) allQuizzes.
Proof.
  intros Hnd. destruct (dedupPasses_accounts allQuizzes Hnd) as [(Hndd & Hdups & _) Hd].
  apply list.NoDup_Permutation.
  - exact (NoDup_fmap_1 id _ Hndd).
  - apply NoDup_filter. exact (NoDup_fmap_1 id _ Hnd).
  - intros q. rewrite list_elem_of_filter. split.
    + intros Hq. destruct (Hdups q Hq). done.
    + intros [Hnk Hq].
      assert (Hin : id q ∈ id <$> duplicatesToRemove (dedupPasses allQuizzes)).
      { apply Hd. split; [by apply list_elem_of_fmap_2 | done]. }
      apply list_elem_of_fmap in Hin as (p & Hid & Hp).
      destruct (Hdups p Hp) as [Hpall _].
      assert (p = q) by (by apply (elem_of_ids_inj allQuizzes)). by subst p.
Qed.

Lemma dedupPasses_survivors allQuizzes :
  NoDup (id <$> allQuizzes) ->
  (deleteAll allQuizzes (duplicatesToRemove (dedupPasses allQuizzes))).1
  = filter (fun q => id q ∈ quizzesToKeep (dedupPasses allQuizzes)) allQuizzes.
Proof.
  intros Hnd. destruct (dedupPasses_accounts allQuizzes Hnd) as [_ Hd].
  rewrite deleteAll_survivors. apply filter_iff_elem.
  intros q Hq. rewrite (Hd (id q)). split.
  - intros Hn. destruct (decide (id q ∈ quizzesToKeep (dedupPasses allQuizzes)))
      as [|Hk]; [done |].
    exfalso. apply Hn. split; [by apply list_elem_of_fmap_2 | done].
  - intros Hk [_ Hn]. done.
Qed.

(** X8. On a collection with distinct keys, [removeDuplicateQuizzes]
    accounts for every quiz: the survivors are quizzes of the collection in
    their order, the survivors and the removed quizzes together are the
    collection up to order, and the count it returns is the number of
    removed quizzes. *)
Theorem dedup_accounts_for_every_quiz allQuizzes :
  NoDup (id <$> allQuizzes) ->
  let r := removeDuplicateQuizzes allQuizzes in
  sublist (survivors r) allQuizzes
  /\ (survivors r ++ removed r)%list ≡ₚ allQuizzes
  /\ deleteCount r = List.length (removed r).
Proof.
  intros Hnd r. subst r. split; [apply removeDuplicateQuizzes_sublist |].
  unfold removeDuplicateQuizzes.
  destruct (List.length allQuizzes <=? 1)%nat; cbn [survivors removed deleteCount].
  { split; [by rewrite app_nil_r | done]. }
  destruct (dedupPasses_accounts allQuizzes Hnd) as [(Hndd & Hdups & _) _].
  split.
  - rewrite (dedupPasses_survivors _ Hnd), (dedupPasses_removed _ Hnd).
    apply filter_app_complement.
  - apply deleteAll_count; [done |].
    intros q Hq. apply list_elem_of_fmap_2. by apply Hdups.
Qed.

(** X9. On a collection with distinct keys that is not empty,
    [removeDuplicateQuizzes] leaves at least one quiz. *)
Theorem dedup_never_empties_the_store allQuizzes :
  NoDup (id <$> allQuizzes) -> allQuizzes <> [] ->
  survivors (removeDuplicateQuizzes allQuizzes) <> [].
Proof.
  intros Hnd Hne. unfold removeDuplicateQuizzes.
  destruct (List.length allQuizzes <=? 1)%nat; cbn [survivors]; [done |].
  destruct (dedupPasses_accounts allQuizzes Hnd) as [(_ & _ & Hsome) _].
  destruct (Hsome Hne) as (q & Hq & Hk).
  rewrite (dedupPasses_survivors _ Hnd). intros Hnil.
  assert (Hin : q ∈ filter (fun q => id q ∈ quizzesToKeep (dedupPasses allQuizzes))
                     allQuizzes) by (by apply list_elem_of_filter).
  rewrite Hnil in Hin. by apply elem_of_nil in Hin.
Qed.

(** X10. On a collection with distinct keys, no two survivors of
    [removeDuplicateQuizzes] have the same fingerprint, and of two
    survivors with the same normalised title the one met first was not
    judged a duplicate of the other. *)
Theorem dedup_survivors_are_pairwise_distinct allQuizzes :
  NoDup (id <$> allQuizzes) ->
  let kept := survivors (removeDuplicateQuizzes allQuizzes) in
  (forall a b, a ∈ kept -> b ∈ kept ->
      createContentHash a = createContentHash b -> a = b)
  /\ ForallOrdPairs
       (fun a b => normalize (title a) = normalize (title b) ->
                   judgedDuplicate a b = false) kept.
Proof.
  intros Hnd kept. subst kept. unfold removeDuplicateQuizzes.
  destruct (List.length allQuizzes <=? 1)%nat eqn:Hlen; cbn [survivors].
  - apply Nat.leb_le in Hlen. destruct allQuizzes as [|x [|y l]]; cbn in Hlen; [| | lia].
    + split; [| constructor]. intros a b Ha. by apply elem_of_nil in Ha.
    + split; [| repeat constructor].
      intros a b Ha Hb _. apply list_elem_of_singleton in Ha, Hb. congruence.
  - destruct (dedupPasses_summary allQuizzes Hnd) as (-> & Hhash & _ & Htitle).
    by split.
Qed.

(** ** The handlers that look a quiz up by its identifier *)

(** X11. The handler of [DELETE /api/quizzes/unique/:uniqueId] never
    answers 500: it answers 404 and leaves the store alone when no record
    carries the identifier, and otherwise deletes the first record that
    carries it and answers 200. When at most one key held the identifier,
    [GET /api/quizzes/unique/:uniqueId] answers 404 afterwards. *)
Theorem delete_by_identifier_route st uniqueIdParam :
  let r := deleteByUniqueIdRoute st uniqueIdParam in
  r.2 <> ServerError500
  /\ match getQuizByUniqueId uniqueIdParam (quizCollection st) with
     | None => r = (st, NotFound404)
     | Some quiz =>
         r.2 = Ok200 true
         /\ getQuiz r.1 (id quiz) = None
         /\ (forall k, k <> id quiz -> getQuiz r.1 k = getQuiz st k)
     end
  /\ (atMostOneHolder (Some uniqueIdParam) (quizCollection st) ->
      getByUniqueIdRoute r.1 uniqueIdParam = NotFound404).
Proof.
  intros r. subst r. unfold deleteByUniqueIdRoute, getByUniqueIdRoute.
  destruct (getQuizByUniqueId uniqueIdParam (quizCollection st)) as [quiz|] eqn:Hq.
  - pose proof (getQuizByUniqueId_Some _ _ _ Hq) as [Hin Hu].
    assert (Hhas : mapHas (id quiz) (quizCollection st) = true).
    { apply bool_decide_eq_true_2. by apply list_elem_of_fmap_2. }
    cbn [deleteQuiz fst snd]. rewrite Hhas. cbn [negb fst snd quizCollection].
    split; [done |]. split.
    + split; [done |]. unfold getQuiz. cbn [quizCollection].
      split; [apply mapGet_mapDelete_eq |].
      intros k Hk. by apply mapGet_mapDelete_ne.
    + intros Hone.
      destruct (getQuizByUniqueId uniqueIdParam (mapDelete (id quiz) (quizCollection st)))
        as [other|] eqn:Ho; [| done].
      exfalso. apply getQuizByUniqueId_Some in Ho as [Hoin Hou].
      unfold mapDelete in Hoin. apply list_elem_of_filter in Hoin as [Hne Hoin].
      apply Hne. by apply Hone.
  - split; [done |]. split; [done |]. intros _. cbn [fst]. by rewrite Hq.
Qed.

(** ** The in-memory backend on identified quizzes *)

Lemma mem_uniqueIdPass_distinct todo :
  forall (uim : gmap string Quiz) d,
    Forall (fun q => truthyS (uniqueId q) = true) todo ->
    NoDup (uniqueId <$> todo) ->
    (forall q u, q ∈ todo -> uniqueId q = Some u -> uim !! u = None) ->
    (foldl MemStorage.uniqueIdPass_step (uim, d) todo).2
    = mkDedup (list_to_set (id <$> todo) ∪ quizzesToKeep d) (duplicatesToRemove d).
Proof.
  induction todo as [|x todo IH]; intros uim d Hall Hnd Hfresh; cbn [foldl].
  - rewrite fmap_nil, list_to_set_nil, (left_id_L ∅ (∪)). by destruct d.
  - apply Forall_cons in Hall as [Hx Hall].
    rewrite fmap_cons in Hnd. apply NoDup_cons in Hnd as [Hxn Hnd].
    unfold MemStorage.uniqueIdPass_step at 2. rewrite Hx. cbn [negb].
    destruct (uniqueId x) as [u|] eqn:Hux; [| discriminate].
    rewrite (Hfresh x u); [| by left | done].
    rewrite IH; [| done | done |].
    + cbn [quizzesToKeep duplicatesToRemove]. f_equal.
      rewrite fmap_cons, list_to_set_cons. set_solver.
    + intros q u' Hq Huq. rewrite lookup_insert_ne; [apply (Hfresh q); [by right | done] |].
      intros ->. apply Hxn. rewrite <- Huq. by apply list_elem_of_fmap_2.
Qed.

Lemma mem_contentPass_identified todo :
  forall (chm : gmap string Quiz) d,
    Forall (fun q => truthyS (uniqueId q) = true) todo ->
    foldl MemStorage.contentPass_step (chm, d) todo = (chm, d).
Proof.
  induction todo as [|x todo IH]; intros chm d Hall; cbn [foldl]; [done |].
  apply Forall_cons in Hall as [Hx Hall].
  unfold MemStorage.contentPass_step at 2. rewrite Hx. cbn [negb].
  destruct (negb (bool_decide (id x ∈ quizzesToKeep d))); by apply IH.
Qed.

Lemma mem_compareWithLater_different quiz1 later d :
  Forall (fun quiz2 => MemStorage.differentUniqueIds quiz1 quiz2 = true) later ->
  MemStorage.compareWithLater quiz1 later d = d.
Proof.
  induction 1 as [|quiz2 later Hdiff _ IH]; [done |].
  cbn [MemStorage.compareWithLater]. rewrite Hdiff, IH.
  by destruct (negb (bool_decide (id quiz2 ∈ quizzesToKeep d))).
Qed.

Lemma mem_compareGroup_different group d :
  ForallOrdPairs (fun a b => MemStorage.differentUniqueIds a b = true) group ->
  MemStorage.compareGroup group d = d.
Proof.
  induction 1 as [|quiz1 later H1 _ IH]; [done |]. cbn [MemStorage.compareGroup].
  rewrite (mem_compareWithLater_different _ _ _ H1).
  by destruct (bool_decide (id quiz1 ∈ quizzesToKeep d)).
Qed.

Lemma ForallOrdPairs_NoDup_fmap {A B} (f : A -> B) (l : list A) :
  NoDup (f <$> l) -> ForallOrdPairs (fun a b => f a <> f b) l.
Proof.
  induction l as [|x l IH]; intros Hnd; [constructor |].
  rewrite fmap_cons in Hnd. apply NoDup_cons in Hnd as [Hx Hnd].
  constructor; [| by apply IH].
  apply List.Forall_forall. intros y Hy Heq. apply Hx. rewrite Heq.
  by apply list_elem_of_fmap_2, list_elem_of_In.
Qed.

(** X12. The in-memory backend never merges quizzes that carry different
    identifiers: on a collection in which every quiz has a [uniqueId] and no
    two quizzes have the same one, its [removeDuplicateQuizzes] removes
    nothing, whatever the titles and the questions are. *)
Theorem mem_dedup_keeps_distinct_identifiers allQuizzes :
  Forall (fun q => truthyS (uniqueId q) = true) allQuizzes ->
  NoDup (uniqueId <$> allQuizzes) ->
  MemStorage.removeDuplicateQuizzes allQuizzes = mkResult allQuizzes [] 0.
Proof.
  intros Hall Hnd.
  assert (Hd : duplicatesToRemove (MemStorage.dedupPasses allQuizzes) = []).
  { unfold MemStorage.dedupPasses, MemStorage.uniqueIdPass, MemStorage.contentPass.
    rewrite (mem_uniqueIdPass_distinct allQuizzes ∅ (mkDedup ∅ []) Hall Hnd)
      by (intros; apply lookup_empty).
    rewrite (mem_contentPass_identified allQuizzes _ _ Hall). cbn [snd].
    unfold MemStorage.titlePass.
    match goal with |- duplicatesToRemove (foldl _ ?d0 ?tm0) = _ =>
      assert (Hfold : foldl MemStorage.titlePass_step d0 tm0 = d0); [| by rewrite Hfold]
    end.
    match goal with |- foldl _ ?d0 (buildTitleMap ?keep _) = _ =>
      assert (Hgroups : forall t g, (t, g) ∈ buildTitleMap keep allQuizzes ->
                ForallOrdPairs (fun a b => MemStorage.differentUniqueIds a b = true) g);
      [| revert Hgroups; generalize (buildTitleMap keep allQuizzes); generalize d0 ]
    end.
    - intros t g Hin. rewrite (buildTitleMap_group _ _ _ _ Hin).
      apply ForallOrdPairs_filter, ForallOrdPairs_filter.
      eapply ForallOrdPairs_impl; [| apply (ForallOrdPairs_NoDup_fmap uniqueId _ Hnd)].
      intros a b Ha Hb Hne _ _ _ _. unfold MemStorage.differentUniqueIds.
      rewrite Forall_forall in Hall.
      rewrite (Hall a Ha), (Hall b Hb). by rewrite bool_decide_eq_false_2.
    - intros d tm. revert d. induction tm as [|[t g] tm IH]; intros d Hgroups;
        cbn [foldl]; [done |].
      unfold MemStorage.titlePass_step at 2. cbn [snd].
      rewrite (mem_compareGroup_different g d) by (apply (Hgroups t); by left).
      destruct (1 <? List.length g)%nat; apply IH; intros t' g' Hin;
        apply (Hgroups t'); by right. }
  unfold MemStorage.removeDuplicateQuizzes. rewrite Hd. by rewrite deleteAll_nil.
Qed.

(** ** The properties of the store on the example records *)

Lemma storage_with_capitals_keys : keysBelowCounter storage_with_capitals.
Proof.
  split.
  - vm_compute. repeat constructor. set_solver.
  - repeat constructor.
Qed.

Lemma editions_distinct_keys :
  NoDup (id <$> [quiz_edition_1; quiz_edition_2; quiz_other]).
Proof. vm_compute. repeat constructor; set_solver. Qed.

Lemma createQuiz_appends_under_fresh_key_witness :
  quizCollection (createQuiz exampleUuid exampleNow storage_with_capitals capitals).1
  = [stored_capitals;
     mkQuiz 2 (Some "uuid-0") "Capitals" (i_questions capitals) true (Some 1) (Some 100)].
Proof.
  destruct (createQuiz_appends_under_fresh_key exampleUuid exampleNow
              storage_with_capitals capitals storage_with_capitals_keys)
    as (_ & Hcoll & _).
  exact Hcoll.
Defined.

Lemma deletePrivateQuizzes_leaves_the_public_witness :
  quizCollection (deletePrivateQuizzes storage_with_draft).1 = [stored_capitals]
  /\ (deletePrivateQuizzes storage_with_draft).2 = 1%nat.
Proof.
  assert (Hnd : NoDup (id <$> quizCollection storage_with_draft)).
  { vm_compute. repeat constructor; set_solver. }
  destruct (deletePrivateQuizzes_leaves_the_public storage_with_draft Hnd)
    as (Hcoll & Hcount & _).
  split; [exact Hcoll | exact Hcount].
Defined.

Lemma sync_upsert_keeps_and_stores_witness :
  is_Some (getQuizByUniqueId "id-a"
             (quizCollection
                (syncUpserted exampleUuid exampleNow storage_with_capitals
                   [stale_edition]))).
Proof.
  destruct (sync_upsert_keeps_and_stores exampleUuid exampleNow storage_with_capitals
              [stale_edition] storage_with_capitals_keys) as (_ & _ & Hstored).
  apply (Hstored stale_edition "id-a"); [by left | reflexivity | reflexivity | discriminate].
Defined.

Lemma sync_keeps_keys_below_counter_witness :
  keysBelowCounter
    (syncQuizzes exampleUuid exampleNow storage_with_capitals [stale_edition]).1.
Proof.
  exact (proj1 (sync_keeps_keys_below_counter exampleUuid exampleNow
                  storage_with_capitals [stale_edition] storage_with_capitals_keys)).
Defined.

Lemma dedup_accounts_for_every_quiz_witness :
  deleteCount (removeDuplicateQuizzes [quiz_edition_1; quiz_edition_2; quiz_other])
  = List.length (removed (removeDuplicateQuizzes [quiz_edition_1; quiz_edition_2; quiz_other])).
Proof.
  exact (proj2 (proj2 (dedup_accounts_for_every_quiz
                         [quiz_edition_1; quiz_edition_2; quiz_other]
                         editions_distinct_keys))).
Defined.

Lemma dedup_never_empties_the_store_witness :
  survivors (removeDuplicateQuizzes [quiz_edition_1; quiz_edition_2; quiz_other]) <> [].
Proof.
  apply (dedup_never_empties_the_store [quiz_edition_1; quiz_edition_2; quiz_other]
           editions_distinct_keys).
  discriminate.
Defined.

Lemma dedup_survivors_are_pairwise_distinct_witness :
  ForallOrdPairs
    (fun a b => normalize (title a) = normalize (title b) ->
                judgedDuplicate a b = false)
    (survivors (removeDuplicateQuizzes [quiz_edition_1; quiz_edition_2; quiz_other])).
Proof.
  exact (proj2 (dedup_survivors_are_pairwise_distinct
                  [quiz_edition_1; quiz_edition_2; quiz_other] editions_distinct_keys)).
Defined.

Lemma delete_by_identifier_route_witness :
  getByUniqueIdRoute (deleteByUniqueIdRoute storage_with_capitals "id-a").1 "id-a"
  = NotFound404.
Proof.
  apply (delete_by_identifier_route storage_with_capitals "id-a").
  intros a b Ha Hb _ _.
  apply list_elem_of_singleton in Ha. apply list_elem_of_singleton in Hb. by subst.
Defined.

Lemma mem_dedup_keeps_distinct_identifiers_witness :
  MemStorage.removeDuplicateQuizzes [quiz_shared_a; quiz_shared_b]
  = mkResult [quiz_shared_a; quiz_shared_b] [] 0.
Proof.
  apply (mem_dedup_keeps_distinct_identifiers [quiz_shared_a; quiz_shared_b]).
  - repeat constructor.
  - vm_compute. repeat constructor; set_solver.
Defined.

(** ** The client's duplicate passes *)

Lemma findIndex_Some {A} (p : A -> bool) l i :
  Client.findIndex p l = Some i -> exists y, l !! i = Some y /\ p y = true.
Proof.
  revert i. induction l as [|x l IH]; intros i; cbn [Client.findIndex]; [done |].
  destruct (p x) eqn:Hp.
  - intros [= <-]. by exists x.
  - destruct (Client.findIndex p l) as [j|]; [| done].
    intros [= <-]. destruct (IH j eq_refl) as (y & Hy & Hpy). by exists y.
Qed.

Lemma findIndex_None {A} (p : A -> bool) l y :
  Client.findIndex p l = None -> y ∈ l -> p y = false.
Proof.
  induction l as [|x l IH]; cbn [Client.findIndex]; intros Hf Hy;
    [by apply elem_of_nil in Hy |].
  destruct (p x) eqn:Hp; [done |].
  destruct (Client.findIndex p l) as [j|]; [done |].
  apply elem_of_cons in Hy as [-> | Hy]; [done | by apply IH].
Qed.

Lemma NoDup_fmap_lookup_inj {A B} (f : A -> B) (l : list A) i j a b :
  NoDup (f <$> l) -> l !! i = Some a -> l !! j = Some b -> f a = f b -> i = j.
Proof.
  intros Hnd Hi Hj Hf. apply (NoDup_lookup (f <$> l) i j (f a)); [done | |].
  - by rewrite list_lookup_fmap, Hi.
  - by rewrite list_lookup_fmap, Hj, Hf.
Qed.

Lemma insert_Permutation {A} (l : list A) i x y :
  l !! i = Some y -> (<[i := x]> l ++ [y])%list ≡ₚ x :: l.
Proof.
  intros Hi. pose proof (lookup_lt_Some _ _ _ Hi) as Hlt.
  rewrite insert_take_drop by done.
  rewrite <- (take_drop_middle l i y Hi) at 3.
  generalize (take i l) (drop (S i) l). intros a b.
  rewrite <- (Permutation_middle a b x), <- (Permutation_middle a b y).
  cbn [app]. constructor. symmetry. apply Permutation_cons_append.
Qed.

Lemma elem_of_insert_inv {A} (l : list A) i x q :
  q ∈ <[i := x]> l -> q = x \/ exists j, j <> i /\ l !! j = Some q.
Proof.
  intros Hq. apply list_elem_of_lookup_1 in Hq as [j Hj].
  destruct (decide (j = i)) as [-> | Hne].
  - left. destruct (decide (i < List.length l)%nat) as [Hlt | Hge].
    + rewrite list_lookup_insert_eq in Hj by done. congruence.
    + rewrite list_insert_ge in Hj by lia.
      apply lookup_lt_Some in Hj. lia.
  - right. exists j. split; [done |]. by rewrite list_lookup_insert_ne in Hj.
Qed.

Lemma filter_snoc {A} (P : A -> Prop) `{!forall x, Decision (P x)} (l : list A) x :
  filter P (l ++ [x])%list = if decide (P x) then (filter P l ++ [x])%list else filter P l.
Proof.
  rewrite filter_app. cbn [filter]. rewrite filter_cons, filter_nil.
  destruct (decide (P x)); [done | by rewrite app_nil_r].
Qed.

Lemma client_uniqueIdPass_step_inv processed st x :
  clientIdPassInv processed st ->
  clientIdPassInv (processed ++ [x]) (Client.uniqueIdPass_step st x).
Proof.
  intros (Ha & Hb & Hc & Hd). unfold Client.uniqueIdPass_step.
  destruct (truthyS (i_uniqueId x)) eqn:Ht.
  2:{ split; [done |]. split; [done |]. split; [done |].
      rewrite filter_snoc. destruct (decide (identified x)) as [Hi | Hi]; [| done].
      unfold identified in Hi. congruence. }
  assert (Hfil : filter identified (processed ++ [x])%list
                 = (filter identified processed ++ [x])%list).
  { rewrite filter_snoc. destruct (decide (identified x)) as [Hi | Hi]; [done |].
    by destruct Hi. }
  destruct (i_uniqueId x) as [u|] eqn:Hu; [| discriminate].
  destruct (Client.uniqueIdMap st !! u) as [e|] eqn:Hlook.
  - destruct (Ha _ _ Hlook) as [Hein Heu].
    destruct (Client.isNewer x e).
    + destruct (Client.findIndex _ (Client.uniqueQuizzes st)) as [i|] eqn:Hfi.
      * apply findIndex_Some in Hfi as (e' & Hi & Hp).
        apply bool_decide_eq_true in Hp.
        apply list_elem_of_lookup_1 in Hein as [j Hj].
        assert (i = j).
        { apply (NoDup_fmap_lookup_inj i_uniqueId (Client.uniqueQuizzes st) i j e' e);
            try done. congruence. }
        subst j. assert (e' = e) by congruence. subst e'.
        pose proof (lookup_lt_Some _ _ _ Hi) as Hlt.
        unfold clientIdPassInv.
        cbn [Client.uniqueIdMap Client.uniqueQuizzes Client.duplicatesRemoved].
        split; [| split; [| split]].
        -- intros u' q. rewrite lookup_insert. case_decide as Hu'.
           ++ intros [= <-]. subst u'. split; [| done].
              apply (list_elem_of_lookup_2 _ i). by apply list_lookup_insert_eq.
           ++ intros Hq. destruct (Ha _ _ Hq) as [Hqin Hqu]. split; [| done].
              apply list_elem_of_lookup_1 in Hqin as [k Hk].
              apply (list_elem_of_lookup_2 _ k). rewrite list_lookup_insert_ne; [done |].
              intros <-. congruence.
        -- intros q Hq. apply elem_of_insert_inv in Hq as [-> | (k & Hne & Hk)].
           ++ split; [unfold identified; by rewrite Hu |].
              intros u' Hu'. assert (u' = u) by congruence. subst u'.
              by rewrite lookup_insert_eq.
           ++ destruct (Hb q (list_elem_of_lookup_2 _ _ _ Hk)) as [Hqi Hqm].
              split; [done |]. intros u' Hu'. rewrite lookup_insert_ne; [by apply Hqm |].
              intros <-. apply Hne.
              apply (NoDup_fmap_lookup_inj i_uniqueId (Client.uniqueQuizzes st) k i q e);
                try done. congruence.
        -- rewrite list_fmap_insert, list_insert_id; [done |].
           rewrite list_lookup_fmap, Hi. cbn. by rewrite Heu, Hu.
        -- rewrite Hfil, <- Hd.
           rewrite <- (Permutation_cons_append _ x).
           rewrite (Permutation_app_comm (Client.duplicatesRemoved st) [e]).
           rewrite app_assoc, (insert_Permutation _ i x e Hi). done.
      * exfalso. pose proof (findIndex_None _ _ e Hfi Hein) as Hp. cbn beta in Hp.
        rewrite bool_decide_eq_true_2 in Hp; [done | congruence].
    + unfold clientIdPassInv.
      cbn [Client.uniqueIdMap Client.uniqueQuizzes Client.duplicatesRemoved].
      split; [done |]. split; [done |]. split; [done |].
      by rewrite Hfil, <- Hd, app_assoc.
  - unfold clientIdPassInv.
    cbn [Client.uniqueIdMap Client.uniqueQuizzes Client.duplicatesRemoved].
    split; [| split; [| split]].
    + intros u' q. rewrite lookup_insert. case_decide as Hu'.
      * intros [= <-]. subst u'. split; [| done]. apply elem_of_app. right. by left.
      * intros Hq. destruct (Ha _ _ Hq) as [Hqin Hqu]. split; [| done].
        apply elem_of_app. by left.
    + intros q Hq. apply elem_of_app in Hq as [Hq | Hq].
      * destruct (Hb q Hq) as [Hqi Hqm]. split; [done |].
        intros u' Hu'. rewrite lookup_insert_ne; [by apply Hqm |].
        intros <-. rewrite (Hqm u Hu') in Hlook. discriminate.
      * apply list_elem_of_singleton in Hq as ->.
        split; [unfold identified; by rewrite Hu |].
        intros u' Hu'. assert (u' = u) by congruence. subst u'. by rewrite lookup_insert_eq.
    + rewrite fmap_app. apply NoDup_app. split; [done |]. split; [| apply NoDup_singleton].
      intros uo Hin Hin'. apply list_elem_of_singleton in Hin'. subst uo.
      apply list_elem_of_fmap in Hin as (q & Hqu & Hq).
      destruct (Hb q Hq) as [_ Hqm]. rewrite Hu in Hqu.
      rewrite (Hqm u (eq_sym Hqu)) in Hlook. discriminate.
    + rewrite Hfil, <- Hd, <- !app_assoc. f_equiv. apply Permutation_app_comm.
Qed.

Lemma client_uniqueIdPass_foldl_inv todo :
  forall processed st,
    clientIdPassInv processed st ->
    clientIdPassInv (processed ++ todo) (foldl Client.uniqueIdPass_step st todo).
Proof.
  induction todo as [|x todo IH]; intros processed st Hinv; cbn [foldl].
  - by rewrite app_nil_r.
  - rewrite cons_middle, app_assoc. by apply IH, client_uniqueIdPass_step_inv.
Qed.

Lemma client_uniqueIdPass_inv prevQuizzes :
  clientIdPassInv prevQuizzes
    (foldl Client.uniqueIdPass_step (Client.mkPasses ∅ ∅ [] []) prevQuizzes).
Proof.
  apply (client_uniqueIdPass_foldl_inv prevQuizzes []).
  unfold clientIdPassInv.
  cbn [Client.uniqueIdMap Client.uniqueQuizzes Client.duplicatesRemoved].
  split; [| split; [| split]].
  - intros u q Hq. by rewrite lookup_empty in Hq.
  - intros q Hq. by apply elem_of_nil in Hq.
  - rewrite fmap_nil. constructor.
  - done.
Qed.

Lemma client_uniqueIdPass_contentHashMap todo :
  forall st, Client.contentHashMap (foldl Client.uniqueIdPass_step st todo)
             = Client.contentHashMap st.
Proof.
  induction todo as [|x todo IH]; intros st; cbn [foldl]; [done |].
  rewrite IH. unfold Client.uniqueIdPass_step.
  destruct (truthyS (i_uniqueId x)); [| done].
  destruct (i_uniqueId x) as [u|]; [| done].
  destruct (Client.uniqueIdMap st !! u) as [e|]; [| done].
  destruct (Client.isNewer x e); [| done].
  by destruct (Client.findIndex _ _).
Qed.

Lemma client_contentPass_step_inv identifiedQuizzes dups1 processed st x :
  clientContentPassInv identifiedQuizzes dups1 processed st ->
  clientContentPassInv identifiedQuizzes dups1 (processed ++ [x])
    (Client.contentPass_step st x).
Proof.
  intros (others & Hu & Hno & Hnd & Hdom & Hperm).
  unfold clientContentPassInv, Client.contentPass_step. rewrite filter_snoc.
  destruct (decide (~ identified x)) as [Hx | Hx].
  2:{ assert (Ht : truthyS (i_uniqueId x) = true).
      { destruct (truthyS (i_uniqueId x)) eqn:E; [done |].
        exfalso. apply Hx. unfold identified. congruence. }
      rewrite Ht. cbn [negb]. by exists others. }
  assert (Ht : truthyS (i_uniqueId x) = false).
  { destruct (truthyS (i_uniqueId x)) eqn:E; [| done]. by destruct Hx. }
  rewrite Ht. cbn [negb].
  destruct (Client.contentHashMap st !! createQuizContentHash x) as [e|] eqn:Hlook.
  - exists others. cbn [Client.uniqueQuizzes Client.contentHashMap Client.duplicatesRemoved].
    split; [done |]. split; [done |]. split; [done |]. split; [done |].
    by rewrite !app_assoc, Hperm.
  - exists (others ++ [x])%list.
    cbn [Client.uniqueQuizzes Client.contentHashMap Client.duplicatesRemoved].
    assert (Hfresh : createQuizContentHash x ∉ createQuizContentHash <$> others).
    { intros Hin. apply Hdom in Hin. rewrite Hlook in Hin. by destruct Hin. }
    split; [by rewrite Hu, app_assoc |]. split; [| split; [| split]].
    + apply Forall_app. split; [done | by apply Forall_singleton].
    + rewrite fmap_app. apply NoDup_app. split; [done |].
      split; [| apply NoDup_singleton].
      intros h Hin Hin'. apply list_elem_of_singleton in Hin'. by subst h.
    + intros h. rewrite fmap_app, elem_of_app, <- Hdom, lookup_insert.
      cbn [fmap list_fmap]. rewrite list_elem_of_singleton. case_decide as Hh.
      * split; [intros _; by right | intros _; by eexists].
      * split; [intros Hs; by left | intros [Hs | Hs]; [done | congruence]].
    + rewrite app_assoc, <- Hperm, <- !app_assoc. f_equiv. apply Permutation_app_comm.
Qed.

Lemma client_contentPass_foldl_inv identifiedQuizzes dups1 todo :
  forall processed st,
    clientContentPassInv identifiedQuizzes dups1 processed st ->
    clientContentPassInv identifiedQuizzes dups1 (processed ++ todo)
      (foldl Client.contentPass_step st todo).
Proof.
  induction todo as [|x todo IH]; intros processed st Hinv; cbn [foldl].
  - by rewrite app_nil_r.
  - rewrite cons_middle, app_assoc. by apply IH, client_contentPass_step_inv.
Qed.

(** The first two passes leave the identified quizzes, no two of them with
    the same identifier, followed by quizzes without identifier, no two of
    them with the same fingerprint; with the duplicates they are the list
    the passes were given. *)
Lemma client_firstPasses_inv prevQuizzes :
  exists identifiedQuizzes others,
    Client.uniqueQuizzes (Client.firstPasses prevQuizzes)
    = (identifiedQuizzes ++ others)%list
    /\ Forall identified identifiedQuizzes
    /\ NoDup (i_uniqueId <$> identifiedQuizzes)
    /\ Forall (fun q => ~ identified q) others
    /\ NoDup (createQuizContentHash <$> others)
    /\ (Client.uniqueQuizzes (Client.firstPasses prevQuizzes)
        ++ Client.duplicatesRemoved (Client.firstPasses prevQuizzes))%list
       ≡ₚ prevQuizzes.
Proof.
  pose proof (client_uniqueIdPass_inv prevQuizzes) as (_ & Hb & Hc & Hd).
  pose proof (client_uniqueIdPass_contentHashMap prevQuizzes (Client.mkPasses ∅ ∅ [] []))
    as Hchm.
  set (st1 := foldl Client.uniqueIdPass_step (Client.mkPasses ∅ ∅ [] []) prevQuizzes) in *.
  assert (Hinit : clientContentPassInv (Client.uniqueQuizzes st1)
                    (Client.duplicatesRemoved st1) [] st1).
  { exists []. rewrite app_nil_r. split; [done |]. split; [constructor |].
    split; [rewrite fmap_nil; constructor |]. split.
    - intros h. rewrite Hchm. cbn [Client.contentHashMap]. rewrite lookup_empty, fmap_nil.
      split; [intros [? ?]; done | intros Hin; by apply elem_of_nil in Hin].
    - by rewrite filter_nil, app_nil_r. }
  pose proof (client_contentPass_foldl_inv _ _ prevQuizzes [] st1 Hinit)
    as (others & Hu & Hno & Hnd & _ & Hperm).
  cbn [app] in Hperm. unfold Client.firstPasses. fold st1.
  exists (Client.uniqueQuizzes st1), others.
  split; [done |]. split; [| split; [done | split; [done | split; [done |]]]].
  - apply Forall_forall. intros q Hq. by apply Hb.
  - rewrite Hu, <- app_assoc, Hperm, app_assoc, Hd. apply filter_app_complement.
Qed.

Lemma client_titlePass_step_cases st x :
  Client.titlePass_step st x
  = Client.mkTitles (Client.processedTitles st) (Client.finalUniqueQuizzes st)
      (Client.titleDuplicates st ++ [x])
  \/ (Client.finalUniqueQuizzes (Client.titlePass_step st x)
       = (Client.finalUniqueQuizzes st ++ [x])%list
      /\ Client.titleDuplicates (Client.titlePass_step st x) = Client.titleDuplicates st
      /\ forall dups, Client.titlePass_step (withDuplicates dups st) x
                      = withDuplicates dups (Client.titlePass_step st x)).
Proof.
  unfold Client.titlePass_step, withDuplicates.
  cbn [Client.processedTitles Client.finalUniqueQuizzes Client.titleDuplicates].
  destruct (Client.processedTitles st !! normalize (i_title x)) as [l|].
  - destruct (existsb (Client.similarTo x) l); [by left | by right].
  - by right.
Qed.

(** The third pass keeps a sublist of the quizzes it visits, sends the
    others to the duplicates, and decides on each quiz from the quizzes
    kept before it alone: run again on the kept quizzes from the same
    titles, it keeps them all. *)
Lemma client_titlePass_replay todo :
  forall st,
    exists kept,
      Client.finalUniqueQuizzes (foldl Client.titlePass_step st todo)
      = (Client.finalUniqueQuizzes st ++ kept)%list
      /\ sublist kept todo
      /\ (kept ++ Client.titleDuplicates (foldl Client.titlePass_step st todo))%list
         ≡ₚ (Client.titleDuplicates st ++ todo)%list
      /\ forall dups,
           foldl Client.titlePass_step (withDuplicates dups st) kept
           = withDuplicates dups (foldl Client.titlePass_step st todo).
Proof.
  induction todo as [|x todo IH]; intros st; cbn [foldl].
  - exists []. rewrite !app_nil_r. by repeat split.
  - destruct (IH (Client.titlePass_step st x)) as (kept & H1 & H2 & H3 & H4).
    destruct (client_titlePass_step_cases st x) as [Hdrop | (Hfin & Hdup & Hstep)].
    + exists kept. rewrite Hdrop in H1, H3, H4 |- *.
      cbn [Client.finalUniqueQuizzes Client.titleDuplicates] in H1, H3.
      split; [done |]. split; [by apply sublist_cons |]. split.
      * rewrite H3. by rewrite <- app_assoc.
      * intros dups. by rewrite <- H4.
    + exists (x :: kept). split; [| split; [| split]].
      * by rewrite H1, Hfin, <- app_assoc.
      * by apply sublist_skip.
      * cbn [app]. rewrite H3, Hdup. apply Permutation_middle.
      * intros dups. cbn [foldl]. by rewrite Hstep, H4.
Qed.

(** On quizzes whose identifiers are new and distinct, the first pass
    appends every identified quiz and finds no duplicate. *)
Lemma client_uniqueIdPass_fresh todo :
  forall st,
    NoDup (i_uniqueId <$> filter identified todo) ->
    (forall q u, q ∈ todo -> identified q -> i_uniqueId q = Some u ->
                 Client.uniqueIdMap st !! u = None) ->
    exists m,
      foldl Client.uniqueIdPass_step st todo
      = Client.mkPasses m (Client.contentHashMap st)
          (Client.uniqueQuizzes st ++ filter identified todo)
          (Client.duplicatesRemoved st).
Proof.
  induction todo as [|x todo IH]; intros st Hnd Hfresh; cbn [foldl].
  - exists (Client.uniqueIdMap st). rewrite filter_nil, app_nil_r. by destruct st.
  - assert (Htail : forall q u, q ∈ todo -> identified q -> i_uniqueId q = Some u ->
                      Client.uniqueIdMap st !! u = None)
      by (intros q u Hq; apply Hfresh; by right).
    rewrite filter_cons in Hnd |- *. unfold Client.uniqueIdPass_step at 2.
    destruct (decide (identified x)) as [Hx | Hx].
    + unfold identified in Hx. rewrite Hx.
      destruct (i_uniqueId x) as [u|] eqn:Hu; [| discriminate].
      rewrite (Hfresh x u); [| by left | unfold identified; by rewrite Hu | done].
      rewrite fmap_cons in Hnd. apply NoDup_cons in Hnd as [Hxn Hnd].
      destruct (IH (Client.mkPasses (<[u := x]> (Client.uniqueIdMap st))
                      (Client.contentHashMap st) (Client.uniqueQuizzes st ++ [x])
                      (Client.duplicatesRemoved st)) Hnd) as [m Hm].
      * intros q u' Hq Hqi Hqu. cbn [Client.uniqueIdMap].
        rewrite lookup_insert_ne; [by apply (Htail q) |].
        intros <-. apply Hxn. rewrite Hu, <- Hqu.
        apply list_elem_of_fmap_2, list_elem_of_filter. by split.
      * exists m. rewrite Hm.
        cbn [Client.contentHashMap Client.uniqueQuizzes Client.duplicatesRemoved].
        by rewrite <- app_assoc.
    + assert (Ht : truthyS (i_uniqueId x) = false).
      { destruct (truthyS (i_uniqueId x)) eqn:E; [| done]. by destruct Hx. }
      rewrite Ht. by apply IH.
Qed.

(** On quizzes whose fingerprints are new and distinct, the second pass
    appends every quiz without identifier and finds no duplicate. *)
Lemma client_contentPass_fresh todo :
  forall st,
    NoDup (createQuizContentHash <$> filter (fun q => ~ identified q) todo) ->
    (forall q, q ∈ todo -> ~ identified q ->
               Client.contentHashMap st !! createQuizContentHash q = None) ->
    exists c,
      foldl Client.contentPass_step st todo
      = Client.mkPasses (Client.uniqueIdMap st) c
          (Client.uniqueQuizzes st ++ filter (fun q => ~ identified q) todo)
          (Client.duplicatesRemoved st).
Proof.
  induction todo as [|x todo IH]; intros st Hnd Hfresh; cbn [foldl].
  - exists (Client.contentHashMap st). rewrite filter_nil, app_nil_r. by destruct st.
  - assert (Htail : forall q, q ∈ todo -> ~ identified q ->
                      Client.contentHashMap st !! createQuizContentHash q = None)
      by (intros q Hq; apply Hfresh; by right).
    rewrite filter_cons in Hnd |- *. unfold Client.contentPass_step at 2.
    destruct (decide (~ identified x)) as [Hx | Hx].
    + assert (Ht : truthyS (i_uniqueId x) = false).
      { destruct (truthyS (i_uniqueId x)) eqn:E; [| done]. by destruct Hx. }
      rewrite Ht. cbn [negb]. rewrite (Hfresh x); [| by left | done].
      rewrite fmap_cons in Hnd. apply NoDup_cons in Hnd as [Hxn Hnd].
      destruct (IH (Client.mkPasses (Client.uniqueIdMap st)
                      (<[createQuizContentHash x := x]> (Client.contentHashMap st))
                      (Client.uniqueQuizzes st ++ [x])
                      (Client.duplicatesRemoved st)) Hnd) as [c Hc].
      * intros q Hq Hqi. cbn [Client.contentHashMap].
        rewrite lookup_insert_ne; [by apply (Htail q) |].
        intros Heq. apply Hxn. rewrite Heq.
        apply list_elem_of_fmap_2, list_elem_of_filter. by split.
      * exists c. rewrite Hc.
        cbn [Client.uniqueIdMap Client.uniqueQuizzes Client.duplicatesRemoved].
        by rewrite <- app_assoc.
    + assert (Ht : truthyS (i_uniqueId x) = true).
      { destruct (truthyS (i_uniqueId x)) eqn:E; [done |].
        exfalso. apply Hx. unfold identified. congruence. }
      rewrite Ht. cbn [negb]. by apply IH.
Qed.

Lemma filter_all_none {A} (P : A -> Prop) `{!forall x, Decision (P x)} (l : list A) :
  Forall P l -> filter P l = l /\ filter (fun x => ~ P x) l = [].
Proof.
  intros Hall. rewrite Forall_forall in Hall. split.
  - by apply filter_all.
  - apply filter_none. intros x Hx Hn. by apply Hn, Hall.
Qed.

Lemma filter_none_all {A} (P : A -> Prop) `{!forall x, Decision (P x)} (l : list A) :
  Forall (fun x => ~ P x) l -> filter P l = [] /\ filter (fun x => ~ P x) l = l.
Proof.
  intros Hall. rewrite Forall_forall in Hall. split.
  - apply filter_none. intros x Hx. by apply Hall.
  - apply filter_all. intros x Hx. by apply Hall.
Qed.

(** What [removeDuplicateQuizzes] of the client returns: identified
    quizzes followed by quizzes without identifier, taken in their order
    from what the first two passes left. *)
Lemma client_removeDuplicateQuizzes_shape prevQuizzes :
  exists identifiedQuizzes others,
    (Client.removeDuplicateQuizzes prevQuizzes).1 = (identifiedQuizzes ++ others)%list
    /\ Forall identified identifiedQuizzes
    /\ NoDup (i_uniqueId <$> identifiedQuizzes)
    /\ Forall (fun q => ~ identified q) others
    /\ NoDup (createQuizContentHash <$> others).
Proof.
  destruct (client_firstPasses_inv prevQuizzes)
    as (U1 & U2 & Hu & H1 & Hn1 & H2 & Hn2 & _).
  unfold Client.removeDuplicateQuizzes, Client.titlePass. cbn [fst].
  destruct (client_titlePass_replay (Client.uniqueQuizzes (Client.firstPasses prevQuizzes))
              (Client.mkTitles ∅ [] (Client.duplicatesRemoved (Client.firstPasses prevQuizzes))))
    as (kept & Hfin & Hsub & _ & _).
  cbn [Client.finalUniqueQuizzes app] in Hfin. rewrite Hfin.
  rewrite Hu in Hsub. apply sublist_app_r in Hsub as (k1 & k2 & -> & Hs1 & Hs2).
  exists k1, k2. split; [done |]. split; [| split; [| split]].
  - apply Forall_forall. intros q Hq. rewrite Forall_forall in H1.
    by apply H1, (sublist_subseteq _ _ Hs1).
  - eapply sublist_NoDup; [exact Hn1 | by apply fmap_sublist].
  - apply Forall_forall. intros q Hq. rewrite Forall_forall in H2.
    by apply H2, (sublist_subseteq _ _ Hs2).
  - eapply sublist_NoDup; [exact Hn2 | by apply fmap_sublist].
Qed.

(** X13. The client's [removeDuplicateQuizzes] accounts for every quiz:
    the quizzes it keeps and the quizzes it lists in [duplicatesRemoved]
    are, up to order, the quizzes it was given; so the number it shows is
    the number of quizzes that disappear. Among the quizzes it keeps, no two
    have the same [uniqueId], and no two of those without [uniqueId] have
    the same fingerprint. *)
Theorem client_dedup_accounts_and_separates prevQuizzes :
  let r := Client.removeDuplicateQuizzes prevQuizzes in
  (r.1 ++ r.2)%list ≡ₚ prevQuizzes
  /\ (List.length r.1 + List.length r.2 = List.length prevQuizzes)%nat
  /\ NoDup (i_uniqueId <$> filter identified r.1)
  /\ NoDup (createQuizContentHash <$> filter (fun q => ~ identified q) r.1).
Proof.
  intros r.
  assert (Hperm : (r.1 ++ r.2)%list ≡ₚ prevQuizzes).
  { subst r. unfold Client.removeDuplicateQuizzes, Client.titlePass. cbn [fst snd].
    destruct (client_firstPasses_inv prevQuizzes) as (_ & _ & _ & _ & _ & _ & _ & Hp).
    destruct (client_titlePass_replay
                (Client.uniqueQuizzes (Client.firstPasses prevQuizzes))
                (Client.mkTitles ∅ []
                   (Client.duplicatesRemoved (Client.firstPasses prevQuizzes))))
      as (kept & Hfin & _ & Hacc & _).
    cbn [Client.finalUniqueQuizzes Client.titleDuplicates app] in Hfin, Hacc.
    rewrite Hfin, Hacc. etrans; [apply Permutation_app_comm | exact Hp]. }
  split; [done |]. split.
  - rewrite <- length_app. by apply Permutation_length.
  - destruct (client_removeDuplicateQuizzes_shape prevQuizzes)
      as (k1 & k2 & Hr & H1 & Hn1 & H2 & Hn2).
    fold r in Hr. rewrite Hr, !filter_app.
    destruct (filter_all_none identified k1 H1) as [-> ->].
    destruct (filter_none_all identified k2 H2) as [-> ->].
    by rewrite app_nil_r.
Qed.

(** X14. The client's [removeDuplicateQuizzes] is idempotent: run on the
    list it returned, it returns that list and finds no duplicate. *)
Theorem client_dedup_idempotent prevQuizzes :
  Client.removeDuplicateQuizzes (Client.removeDuplicateQuizzes prevQuizzes).1
  = ((Client.removeDuplicateQuizzes prevQuizzes).1, []).
Proof.
  destruct (client_removeDuplicateQuizzes_shape prevQuizzes)
    as (k1 & k2 & Hr & H1 & Hn1 & H2 & Hn2).
  assert (Hfirst : exists m c,
            Client.firstPasses (Client.removeDuplicateQuizzes prevQuizzes).1
            = Client.mkPasses m c (Client.removeDuplicateQuizzes prevQuizzes).1 []).
  { rewrite Hr. unfold Client.firstPasses.
    destruct (filter_all_none identified k1 H1) as [Ha1 Hb1].
    destruct (filter_none_all identified k2 H2) as [Ha2 Hb2].
    destruct (client_uniqueIdPass_fresh (k1 ++ k2) (Client.mkPasses ∅ ∅ [] []))
      as [m Hm].
    { by rewrite filter_app, Ha1, Ha2, app_nil_r. }
    { intros q u _ _ _. apply lookup_empty. }
    rewrite Hm. cbn [Client.contentHashMap Client.uniqueQuizzes Client.duplicatesRemoved app].
    rewrite filter_app, Ha1, Ha2, app_nil_r.
    destruct (client_contentPass_fresh (k1 ++ k2) (Client.mkPasses m ∅ k1 [])) as [c Hc].
    { by rewrite filter_app, Hb1, Hb2. }
    { intros q _ _. apply lookup_empty. }
    rewrite Hc. cbn [Client.uniqueIdMap Client.uniqueQuizzes Client.duplicatesRemoved].
    rewrite filter_app, Hb1, Hb2. by exists m, c. }
  destruct Hfirst as (m & c & Hfirst).
  unfold Client.removeDuplicateQuizzes at 1. rewrite Hfirst.
  unfold Client.titlePass. cbn [Client.uniqueQuizzes Client.duplicatesRemoved].
  unfold Client.removeDuplicateQuizzes, Client.titlePass. cbn [fst].
  destruct (client_titlePass_replay
              (Client.uniqueQuizzes (Client.firstPasses prevQuizzes))
              (Client.mkTitles ∅ []
                 (Client.duplicatesRemoved (Client.firstPasses prevQuizzes))))
    as (kept & Hfin & _ & _ & Hreplay).
  cbn [Client.finalUniqueQuizzes app] in Hfin. rewrite Hfin.
  specialize (Hreplay []). unfold withDuplicates at 1 in Hreplay.
  cbn [Client.processedTitles Client.finalUniqueQuizzes] in Hreplay.
  rewrite Hreplay. unfold withDuplicates.
  cbn [Client.finalUniqueQuizzes Client.titleDuplicates]. by rewrite Hfin.
Qed.

(** ** The merge of the public quizzes into the local list *)

Lemma collect_foldl_spec todo :
  forall processed st,
    ((forall u, u ∈ Merge.localUniqueIds st
                <-> Some u ∈ i_uniqueId <$> filter identified processed)
     /\ (forall h, is_Some (Merge.localContentHashes st !! h)
                   <-> h ∈ createQuizContentHash <$> processed)
     /\ (forall t, default [] (Merge.localTitles st !! t)
                   = filter (fun q => normalize (i_title q) = t) processed)) ->
    let st' := foldl Merge.collect_step st todo in
    (forall u, u ∈ Merge.localUniqueIds st'
               <-> Some u ∈ i_uniqueId <$> filter identified (processed ++ todo)%list)
    /\ (forall h, is_Some (Merge.localContentHashes st' !! h)
                  <-> h ∈ createQuizContentHash <$> (processed ++ todo)%list)
    /\ (forall t, default [] (Merge.localTitles st' !! t)
                  = filter (fun q => normalize (i_title q) = t) (processed ++ todo)%list).
Proof.
  induction todo as [|x todo IH]; intros processed st (Hids & Hhashes & Htitles);
    cbn [foldl].
  - by rewrite app_nil_r.
  - cbv zeta. rewrite cons_middle, app_assoc. apply IH.
    unfold Merge.collect_step.
    cbn [Merge.localUniqueIds Merge.localContentHashes Merge.localTitles].
    split; [| split].
    + intros u. rewrite filter_snoc.
      destruct (decide (identified x)) as [Hx | Hx].
      * unfold identified in Hx. rewrite Hx.
        destruct (i_uniqueId x) as [ux|] eqn:Hux; [| discriminate].
        rewrite fmap_app, elem_of_app, elem_of_union, Hids, elem_of_singleton.
        cbn [fmap list_fmap]. rewrite list_elem_of_singleton, Hux.
        split; (intros [H | H]; [right | left]; congruence).
      * assert (Ht : truthyS (i_uniqueId x) = false).
        { destruct (truthyS (i_uniqueId x)) eqn:E; [| done]. by destruct Hx. }
        rewrite Ht. apply Hids.
    + intros h. rewrite fmap_app, elem_of_app, <- Hhashes, lookup_insert.
      cbn [fmap list_fmap]. rewrite list_elem_of_singleton. case_decide as Hh.
      * split; [intros _; by right | intros _; by eexists].
      * split; [intros Hs; by left | intros [Hs | Hs]; [done | congruence]].
    + intros t. rewrite filter_snoc.
      destruct (decide (normalize (i_title x) = t)) as [Ht | Ht].
      * subst t. rewrite lookup_insert_eq. cbn [default]. by rewrite Htitles.
      * rewrite lookup_insert_ne by done. apply Htitles.
Qed.

Lemma collect_spec prevQuizzes :
  (forall u, u ∈ Merge.localUniqueIds (Merge.collect prevQuizzes)
             <-> Some u ∈ i_uniqueId <$> filter identified prevQuizzes)
  /\ (forall h, is_Some (Merge.localContentHashes (Merge.collect prevQuizzes) !! h)
                <-> h ∈ createQuizContentHash <$> prevQuizzes)
  /\ (forall t, default [] (Merge.localTitles (Merge.collect prevQuizzes) !! t)
                = filter (fun q => normalize (i_title q) = t) prevQuizzes).
Proof.
  apply (collect_foldl_spec prevQuizzes [] (Merge.mkLocals ∅ ∅ ∅)).
  cbn [Merge.localUniqueIds Merge.localContentHashes Merge.localTitles].
  split; [| split].
  - intros u. rewrite filter_nil, fmap_nil.
    split; [intros H; by apply not_elem_of_empty in H | intros H; by apply elem_of_nil in H].
  - intros h. rewrite lookup_empty, fmap_nil.
    split; [intros [? ?]; done | intros H; by apply elem_of_nil in H].
  - intros t. by rewrite lookup_empty.
Qed.

Lemma isNew_isNewFor prevQuizzes serverQuiz :
  Merge.isNew (Merge.collect prevQuizzes) serverQuiz = isNewFor prevQuizzes serverQuiz.
Proof.
  destruct (collect_spec prevQuizzes) as (Hids & Hhashes & Htitles).
  unfold Merge.isNew, isNewFor.
  assert (Hu : truthyS (i_uniqueId serverQuiz)
               && match i_uniqueId serverQuiz with
                  | Some u => bool_decide (u ∈ Merge.localUniqueIds (Merge.collect prevQuizzes))
                  | None => false
                  end
               = truthyS (i_uniqueId serverQuiz)
                 && bool_decide (i_uniqueId serverQuiz
                                 ∈ i_uniqueId <$> filter identified prevQuizzes)).
  { destruct (i_uniqueId serverQuiz) as [u|]; [| done]. f_equal.
    apply bool_decide_ext, Hids. }
  rewrite Hu. clear Hu.
  destruct (truthyS (i_uniqueId serverQuiz) && bool_decide _); cbn [negb andb]; [done |].
  rewrite (bool_decide_ext _ _ (Hhashes (createQuizContentHash serverQuiz))).
  destruct (bool_decide (createQuizContentHash serverQuiz
                         ∈ createQuizContentHash <$> prevQuizzes)); cbn [negb andb];
    [done |].
  rewrite <- Htitles.
  by destruct (Merge.localTitles (Merge.collect prevQuizzes)
               !! normalize (i_title serverQuiz)).
Qed.

Lemma mergeServerQuizzes_eq now prevQuizzes serverQuizzes :
  Merge.mergeServerQuizzes now prevQuizzes serverQuizzes
  = (prevQuizzes
     ++ map (Merge.received now) (List.filter (isNewFor prevQuizzes) serverQuizzes))%list.
Proof.
  unfold Merge.mergeServerQuizzes.
  assert (Hf : List.filter (Merge.isNew (Merge.collect prevQuizzes)) serverQuizzes
               = List.filter (isNewFor prevQuizzes) serverQuizzes).
  { apply filter_ext. intros s. apply isNew_isNewFor. }
  rewrite Hf.
  destruct (map (Merge.received now) (List.filter (isNewFor prevQuizzes) serverQuizzes));
    [by rewrite app_nil_r | done].
Qed.

Lemma existsb_true_elem {A} (p : A -> bool) l :
  existsb p l = true <-> exists x, x ∈ l /\ p x = true.
Proof.
  rewrite existsb_exists. split; intros (x & Hx & Hp); exists x;
    (split; [by apply list_elem_of_In | done]).
Qed.

(** What [isNewFor] says, in words of the local list. *)
Lemma isNewFor_true prevQuizzes serverQuiz :
  isNewFor prevQuizzes serverQuiz = true
  <-> (identified serverQuiz ->
       forall p, p ∈ prevQuizzes -> i_uniqueId p <> i_uniqueId serverQuiz)
      /\ (forall p, p ∈ prevQuizzes ->
            createQuizContentHash p <> createQuizContentHash serverQuiz)
      /\ (forall p, p ∈ prevQuizzes ->
            normalize (i_title p) = normalize (i_title serverQuiz) ->
            Merge.similarQuiz serverQuiz p = false).
Proof.
  unfold isNewFor. rewrite !andb_true_iff, !negb_true_iff.
  rewrite andb_false_iff, !bool_decide_eq_false.
  split.
  - intros [[Hu Hh] Ht]. split; [| split].
    + intros Hs p Hp Heq. destruct Hu as [Hu | Hu]; [unfold identified in Hs; congruence |].
      apply Hu. rewrite <- Heq. apply list_elem_of_fmap_2, list_elem_of_filter.
      split; [| done]. unfold identified in *. by rewrite Heq.
    + intros p Hp Heq. apply Hh. rewrite <- Heq. by apply list_elem_of_fmap_2.
    + intros p Hp Heq. destruct (Merge.similarQuiz serverQuiz p) eqn:Hsim; [| done].
      assert (Hex : existsb (Merge.similarQuiz serverQuiz)
                      (filter (fun q => normalize (i_title q) = normalize (i_title serverQuiz))
                         prevQuizzes) = true).
      { apply existsb_true_elem. exists p. split; [| done].
        by apply list_elem_of_filter. }
      congruence.
  - intros (Hu & Hh & Ht). split; [split |].
    + destruct (truthyS (i_uniqueId serverQuiz)) eqn:Hs; [right | by left].
      intros Hin. apply list_elem_of_fmap in Hin as (p & Heq & Hp).
      apply list_elem_of_filter in Hp as [_ Hp]. by apply (Hu Hs p Hp).
    + intros Hin. apply list_elem_of_fmap in Hin as (p & Heq & Hp).
      by apply (Hh p Hp).
    + destruct (existsb _ _) eqn:Hex; [| done].
      apply existsb_true_elem in Hex as (p & Hp & Hsim).
      apply list_elem_of_filter in Hp as [Hpt Hp]. rewrite (Ht p Hp Hpt) in Hsim. done.
Qed.

Lemma createQuizContentHash_received now quiz :
  createQuizContentHash (Merge.received now quiz) = createQuizContentHash quiz.
Proof. reflexivity. Qed.


(** X16. Merging the same response a second time adds nothing: the merge
    of a response into the list that a first merge of it returned is that
    list. *)
Theorem merge_twice_adds_nothing now now' prevQuizzes serverQuizzes :
  Merge.mergeServerQuizzes now'
    (Merge.mergeServerQuizzes now prevQuizzes serverQuizzes) serverQuizzes
  = Merge.mergeServerQuizzes now prevQuizzes serverQuizzes.
Proof.
  rewrite (mergeServerQuizzes_eq now'). rewrite (mergeServerQuizzes_eq now).
  set (merged := (prevQuizzes ++ map (Merge.received now)
                    (List.filter (isNewFor prevQuizzes) serverQuizzes))%list).
  assert (Hnone : List.filter (isNewFor merged) serverQuizzes = []).
  { rewrite filter_bool_Prop. apply filter_none. intros s Hs Hnew.
    apply isNewFor_true in Hnew as (Hu & Hh & Ht).
    destruct (isNewFor prevQuizzes s) eqn:Hfirst.
    - apply (Hh (Merge.received now s)); [| apply createQuizContentHash_received].
      apply elem_of_app. right. apply list_elem_of_In, in_map, filter_In.
      split; [by apply list_elem_of_In | done].
    - assert (Hyes : isNewFor prevQuizzes s = true); [| congruence].
      apply isNewFor_true. split; [| split].
      + intros Hi p Hp. apply (Hu Hi). apply elem_of_app. by left.
      + intros p Hp. apply Hh. apply elem_of_app. by left.
      + intros p Hp. apply Ht. apply elem_of_app. by left. }
  rewrite Hnone. cbn [map]. by rewrite app_nil_r.
Qed.

(** ** What the fingerprint does not see *)





(** ** The quizzes in [localStorage]: what is saved is what is loaded *)

Lemma string_app_cons c (a b : string) : String c a ++ b = String c (a ++ b).
Proof. reflexivity. Qed.

Lemma string_app_nil_r (s : string) : s ++ EmptyString = s.
Proof. induction s as [|c s IH]; [done |]. by rewrite string_app_cons, IH. Qed.

Lemma string_app_assoc (a b c : string) : (a ++ b) ++ c = a ++ (b ++ c).
Proof. induction a as [|x a IH]; [done |]. by rewrite !string_app_cons, IH. Qed.

Lemma string_length_app (a b : string) :
  String.length (a ++ b) = (String.length a + String.length b)%nat.
Proof. induction a as [|x a IH]; [done |]. rewrite string_app_cons. cbn. by rewrite IH. Qed.

Lemma string_app_ne_self (s t : string) : t <> EmptyString -> s <> s ++ t.
Proof.
  intros Ht Heq. apply (f_equal String.length) in Heq. rewrite string_length_app in Heq.
  destruct t as [|c t]; [done |]. cbn in Heq. lia.
Qed.

Lemma key_ne_chunksKey key : key <> LocalStorage.chunksKey key.
Proof. apply string_app_ne_self. discriminate. Qed.

Lemma key_ne_chunkKey key i : key <> LocalStorage.chunkKey key i.
Proof. apply string_app_ne_self. discriminate. Qed.

Lemma chunksKey_ne_chunkKey key i :
  LocalStorage.chunksKey key <> LocalStorage.chunkKey key i.
Proof.
  unfold LocalStorage.chunksKey, LocalStorage.chunkKey. intros Heq.
  apply string_app_inv_head in Heq. discriminate.
Qed.

Lemma chunkKey_inj key i j :
  LocalStorage.chunkKey key i = LocalStorage.chunkKey key j -> i = j.
Proof.
  unfold LocalStorage.chunkKey. intros Heq.
  apply string_app_inv_head, string_app_inv_head in Heq.
  by apply (inj pretty) in Heq.
Qed.

(** *** Chunks of a string *)

Lemma substring_nil a m : String.substring a m EmptyString = EmptyString.
Proof. by destruct a, m. Qed.

Lemma substring_empty a s : String.substring a 0 s = EmptyString.
Proof.
  revert s. induction a as [|a IH]; intros s; [by destruct s |].
  destruct s as [|c s]; [done | apply IH].
Qed.

Lemma substring_split a m1 m2 s :
  String.substring a (m1 + m2) s
  = String.substring a m1 s ++ String.substring (a + m1) m2 s.
Proof.
  revert s m1. induction a as [|a IHa]; intros s m1.
  - revert s. induction m1 as [|m1 IH]; intros s.
    + cbn [Nat.add]. by destruct s.
    + destruct s as [|c s]; [by rewrite !substring_nil |].
      cbn [Nat.add String.substring]. by rewrite string_app_cons, IH.
  - destruct s as [|c s]; [by rewrite !substring_nil |].
    cbn [Nat.add String.substring]. apply IHa.
Qed.

Lemma substring_length a m s :
  String.length (String.substring a m s) = Nat.min m (String.length s - a).
Proof.
  revert s m. induction a as [|a IHa]; intros s m.
  - revert s. induction m as [|m IH]; intros s; [by destruct s |].
    destruct s as [|c s]; [done |]. cbn [String.substring String.length].
    rewrite IH. cbn. lia.
  - destruct s as [|c s]; [rewrite substring_nil; cbn; lia |].
    cbn [String.substring String.length]. rewrite IHa. cbn. done.
Qed.

Lemma substring_all m s :
  (String.length s <= m)%nat -> String.substring 0 m s = s.
Proof.
  revert s. induction m as [|m IH]; intros s Hlen.
  - destruct s; [done | cbn in Hlen; lia].
  - destruct s as [|c s]; [done |]. cbn [String.substring].
    rewrite IH; [done |]. cbn in Hlen. lia.
Qed.

(** *** The chunk count as text *)

Lemma digit_pretty_N_char d :
  (d < 10)%N -> LocalStorage.digit (pretty_N_char d) = Some d.
Proof.
  intros Hd.
  assert (d = 0 \/ d = 1 \/ d = 2 \/ d = 3 \/ d = 4 \/ d = 5 \/ d = 6 \/ d = 7
          \/ d = 8 \/ d = 9)%N as Hcases by lia.
  destruct Hcases as [-> | [-> | [-> | [-> | [-> | [-> | [-> | [-> | [-> | ->]]]]]]]]];
    reflexivity.
Qed.

Lemma is_space_pretty_N_char d : is_space (pretty_N_char d) = false.
Proof. unfold pretty_N_char. by repeat case_match. Qed.

Lemma parseDigits_pretty_N_go x s :
  (0 < x)%N ->
  LocalStorage.parseDigits None (pretty_N_go x s)
  = LocalStorage.parseDigits (Some x) s.
Proof.
  revert s. induction (N.lt_wf_0 x) as [x _ IH]; intros s Hx.
  rewrite pretty_N_go_step by done.
  assert (Hd : (x `mod` 10 < 10)%N) by (apply N.mod_lt; lia).
  destruct (N.eq_0_gt_0_cases (x `div` 10)) as [H0 | Hpos].
  - rewrite H0, pretty_N_go_0. cbn [LocalStorage.parseDigits].
    rewrite (digit_pretty_N_char _ Hd). cbn [from_option]; unfold Datatypes.id. f_equal. f_equal.
    pose proof (N.div_mod x 10 ltac:(lia)). lia.
  - rewrite IH; [| by apply N.div_lt | done]. cbn [LocalStorage.parseDigits].
    rewrite (digit_pretty_N_char _ Hd). cbn [from_option]; unfold Datatypes.id. f_equal. f_equal.
    pose proof (N.div_mod x 10 ltac:(lia)). lia.
Qed.

(** The decimal text of a positive number starts with a digit. *)
Lemma pretty_N_go_head x s :
  (0 < x)%N -> exists d s', pretty_N_go x s = String (pretty_N_char d) s'.
Proof.
  revert s. induction (N.lt_wf_0 x) as [x _ IH]; intros s Hx.
  rewrite pretty_N_go_step by done.
  destruct (N.eq_0_gt_0_cases (x `div` 10)) as [H0 | Hpos].
  - rewrite H0, pretty_N_go_0. by eexists _, _.
  - apply IH; [by apply N.div_lt | done].
Qed.

Lemma parseInt_pretty (n : nat) : LocalStorage.parseInt (pretty n) = Some (Z.of_nat n).
Proof.
  unfold pretty, pretty_nat, pretty, pretty_N.
  destruct (decide (N.of_nat n = 0%N)) as [H0 | Hne].
  - assert (n = 0%nat) by lia. subst n. reflexivity.
  - assert (Hpos : (0 < N.of_nat n)%N) by lia.
    destruct (pretty_N_go_head (N.of_nat n) EmptyString Hpos) as (d & s' & Hhead).
    pose proof (parseDigits_pretty_N_go (N.of_nat n) EmptyString Hpos) as Hparse.
    rewrite Hhead in Hparse |- *. unfold LocalStorage.parseInt.
    cbn [trimStart]. rewrite is_space_pretty_N_char.
    assert (Hgo : Z.of_N <$> LocalStorage.parseDigits None (String (pretty_N_char d) s')
                  = Some (Z.of_nat n)).
    { rewrite Hparse. cbn. f_equal. lia. }
    unfold pretty_N_char in *. by repeat case_match.
Qed.

Lemma pretty_nat_nonempty (n : nat) : truthyS (Some (pretty n)) = true.
Proof.
  unfold pretty, pretty_nat, pretty, pretty_N.
  destruct (decide (N.of_nat n = 0%N)) as [H0 | Hne]; [done |].
  destruct (pretty_N_go_head (N.of_nat n) EmptyString ltac:(lia)) as (d & s' & ->).
  done.
Qed.

Lemma truthyS_nonempty (s : string) :
  (0 < String.length s)%nat -> truthyS (Some s) = true.
Proof. intros Hlen. destruct s; [cbn in Hlen; lia | done]. Qed.

Lemma prefix_app (a b : string) : String.prefix a (a ++ b) = true.
Proof.
  induction a as [|c a IH]; [by destruct b |]. rewrite string_app_cons. cbn [String.prefix].
  by destruct (ascii_dec c c).
Qed.

(** *** The two loops over the chunks *)

Lemma removeChunks_lookup_key key i fuel (ls : LocalStorage.Storage) :
  LocalStorage.removeChunks key i fuel ls !! key = ls !! key.
Proof.
  revert i ls. induction fuel as [|fuel IH]; intros i ls; [done |].
  cbn [LocalStorage.removeChunks].
  destruct (truthyS (ls !! LocalStorage.chunkKey key i)); [| done].
  rewrite IH. apply lookup_delete_ne. intros Heq. symmetry in Heq.
  by apply key_ne_chunkKey in Heq.
Qed.

Lemma storeChunks_S key s n (ls : LocalStorage.Storage) :
  LocalStorage.storeChunks key s (S n) ls
  = <[LocalStorage.chunkKey key n :=
        LocalStorage.substring (n * LocalStorage.chunkSize) LocalStorage.chunkSize s]>
      (LocalStorage.storeChunks key s n ls).
Proof. unfold LocalStorage.storeChunks. by rewrite seq_S, foldl_app. Qed.

Lemma storeChunks_lookup_other key s n (ls : LocalStorage.Storage) k :
  (forall i, k <> LocalStorage.chunkKey key i) ->
  LocalStorage.storeChunks key s n ls !! k = ls !! k.
Proof.
  intros Hk. induction n as [|n IH]; [done |].
  rewrite storeChunks_S, lookup_insert_ne; [done |]. intros Heq. by apply (Hk n).
Qed.

Lemma storeChunks_lookup key s n (ls : LocalStorage.Storage) j :
  (j < n)%nat ->
  LocalStorage.storeChunks key s n ls !! LocalStorage.chunkKey key j
  = Some (String.substring (j * LocalStorage.chunkSize) LocalStorage.chunkSize s).
Proof.
  induction n as [|n IH]; intros Hj; [lia |]. rewrite storeChunks_S.
  destruct (decide (j = n)) as [-> | Hne].
  - by rewrite lookup_insert_eq.
  - rewrite lookup_insert_ne; [apply IH; lia |].
    intros Heq. by apply chunkKey_inj in Heq.
Qed.

(** Reading [count] chunks from the [i]-th on appends the characters from
    [i * chunkSize] to [(i + count) * chunkSize], when every chunk read is
    in the storage and not empty. *)
Lemma readChunks_stored key s (ls : LocalStorage.Storage) count i acc :
  (forall j, (i <= j < i + count)%nat ->
     ls !! LocalStorage.chunkKey key j
     = Some (String.substring (j * LocalStorage.chunkSize) LocalStorage.chunkSize s)
     /\ (j * LocalStorage.chunkSize < String.length s)%nat) ->
  (0 < LocalStorage.chunkSize)%nat ->
  LocalStorage.readChunks key ls i count acc
  = Some (acc ++ String.substring (i * LocalStorage.chunkSize)
                   (count * LocalStorage.chunkSize) s).
Proof.
  intros Hstored Hpos. revert i acc Hstored.
  induction count as [|count IH]; intros i acc Hstored.
  - cbn [LocalStorage.readChunks Nat.mul]. f_equal.
    by rewrite substring_empty, string_app_nil_r.
  - cbn [LocalStorage.readChunks].
    destruct (Hstored i ltac:(lia)) as [-> Hlt].
    rewrite truthyS_nonempty by (rewrite substring_length; lia).
    rewrite IH by (intros j Hj; apply Hstored; lia).
    f_equal. rewrite string_app_assoc. f_equal.
    replace (S count * LocalStorage.chunkSize)%nat
      with (LocalStorage.chunkSize + count * LocalStorage.chunkSize)%nat by lia.
    rewrite substring_split. f_equal. f_equal. lia.
Qed.

Lemma chunkSize_pos : (0 < LocalStorage.chunkSize)%nat.
Proof. unfold LocalStorage.chunkSize. lia. Qed.

Lemma chunkCount_covers s :
  (String.length s <= LocalStorage.chunkCount s * LocalStorage.chunkSize)%nat
  /\ (forall j, (j < LocalStorage.chunkCount s)%nat ->
        (j * LocalStorage.chunkSize < String.length s)%nat).
Proof.
  pose proof chunkSize_pos as Hpos. unfold LocalStorage.chunkCount.
  generalize dependent LocalStorage.chunkSize. intros cs Hpos.
  pose proof (Nat.Div0.mul_div_le (String.length s + (cs - 1)) cs) as Hle.
  pose proof (Nat.mul_succ_div_gt (String.length s + (cs - 1)) cs ltac:(lia)) as Hgt.
  set (n := ((String.length s + (cs - 1)) / cs)%nat) in *. clearbody n.
  split; [nia |]. intros j Hj. nia.
Qed.

(** X18. What [saveToLocalStorage] writes under a key, [loadFromLocalStorage]
    hands back to [JSON.parse] unchanged, whatever the storage held before:
    directly for a text under 2,000,000 characters, and re-assembled from
    its chunks of 1,000,000 characters for a longer one. The text must not
    itself start with the marker of a chunked value; no JSON text does. *)
Theorem localStorage_round_trip key jsonString (ls : LocalStorage.Storage) :
  String.prefix "__CHUNKED__" jsonString = false ->
  LocalStorage.loadJson key (LocalStorage.saveJson key jsonString ls) = Some jsonString.
Proof.
  intros Hmarker. unfold LocalStorage.saveJson.
  destruct (N.of_nat (String.length jsonString) <? LocalStorage.threshold)%N eqn:Hsmall.
  - cbv zeta. unfold LocalStorage.loadJson.
    set (ls2 := LocalStorage.removeChunks key 0 20 (<[key := jsonString]> ls)).
    assert (Hkey : ls2 !! key = Some jsonString).
    { unfold ls2. by rewrite removeChunks_lookup_key, lookup_insert_eq. }
    destruct (truthyS (ls2 !! LocalStorage.chunksKey key)).
    + rewrite lookup_delete_ne by (intros Heq; symmetry in Heq; by apply key_ne_chunksKey in Heq).
      by rewrite Hkey, Hmarker.
    + by rewrite Hkey, Hmarker.
  - cbv zeta. unfold LocalStorage.loadJson.
    destruct (chunkCount_covers jsonString) as [Hcover Hin].
    assert (Hn : (0 < LocalStorage.chunkCount jsonString)%nat).
    { apply N.ltb_ge in Hsmall. unfold LocalStorage.threshold in Hsmall.
      destruct (LocalStorage.chunkCount jsonString); [cbn in Hcover; lia | lia]. }
    set (n := LocalStorage.chunkCount jsonString) in *.
    rewrite lookup_insert_eq, prefix_app.
    rewrite lookup_insert_ne by apply key_ne_chunksKey.
    rewrite storeChunks_lookup_other by apply chunksKey_ne_chunkKey.
    rewrite lookup_insert_eq, pretty_nat_nonempty. cbn [from_option]. unfold Datatypes.id.
    rewrite parseInt_pretty.
    destruct (Z.of_nat n <=? 0)%Z eqn:Hle; [apply Z.leb_le in Hle; lia |].
    rewrite Nat2Z.id.
    rewrite (readChunks_stored key jsonString); [| | apply chunkSize_pos].
    + cbn [Nat.mul]. change (EmptyString ++ ?x) with x. f_equal. by apply substring_all.
    + intros j Hj. split; [| apply Hin; lia].
      rewrite lookup_insert_ne by apply key_ne_chunkKey.
      apply storeChunks_lookup. lia.
Qed.

(** On a storage that holds an earlier chunked save, a short text. *)
Lemma localStorage_round_trip_witness :
  String.prefix "__CHUNKED__" "[]" = false
  /\ LocalStorage.loadJson "quizzes"
       (LocalStorage.saveJson "quizzes" "[]"
          (<["quizzes" := "__CHUNKED__2"]> (<["quizzes_chunks" := "2"]> ∅)))
     = Some "[]".
Proof. split; [reflexivity | by apply localStorage_round_trip]. Defined.

(** ** Playing a quiz: the score and the question results *)

Lemma reduceFrom_score_acc (sel : list (option string)) acc index (l : list Question) :
  Play.reduceFrom
    (fun acc question index =>
       acc + (if bool_decide (Play.answerAt sel index = Some (correctAnswer question))
              then 1 else 0))
    acc index l
  = acc + Play.reduceFrom
      (fun acc question index =>
         acc + (if bool_decide (Play.answerAt sel index = Some (correctAnswer question))
                then 1 else 0))
      0 index l.
Proof.
  revert acc index. induction l as [|q l IH]; intros acc index; cbn [Play.reduceFrom]; [lia |].
  rewrite IH, (IH (0 + _)). lia.
Qed.

(** The two tests of [finishQuiz] agree on an answer that is defined, and
    on a question whose correct answer is not the empty text. *)
Lemma same_verdict (a : option string) (c : string) :
  a <> None \/ c <> EmptyString ->
  bool_decide (a = Some c)
  = bool_decide ((if truthyS a then default EmptyString a else EmptyString) = c).
Proof.
  intros Hac. destruct a as [s |]; cbn [truthyS].
  - destruct (String.eqb s EmptyString) eqn:Hs; cbn [negb from_option]; unfold Datatypes.id.
    + apply String.eqb_eq in Hs. subst s. apply bool_decide_ext. split; congruence.
    + apply bool_decide_ext. split; congruence.
  - destruct Hac as [Ha | Hc]; [done |].
    rewrite !bool_decide_eq_false_2; [done | congruence | done].
Qed.

Lemma score_from (sel : list (option string)) index (l : list Question) :
  (forall k q, l !! k = Some q ->
     Play.answerAt sel (index + k) <> None \/ correctAnswer q <> EmptyString) ->
  Play.reduceFrom
    (fun acc question index =>
       acc + (if bool_decide (Play.answerAt sel index = Some (correctAnswer question))
              then 1 else 0))
    0 index l
  = Z.of_nat (List.length (filter (fun r => Play.isCorrect r)
       (Play.mapFrom
          (fun question' index =>
             let userAnswer :=
               if truthyS (Play.answerAt sel index)
               then default EmptyString (Play.answerAt sel index)
               else EmptyString in
             {| Play.r_question := question question';
                Play.userAnswer := userAnswer;
                Play.r_correctAnswer := correctAnswer question';
                Play.isCorrect := bool_decide (userAnswer = correctAnswer question') |})
          index l))).
Proof.
  revert index. induction l as [|q l IH]; intros index Hl; [done |].
  cbn [Play.reduceFrom Play.mapFrom]. rewrite reduceFrom_score_acc.
  rewrite IH by (intros k q' Hk; replace (S index + k)%nat with (index + S k)%nat by lia;
                 by apply Hl).
  pose proof (Hl 0%nat q eq_refl) as Hq. rewrite Nat.add_0_r in Hq.
  cbv zeta. rewrite filter_cons. cbn [Play.isCorrect].
  rewrite <- (same_verdict _ _ Hq).
  destruct (bool_decide (Play.answerAt sel index = Some (correctAnswer q))) eqn:Hb.
  - rewrite decide_True by done. cbn [List.length]. lia.
  - rewrite decide_False by (by intros []). lia.
Qed.

Lemma score_from_le (sel : list (option string)) index (l : list Question) :
  0 <= Play.reduceFrom
    (fun acc question index =>
       acc + (if bool_decide (Play.answerAt sel index = Some (correctAnswer question))
              then 1 else 0))
    0 index l
  <= Z.of_nat (List.length l).
Proof.
  revert index. induction l as [|q l IH]; intros index; cbn [Play.reduceFrom List.length]; [lia |].
  rewrite reduceFrom_score_acc. specialize (IH (S index)).
  destruct (bool_decide _); lia.
Qed.

Lemma mapFrom_length {A B} (f : A -> nat -> B) index (l : list A) :
  List.length (Play.mapFrom f index l) = List.length l.
Proof.
  revert index. induction l as [|x l IH]; intros index; [done |].
  cbn [Play.mapFrom List.length]. by rewrite IH.
Qed.

Lemma startAnswers_answered questions index :
  (index < List.length questions)%nat ->
  Play.answerAt (Play.startAnswers questions) index <> None.
Proof.
  intros Hlt. unfold Play.answerAt, Play.startAnswers.
  by rewrite lookup_replicate_2.
Qed.

Lemma handleAnswer_answered i x prev index :
  Play.answerAt prev index <> None ->
  Play.answerAt (Play.handleAnswer i x prev) index <> None.
Proof.
  unfold Play.answerAt, Play.handleAnswer. intros Hprev.
  destruct (prev !! index) as [a |] eqn:Hlook; [| done].
  destruct (decide (i < List.length prev)%nat) as [Hin | Hout].
  - destruct (decide (index = i)) as [-> | Hne].
    + by rewrite list_lookup_insert_eq.
    + by rewrite list_lookup_insert_ne, Hlook.
  - by rewrite (lookup_app_l_Some _ _ _ _ Hlook).
Qed.

(** X19. From [startQuiz] on and through any sequence of [handleAnswer],
    the score [finishQuiz] records is the number of question results it
    marks correct, and lies between 0 and the number of questions. *)
Theorem play_score_counts_correct_results questions (answers : list (nat * string)) :
  let selectedAnswers :=
    foldl (fun prev a => Play.handleAnswer a.1 a.2 prev) (Play.startAnswers questions) answers in
  Play.newScore questions selectedAnswers
  = Z.of_nat (List.length (filter (fun r => Play.isCorrect r)
                             (Play.questionResults questions selectedAnswers)))
  /\ List.length (Play.questionResults questions selectedAnswers) = List.length questions
  /\ 0 <= Play.newScore questions selectedAnswers <= Z.of_nat (List.length questions).
Proof.
  intros selectedAnswers.
  assert (Hanswered : forall index, (index < List.length questions)%nat ->
            Play.answerAt selectedAnswers index <> None).
  { unfold selectedAnswers. induction answers as [|a answers IH] using rev_ind.
    - apply startAnswers_answered.
    - intros index Hlt. rewrite foldl_app. cbn [foldl].
      by apply handleAnswer_answered, IH. }
  split; [| split].
  - apply score_from. intros k q Hk. left. apply Hanswered.
    by apply lookup_lt_Some in Hk.
  - apply mapFrom_length.
  - apply score_from_le.
Qed.

(** ** The selections of quizzes *)

Lemma toggleQuizSelection_step index (prev : list nat) :
  NoDup prev ->
  NoDup (Play.toggleQuizSelection index prev)
  /\ forall i, i ∈ Play.toggleQuizSelection index prev
       <-> (if decide (i = index) then i ∉ prev else i ∈ prev).
Proof.
  intros Hnd. unfold Play.toggleQuizSelection.
  destruct (bool_decide (index ∈ prev)) eqn:Hin.
  - apply bool_decide_eq_true in Hin. split; [by apply NoDup_filter |].
    intros i. rewrite list_elem_of_filter.
    destruct (decide (i = index)) as [-> | Hne]; [tauto | tauto].
  - apply bool_decide_eq_false in Hin. split.
    + apply NoDup_app. split; [done |]. split; [| apply NoDup_singleton].
      intros i Hi Hi'. apply list_elem_of_singleton in Hi'. by subst i.
    + intros i. rewrite elem_of_app, list_elem_of_singleton.
      destruct (decide (i = index)) as [-> | Hne]; tauto.
Qed.

(** X20. A selection of quizzes, which starts empty and changes through
    its toggle only, never lists a quiz twice, and lists a quiz exactly
    when it was toggled an odd number of times. It holds for
    [selectedQuizzes] and for [quizzesToMerge]: two entries in
    [quizzesToMerge] are two different quizzes. *)
Theorem selection_after_toggles (toggles : list nat) :
  let selectedQuizzes :=
    foldl (fun prev index => Play.toggleQuizSelection index prev) [] toggles in
  let quizzesToMerge :=
    foldl (fun prev index => Play.toggleQuizMergeSelection index prev) [] toggles in
  quizzesToMerge = selectedQuizzes
  /\ NoDup selectedQuizzes
  /\ forall index,
       index ∈ selectedQuizzes
       <-> Nat.odd (List.length (filter (fun i => i = index) toggles)) = true.
Proof.
  intros selectedQuizzes quizzesToMerge. split; [reflexivity |].
  unfold selectedQuizzes. clear.
  induction toggles as [|t toggles [IHnd IHin]] using rev_ind.
  - split; [constructor |]. intros index. cbn. split; [by intros ?%elem_of_nil | done].
  - rewrite foldl_app. cbn [foldl].
    destruct (toggleQuizSelection_step t _ IHnd) as [Hnd Hin].
    split; [done |]. intros index. rewrite Hin, filter_app, length_app, Nat.odd_add.
    rewrite filter_cons, filter_nil.
    destruct (decide (index = t)) as [-> | Hne].
    + rewrite decide_True by done. cbn [List.length Nat.odd Nat.even negb].
      rewrite IHin. destruct (Nat.odd _); cbn; split; congruence.
    + rewrite decide_False by congruence. cbn [List.length Nat.odd Nat.even negb].
      rewrite IHin. by rewrite xorb_false_r.
Qed.
